(** * alertlib: a shallow embedding of [alertlib/__init__.py]

    The module sends one logical alert to several backends (HipChat,
    email, PagerDuty, logs, graphite).  This development embeds the
    [Alert] class and its helpers as Rocq functions and proves the
    properties of the dispatch engine.

    Conventions of the embedding.
    - Text ([unicode] in the source: the constructor decodes byte strings)
      is a list of code points, [ustring].  Literals are written [u "..."].
      The encodings to and from UTF-8 at the boundary are left out.
    - Numbers read from the clock, [rate_limit] and the finite floats sent
      to graphite are rationals: the rounding of the machine's floats is
      not modelled.  The text of a float is the one of Python 2.7.
    - The mutable [Alert], the caller's list objects, the global
      [_TEST_MODE] and the sequence of logged records and external calls
      are threaded through a small state-and-exception monad [M].
    - The external services (the HipChat API, the two mail deliveries,
      syslog, the graphite socket and its cache) are calls recorded in the
      trace; what they answer is given by an environment [env].
    - [_graphite_socket], which keeps the socket to graphite, is embedded
      on its own, over the two globals it works on, with the answers of
      the resolver and of the sockets given by an environment [net].
    - A log message is kept as its format string and its arguments. *)

From Stdlib Require Import ZArith QArith Lqa List Ascii String Lia.
From Stdlib Require Import DecimalString.
From stdpp Require Import base option list gmap strings.

Local Open Scope list_scope.
Local Open Scope Z_scope.

(** ** Text *)

Abbreviation uchar := N.
Abbreviation ustring := (list N).

Definition u (s : string) : ustring :=
  List.map N_of_ascii (list_ascii_of_string s).

Arguments u : simpl never.

(** [c in s] for a one-character [c]. *)
Definition contains (c : uchar) (s : ustring) : bool :=
  existsb (N.eqb c) s.

(** [s.endswith(suf)] *)
Definition endswith (s suf : ustring) : bool :=
  (length suf <=? length s)%nat
  && bool_decide (drop (length s - length suf)%nat s = suf).

(** [s.find(c)] for a one-character [c]: the first index, or [-1]. *)
Fixpoint find_from (c : uchar) (s : ustring) (i : Z) : Z :=
  match s with
  | [] => -1
  | x :: s' => if N.eqb x c then i else find_from c s' (i + 1)
  end.

Definition find (c : uchar) (s : ustring) : Z := find_from c s 0.

(** [s[:k]] with Python's reading of a negative bound. *)
Definition slice_to (k : Z) (s : ustring) : ustring :=
  if k <? 0 then take (Z.to_nat (Z.of_nat (length s) + k)) s
  else take (Z.to_nat k) s.

(** The code points that [unicode.splitlines] treats as line boundaries. *)
Definition is_linebreak (c : uchar) : bool :=
  match c with
  | 10 | 11 | 12 | 13 | 28 | 29 | 30 | 133 | 8232 | 8233 => true
  | _ => false
  end%N.

(** [s.splitlines()]: [line] is the current line, reversed.  A carriage
    return followed by a line feed is one boundary, and no empty line is
    produced after a final boundary. *)
Fixpoint splitlines_go (line : ustring) (s : ustring) : list ustring :=
  match s with
  | [] => match line with [] => [] | _ => [rev line] end
  | c :: rest =>
      if is_linebreak c then
        rev line ::
          match rest with
          | [] => []
          | c' :: rest' =>
              if N.eqb c 13 && N.eqb c' 10
              then splitlines_go [] rest'
              else splitlines_go [] rest
          end
      else splitlines_go (c :: line) rest
  end.

Definition splitlines (s : ustring) : list ustring := splitlines_go [] s.


(** [sep.join(l)] *)
Fixpoint join (sep : ustring) (l : list ustring) : ustring :=
  match l with
  | [] => []
  | [x] => x
  | x :: l' => x ++ sep ++ join sep l'
  end.

(** [s.rstrip('\n')] *)
Fixpoint lstrip_nl (s : ustring) : ustring :=
  match s with
  | c :: s' => if N.eqb c 10 then lstrip_nl s' else s
  | [] => []
  end.

Definition rstrip_nl (s : ustring) : ustring := rev (lstrip_nl (rev s)).

(** ** Constants of the standard library used by the module *)

Module logging.
Definition DEBUG : Z := 10.
Definition INFO : Z := 20.
Definition WARNING : Z := 30.
Definition ERROR : Z := 40.
Definition CRITICAL : Z := 50.
End logging.

Module syslog.
Definition LOG_CRIT : Z := 2.
Definition LOG_ERR : Z := 3.
Definition LOG_WARNING : Z := 4.
Definition LOG_INFO : Z := 6.
Definition LOG_DEBUG : Z := 7.
End syslog.

(** ** Numbers: Python's [int] and (finite) [float] *)

Inductive pynum :=
| PyInt (z : Z)
| PyFloat (q : Q).

(** ** The Alert object *)

Record Alert := mkAlert {
  message : ustring;
  summary : option ustring;
  severity : Z;
  html : bool;
  rate_limit : option Q;
  last_sent : gmap string Q
}.

(** [Alert(message, summary, severity, html, rate_limit)] *)
Definition Alert_init (message : ustring) (summary : option ustring)
    (severity : Z) (html : bool) (rate_limit : option Q) : Alert :=
  mkAlert message summary severity html rate_limit ∅.

Definition with_last_sent (a : Alert) (ls : gmap string Q) : Alert :=
  mkAlert (message a) (summary a) (severity a) (html a) (rate_limit a) ls.

(** ** Exceptions, logged records and external calls *)

Inductive exn :=
| ValueError (fmt : string) (arg : ustring)
| NameError
| AssertionError
| SMTPException
| KeyError
| TypeError
| OtherError (name : string).

(** The dictionary posted to the HipChat API. *)
Record post_dict := mkPost {
  pd_room_id : ustring;
  pd_from : ustring;
  pd_message : ustring;
  pd_message_format : ustring;
  pd_notify : Z;
  pd_color : ustring
}.

(** Keyword arguments of [google_mail.send_mail]; an omitted key is [None]. *)
Record gae_mail_args := mkGae {
  gae_subject : ustring;
  gae_sender : ustring;
  gae_to : option (list ustring);
  gae_cc : option (list ustring);
  gae_bcc : option (list ustring);
  gae_body : ustring;
  gae_html : option ustring
}.

(** What [_send_to_sendmail] builds its message from, before the MIME
    encoding and the parsing of the recipients' addresses. *)
Record sendmail_args := mkSendmail {
  sm_subtype : ustring;
  sm_subject : ustring;
  sm_from : ustring;
  sm_to : option (list ustring);
  sm_cc : option ustring;
  sm_bcc : option ustring;
  sm_body : ustring
}.

(** Values interpolated into log messages.  A message is kept as its
    format string and arguments, [VFmt]. *)
#[local] Unset Elimination Schemes.
Inductive pyval :=
| VText (s : ustring)
| VNum (n : pynum)
| VNone
| VList (l : list ustring)
| VPost (d : post_dict)
| VExn (e : exn)
| VFmt (fmt : string) (args : list pyval).
#[local] Set Elimination Schemes.

Definition VOptList (o : option (list ustring)) : pyval :=
  match o with Some l => VList l | None => VNone end.

Inductive event :=
| Log (level : Z) (msg : pyval)
| HipchatCall (auth_token : ustring) (d : post_dict)
| Sleep (secs : Z)
| GaeSendMail (args : gae_mail_args)
| Sendmail (args : sendmail_args)
| Syslog (priority : Z) (text : ustring)
| GraphiteSend (hostport : ustring) (payload : ustring).



(** ** State and the monad *)

(** [st_self] is the alert the methods are called on, [st_heap] holds the
    list objects of the caller (a list is referred to by its index),
    [st_test_mode] is the global [_TEST_MODE], and [st_trace] records, in
    order, every log record and external call. *)
Record state := mkState {
  st_self : Alert;
  st_heap : list (list ustring);
  st_test_mode : bool;
  st_trace : list event
}.

Definition M (A : Type) : Type := state -> (exn + A) * state.

Definition ret {A} (x : A) : M A := fun st => (inr x, st).

Definition raise {A} (e : exn) : M A := fun st => (inl e, st).

Definition bind {A B} (m : M A) (k : A -> M B) : M B :=
  fun st =>
    match m st with
    | (inr x, st') => k x st'
    | (inl e, st') => (inl e, st')
    end.

Declare Scope py_scope.
Delimit Scope py_scope with py.
Notation "x <- m ;; k" := (bind m (fun x => k))
  (at level 100, m at next level, right associativity) : py_scope.
Notation "m ;;; k" := (bind m (fun _ => k))
  (at level 100, right associativity) : py_scope.
Local Open Scope py_scope.

(** [try: m  except <classes>, why: handler why], where [handler] answers
    [None] for an exception its clause does not name. *)
Definition try_except {A} (m : M A) (handler : exn -> option (M A)) : M A :=
  fun st =>
    match m st with
    | (inr x, st') => (inr x, st')
    | (inl e, st') =>
        match handler e with
        | Some h => h st'
        | None => (inl e, st')
        end
    end.

Definition get_self : M Alert := fun st => (inr (st_self st), st).

Definition set_last_sent (ls : gmap string Q) : M unit :=
  fun st => (inr tt, mkState (with_last_sent (st_self st) ls) (st_heap st)
                             (st_test_mode st) (st_trace st)).

Definition get_test_mode : M bool := fun st => (inr (st_test_mode st), st).

Definition set_test_mode (b : bool) : M unit :=
  fun st => (inr tt, mkState (st_self st) (st_heap st) b (st_trace st)).

Definition emit (e : event) : M unit :=
  fun st => (inr tt, mkState (st_self st) (st_heap st) (st_test_mode st)
                             (st_trace st ++ [e])).

(** An external call: it is recorded, and fails when the outside world
    says so. *)
Definition call (e : event) (outcome : option exn) : M unit :=
  emit e ;;; match outcome with Some x => raise x | None => ret tt end.

(** [logging.log(level, msg)] *)
Definition logging_log (level : Z) (msg : pyval) : M unit :=
  emit (Log level msg).

(** *** List objects *)

(** [len(lst)]; a reference to no object is a [TypeError]. *)
Definition list_len (l : nat) : M nat :=
  fun st => match st_heap st !! l with
            | Some xs => (inr (length xs), st)
            | None => (inl TypeError, st)
            end.

(** [lst[i]] *)
Definition list_get (l i : nat) : M ustring :=
  fun st => match st_heap st !! l with
            | Some xs => match xs !! i with
                         | Some x => (inr x, st)
                         | None => (inl (OtherError "IndexError"), st)
                         end
            | None => (inl TypeError, st)
            end.

(** [lst[i] = x] *)
Definition list_set (l i : nat) (x : ustring) : M unit :=
  fun st => match st_heap st !! l with
            | Some xs =>
                if (i <? length xs)%nat
                then (inr tt, mkState (st_self st)
                                (<[l := <[i := x]> xs]> (st_heap st))
                                (st_test_mode st) (st_trace st))
                else (inl (OtherError "IndexError"), st)
            | None => (inl TypeError, st)
            end.

(** The whole list, as read when it is handed to a call or a format. *)
Definition list_read (l : nat) : M (list ustring) :=
  fun st => match st_heap st !! l with
            | Some xs => (inr xs, st)
            | None => (inl TypeError, st)
            end.

(** [[x]]: a new list object. *)
Definition list_new (xs : list ustring) : M nat :=
  fun st => (inr (length (st_heap st)),
             mkState (st_self st) (st_heap st ++ [xs])
                     (st_test_mode st) (st_trace st)).

(** ** Test mode *)

Definition enter_test_mode : M unit := set_test_mode true.
Definition exit_test_mode : M unit := set_test_mode false.

(** ** Rate limiting *)

Definition Qgt_bool (x y : Q) : bool := negb (Qle_bool x y).

(** Truth value of [self.rate_limit]: [None] and zero are false. *)
Definition truthy_rate (r : option Q) : bool :=
  match r with
  | None => false
  | Some q => negb (Qeq_bool q 0)
  end.

(** [Alert._passed_rate_limit]; [now] is the reading of [time.time()]. *)
Definition _passed_rate_limit (now : Q) (service_name : string) : M bool :=
  a <- get_self ;;
  if negb (truthy_rate (rate_limit a)) then ret true
  else
    let limit := default 0%Q (rate_limit a) in
    if Qgt_bool (now - default (-1000000)%Q (last_sent a !! service_name))
                limit
    then set_last_sent (<[service_name := now]> (last_sent a)) ;;; ret true
    else ret false.

(** ** Severity policy *)

Definition lift {A} (r : exn + A) : M A :=
  match r with inl e => raise e | inr x => ret x end.

(** [Alert._mapped_severity]: the default [severity_map[logging.INFO]] is
    evaluated before the lookup, so a map without an entry for INFO is a
    [KeyError] whatever the severity. *)
Definition _mapped_severity {V} (self : Alert) (severity_map : gmap Z V)
  : exn + V :=
  match severity_map !! logging.INFO with
  | None => inl KeyError
  | Some info => inr (default info (severity_map !! severity self))
  end.

Definition _LOG_PRIORITY_TO_COLOR : gmap Z ustring :=
  <[logging.DEBUG := u "gray"]>
  (<[logging.INFO := u "purple"]>
  (<[logging.WARNING := u "yellow"]>
  (<[logging.ERROR := u "red"]>
  (<[logging.CRITICAL := u "red"]> ∅)))).

(** The table local to [_get_summary]. *)
Definition log_priority_to_prefix : gmap Z ustring :=
  <[logging.DEBUG := u "(debug info) "]>
  (<[logging.INFO := u ""]>
  (<[logging.WARNING := u "WARNING: "]>
  (<[logging.ERROR := u "ERROR: "]>
  (<[logging.CRITICAL := u "**CRITICAL ERROR**: "]> ∅)))).

(** [_LOG_TO_SYSLOG]: empty when the [syslog] module could not be
    imported. *)
Definition _LOG_TO_SYSLOG (syslog_loaded : bool) : gmap Z Z :=
  if syslog_loaded then
    <[logging.DEBUG := syslog.LOG_DEBUG]>
    (<[logging.INFO := syslog.LOG_INFO]>
    (<[logging.WARNING := syslog.LOG_WARNING]>
    (<[logging.ERROR := syslog.LOG_ERR]>
    (<[logging.CRITICAL := syslog.LOG_CRIT]> ∅))))
  else ∅.

(** ** Summary *)

Definition dot : uchar := 46%N.
Definition at_sign : uchar := 64%N.

(** [log_priority_to_prefix.get(self.severity, "")] *)
Definition severity_prefix (self : Alert) : ustring :=
  default [] (log_priority_to_prefix !! severity self).

(** [Alert._get_summary].  The message is not empty where
    [splitlines()[0]] is taken, so the index is in range
    (see [splitlines_nonempty]). *)
Definition _get_summary (self : Alert) : ustring :=
  match summary self with
  | Some s => s
  | None =>
      if bool_decide (message self = []) then []
      else if html self then []
      else
        let summary := take 60 (hd [] (splitlines (message self))) in
        let summary :=
          if contains dot summary
          then slice_to (find dot summary) summary
          else summary in
        severity_prefix self ++ summary
  end.

(** ** Text of numbers *)

(** [str(z)] of an integer. *)
Definition int_str (z : Z) : ustring :=
  u (NilZero.string_of_int (Z.to_int z)).

(** The number of decimal digits of a positive integer. *)
Definition ndigits (z : Z) : Z := Z.of_nat (length (int_str z)).

(** [10^e <= n/d], for positive [n] and [d]. *)
Definition ge_pow10 (n d e : Z) : bool :=
  if 0 <=? e then d * 10 ^ e <=? n else d <=? n * 10 ^ (- e).

(** The decimal exponent [e] of [n/d]: [10^e <= n/d < 10^(e+1)]. *)
Definition decimal_exponent (n d : Z) : Z :=
  let e0 := ndigits n - ndigits d in
  if ge_pow10 n d e0 then e0 else e0 - 1.

Definition round_half_even (n d : Z) : Z :=
  let q := n / d in
  let r := n mod d in
  if 2 * r <? d then q
  else if d <? 2 * r then q + 1
  else if Z.even q then q else q + 1.

(** [n/d] rounded to twelve significant digits: the digits, as an integer
    of twelve digits, and the decimal exponent. *)
Definition digits12 (n d : Z) : Z * Z :=
  let e := decimal_exponent n d in
  let m := round_half_even (n * 10 ^ Z.max 0 (11 - e))
                           (d * 10 ^ Z.max 0 (e - 11)) in
  if m =? 10 ^ 12 then (10 ^ 11, e + 1) else (m, e).

Fixpoint lstrip_zeros (s : ustring) : ustring :=
  match s with
  | c :: s' => if N.eqb c 48 then lstrip_zeros s' else s
  | [] => []
  end.

Definition rstrip_zeros (s : ustring) : ustring := rev (lstrip_zeros (rev s)).

Definition zeros (n : Z) : ustring := repeat 48%N (Z.to_nat n).

(** The exponent of the scientific notation: a sign and at least two
    digits. *)
Definition exp_str (e : Z) : ustring :=
  (if e <? 0 then u "-" else u "+")
  ++ (if Z.abs e <? 10 then u "0" else []) ++ int_str (Z.abs e).

(** [str(x)] of a positive float [x = n/d] in Python 2.7: the format
    [%.12g], with [.0] added to a result that would read as an integer. *)
Definition float_str_pos (n d : Z) : ustring :=
  let '(m, e) := digits12 n d in
  let ds := rstrip_zeros (int_str m) in
  let decpt := e + 1 in
  if (decpt <=? -4) || (11 <? decpt) then
    take 1 ds
    ++ match drop 1 ds with [] => [] | frac => u "." ++ frac end
    ++ u "e" ++ exp_str e
  else if decpt <=? 0 then u "0." ++ zeros (- decpt) ++ ds
  else if Z.of_nat (length ds) <=? decpt
  then ds ++ zeros (decpt - Z.of_nat (length ds)) ++ u ".0"
  else take (Z.to_nat decpt) ds ++ u "." ++ drop (Z.to_nat decpt) ds.

Definition float_str (q : Q) : ustring :=
  match Qnum q with
  | 0 => u "0.0"
  | Zpos n => float_str_pos (Zpos n) (Zpos (Qden q))
  | Zneg n => u "-" ++ float_str_pos (Zpos n) (Zpos (Qden q))
  end.

(** [int(v)]: a float is truncated towards zero. *)
Definition py_int (v : pynum) : Z :=
  match v with
  | PyInt z => z
  | PyFloat q => Z.quot (Qnum q) (Zpos (Qden q))
  end.

(** [z == v] for an integer [z]. *)
Definition int_eq_num (z : Z) (v : pynum) : bool :=
  match v with
  | PyInt z' => z =? z'
  | PyFloat q => Qeq_bool (inject_Z z) q
  end.

(** ['%s' % v] *)
Definition num_str (v : pynum) : ustring :=
  match v with
  | PyInt z => int_str z
  | PyFloat q => float_str q
  end.

(** ** The outside world *)

(** The credentials read at import time and the answers of the external
    services: [None] is a call that went through, [Some e] one that
    raised [e]. *)
Record env := mkEnv {
  hipchat_token : option ustring;
  hostedgraphite_api_key : option ustring;
  hipchat_api : ustring -> post_dict -> option exn;
  google_mail_send_mail : gae_mail_args -> option exn;
  smtp_sendmail : sendmail_args -> option exn;
  syslog_loaded : bool;
  graphite_socket_send : ustring -> ustring -> option exn
}.

(** Truth value of a text or [None]. *)
Definition truthy_text (o : option ustring) : bool :=
  match o with
  | None | Some [] => false
  | Some _ => true
  end.

(** Truth value of a list or [None]. *)
Definition truthy_list (o : option (list ustring)) : bool :=
  match o with
  | None | Some [] => false
  | Some _ => true
  end.

(** A string argument or a reference to the caller's list object. *)
Inductive names :=
| NStr (s : ustring)
| NList (l : nat).

Definition is_word_char (c : uchar) : bool :=
  ((48 <=? c) && (c <=? 57) || (65 <=? c) && (c <=? 90)
   || (97 <=? c) && (c <=? 122) || (c =? 95))%N.

(** The characters kept by [_PAGERDUTY_ILLEGAL_CHARS], that is
    [A-Za-z0-9._-]. *)
Definition pagerduty_legal (c : uchar) : bool :=
  ((48 <=? c) && (c <=? 57) || (65 <=? c) && (c <=? 90)
   || (97 <=? c) && (c <=? 122) || (c =? 46) || (c =? 95) || (c =? 45))%N.

(** [_PAGERDUTY_ILLEGAL_CHARS.sub('', s)] *)
Definition _PAGERDUTY_ILLEGAL_CHARS_sub (s : ustring) : ustring :=
  List.filter pagerduty_legal s.

(** [s.lower()], on the characters that survive the substitution. *)
Definition lower_char (c : uchar) : uchar :=
  if ((65 <=? c) && (c <=? 90))%N then (c + 32)%N else c.

Definition lower (s : ustring) : ustring := List.map lower_char s.

(** [text.replace(u'8)', u'8\u200b)')]: a zero-width space is put
    between the two characters. *)
Fixpoint _nix_bad_emoticons (text : ustring) : ustring :=
  match text with
  | [] => []
  | c :: rest =>
      match rest with
      | c' :: rest' =>
          if ((c =? 56) && (c' =? 41))%N
          then 56%N :: 8203%N :: 41%N :: _nix_bad_emoticons rest'
          else c :: _nix_bad_emoticons rest
      | [] => [c]
      end
  end.

Definition khanacademy_org : ustring := u "@khanacademy.org".
Definition pagerduty_com : ustring := u "@khan-academy.pagerduty.com".

Section Dispatch.

Variable E : env.

Definition return_self : M Alert := get_self.

(** *** HipChat *)

Definition _make_hipchat_api_call (token : ustring) (d : post_dict)
  : M unit :=
  call (HipchatCall token d) (hipchat_api E token d).

Definition _post_to_hipchat (d : post_dict) : M unit :=
  if negb (truthy_text (hipchat_token E)) then
    logging_log logging.WARNING
      (VFmt "Not sending this to hipchat (no token found): %s" [VPost d])
  else
    try_except
      (_make_hipchat_api_call (default [] (hipchat_token E)) d)
      (fun why => Some
         (logging_log logging.ERROR
            (VFmt "Failed sending %s to hipchat: %s" [VPost d; VExn why]))).

Definition send_to_hipchat (now : Q) (room_name : ustring)
    (color : option ustring) (notify : option bool) (sender : ustring)
  : M Alert :=
  passed <- _passed_rate_limit now "hipchat" ;;
  if negb passed then return_self
  else
    self <- get_self ;;
    color <- match color with
             | None => lift (_mapped_severity self _LOG_PRIORITY_TO_COLOR)
             | Some c => ret c
             end ;;
    let notify := match notify with
                  | None => severity self =? logging.CRITICAL
                  | Some b => b
                  end in
    test_mode <- get_test_mode ;;
    (if truthy_text (summary self) then
       let summary := default [] (summary self) in
       if test_mode then
         logging_log logging.INFO
           (VFmt "alertlib: would send to hipchat room %s: %s"
                 [VText room_name; VText summary])
       else
         (_post_to_hipchat
            (mkPost room_name sender (_nix_bad_emoticons summary)
                    (u "text") 0 color) ;;;
          call (Sleep 1) None)
     else ret tt) ;;;
    let message := take (Z.to_nat 9000) (message self) in
    (if test_mode then
       logging_log logging.INFO
         (VFmt "alertlib: would send to hipchat room %s: %s"
               [VText room_name; VText message])
     else
       _post_to_hipchat
         (mkPost room_name sender
                 (if html self then message else _nix_bad_emoticons message)
                 (if html self then u "html" else u "text")
                 (if notify then 1 else 0) color)) ;;;
    return_self.

(** *** Email *)

Definition _get_sender (sender : option ustring) : ustring :=
  let sender_addr :=
    u "no-reply" ++
    (if truthy_text sender
     then u "+" ++ List.map (fun c => if is_word_char c then c else 45%N)
                            (default [] sender)
     else []) in
  u "alertlib <" ++ sender_addr ++ u "@khanacademy.org>".

(** The list an argument refers to, read when it is used. *)
Definition read_opt (o : option nat) : M (option (list ustring)) :=
  match o with
  | None => ret None
  | Some l => xs <- list_read l ;; ret (Some xs)
  end.

Definition _send_to_gae_email (message : ustring)
    (email_addresses cc bcc : option nat) (sender : option ustring)
  : M unit :=
  self <- get_self ;;
  to <- read_opt email_addresses ;;
  cc <- read_opt cc ;;
  bcc <- read_opt bcc ;;
  let gae_mail_args :=
    mkGae (_get_summary self) (_get_sender sender) to
          (if truthy_list cc then cc else None)
          (if truthy_list bcc then bcc else None)
          message
          (if html self then Some message else None) in
  call (GaeSendMail gae_mail_args) (google_mail_send_mail E gae_mail_args).

Definition _send_to_sendmail (message : ustring)
    (email_addresses cc bcc : option nat) (sender : option ustring)
  : M unit :=
  self <- get_self ;;
  to <- read_opt email_addresses ;;
  cc <- read_opt cc ;;
  bcc <- read_opt bcc ;;
  let args :=
    mkSendmail (if html self then u "html" else u "plain")
               (_get_summary self) (_get_sender sender) to
               (if truthy_list cc
                then Some (join (u ", ") (default [] cc)) else None)
               (if truthy_list bcc
                then Some (join (u ", ") (default [] bcc)) else None)
               message in
  call (Sendmail args) (smtp_sendmail E args).

(** [Alert._send_to_email]: the result of each [try] is the exception
    its [except] clause bound to [why], if any. *)
Definition _send_to_email (email_addresses cc bcc : option nat)
    (sender : option ustring) : M unit :=
  self <- get_self ;;
  let message := rstrip_nl (message self) ++ [10%N] in
  why <- try_except
           (_send_to_gae_email message email_addresses cc bcc sender ;;;
            ret None)
           (fun why => match why with
                       | NameError | AssertionError => Some (ret (Some why))
                       | _ => None
                       end) ;;
  match why with
  | None => ret tt
  | Some _ =>
      why <- try_except
               (_send_to_sendmail message email_addresses cc bcc sender ;;;
                ret None)
               (fun why => match why with
                           | NameError | SMTPException =>
                               Some (ret (Some why))
                           | _ => None
                           end) ;;
      match why with
      | None => ret tt
      | Some why =>
          logging_log logging.ERROR
            (VFmt "Failed sending email: %s" [VExn why])
      end
  end.

(** The loop of [_normalize] over the indices [idx] of the list [l]. *)
Fixpoint _normalize_loop (l : nat) (idx : list nat) : M unit :=
  match idx with
  | [] => ret tt
  | i :: idx' =>
      x <- list_get l i ;;
      (if negb (endswith x khanacademy_org) then
         if contains at_sign x then
           raise (ValueError
                    "Specify email usernames, not addresses (%s)" x)
         else list_set l i (x ++ khanacademy_org)
       else ret tt) ;;;
      _normalize_loop l idx'
  end.

Definition _normalize (lst : option names) : M (option nat) :=
  match lst with
  | None => ret None
  | Some lst =>
      l <- match lst with
           | NStr s => list_new [s]
           | NList l => ret l
           end ;;
      n <- list_len l ;;
      _normalize_loop l (seq 0 n) ;;;
      ret (Some l)
  end.

Definition send_to_email (now : Q) (email_usernames cc bcc : option names)
    (sender : option ustring) : M Alert :=
  passed <- _passed_rate_limit now "email" ;;
  if negb passed then return_self
  else
    email_addresses <- _normalize email_usernames ;;
    cc <- _normalize cc ;;
    bcc <- _normalize bcc ;;
    self <- get_self ;;
    to_now <- read_opt email_addresses ;;
    cc_now <- read_opt cc ;;
    bcc_now <- read_opt bcc ;;
    let email_contents :=
      VFmt "email to %s (from %s CC %s BCC %s): (subject %s) %s"
           [VOptList to_now; VText (_get_sender sender); VOptList cc_now;
            VOptList bcc_now; VText (_get_summary self);
            VText (message self)] in
    test_mode <- get_test_mode ;;
    (if test_mode then
       logging_log logging.INFO
         (VFmt "alertlib: would send %s" [email_contents])
     else
       try_except
         (_send_to_email email_addresses cc bcc sender)
         (fun why => Some
            (logging_log logging.ERROR
               (VFmt "Failed sending %s: %s" [email_contents; VExn why])))) ;;;
    return_self.

(** *** PagerDuty *)

Fixpoint _service_name_to_email_loop (l : nat) (idx : list nat) : M unit :=
  match idx with
  | [] => ret tt
  | i :: idx' =>
      x <- list_get l i ;;
      (if contains at_sign x then
         raise (ValueError
                  "Specify PagerDuty service names, not addresses (%s)" x)
       else ret tt) ;;;
      list_set l i (lower (_PAGERDUTY_ILLEGAL_CHARS_sub x)) ;;;
      x <- list_get l i ;;
      list_set l i (x ++ pagerduty_com) ;;;
      _service_name_to_email_loop l idx'
  end.

Definition _service_name_to_email (lst : names) : M nat :=
  l <- match lst with
       | NStr s => list_new [s]
       | NList l => ret l
       end ;;
  n <- list_len l ;;
  _service_name_to_email_loop l (seq 0 n) ;;;
  ret l.

Definition send_to_pagerduty (now : Q) (pagerduty_servicenames : names)
  : M Alert :=
  passed <- _passed_rate_limit now "pagerduty" ;;
  if negb passed then return_self
  else
    email_addresses <- _service_name_to_email pagerduty_servicenames ;;
    self <- get_self ;;
    to_now <- list_read email_addresses ;;
    let email_contents :=
      VFmt "pagerduty email to %s (subject %s) %s"
           [VList to_now; VText (_get_summary self);
            VText (message self)] in
    test_mode <- get_test_mode ;;
    (if test_mode then
       logging_log logging.INFO
         (VFmt "alertlib: would send %s" [email_contents])
     else
       try_except
         (_send_to_email (Some email_addresses) None None None)
         (fun why => Some
            (logging_log logging.ERROR
               (VFmt "Failed sending %s: %s" [email_contents; VExn why])))) ;;;
    return_self.

(** *** Logs *)

Definition send_to_logs (now : Q) : M Alert :=
  passed <- _passed_rate_limit now "logs" ;;
  if negb passed then return_self
  else
    self <- get_self ;;
    logging_log (severity self) (VText (message self)) ;;;
    test_mode <- get_test_mode ;;
    (if negb test_mode then
       try_except
         (syslog_priority <-
            lift (_mapped_severity self (_LOG_TO_SYSLOG (syslog_loaded E))) ;;
          (if syslog_loaded E then ret tt else raise NameError) ;;;
          call (Syslog syslog_priority (message self)) None)
         (fun why => match why with
                     | NameError | KeyError => Some (ret tt)
                     | _ => None
                     end)
     else ret tt) ;;;
    return_self.

(** *** Graphite *)

Definition DEFAULT_GRAPHITE_HOST : ustring :=
  u "carbon.hostedgraphite.com:2003".

(** The value as sent: [12.0] becomes [12]. *)
Definition graphite_value (value : pynum) : pynum :=
  if int_eq_num (py_int value) value then PyInt (py_int value) else value.

(** ['%s.%s %s\n' % (hostedgraphite_api_key, statistic, value)] *)
Definition graphite_payload (key statistic : ustring) (value : pynum)
  : ustring :=
  key ++ u "." ++ statistic ++ u " " ++ num_str value ++ [10%N].

(** [_graphite_socket(graphite_host).send(payload)] is one call to the
    outside: the cached socket lives behind it. *)
Definition send_to_graphite (now : Q) (statistic : ustring)
    (value : pynum) (graphite_host : ustring) : M Alert :=
  passed <- _passed_rate_limit now "graphite" ;;
  if negb passed then return_self
  else
    let value := graphite_value value in
    test_mode <- get_test_mode ;;
    (if test_mode then
       logging_log logging.INFO
         (VFmt "alertlib: would send to graphite: %s %s"
               [VText statistic; VNum value])
     else if negb (truthy_text (hostedgraphite_api_key E)) then
       logging_log logging.WARNING
         (VFmt "Not sending to graphite; no API key found: %s %s"
               [VText statistic; VNum value])
     else
       let payload :=
         graphite_payload (default [] (hostedgraphite_api_key E))
                          statistic value in
       try_except
         (call (GraphiteSend graphite_host payload)
               (graphite_socket_send E graphite_host payload))
         (fun why => Some
            (logging_log logging.ERROR
               (VFmt "Failed sending to graphite: %s" [VExn why])))) ;;;
    return_self.

End Dispatch.

(** ** The cached socket to graphite *)

Definition colon : uchar := 58%N.

(** [s.split(c)] *)
Fixpoint split_char (c : uchar) (s : ustring) : list ustring :=
  match s with
  | [] => [[]]
  | x :: s' =>
      if N.eqb x c then [] :: split_char c s'
      else match split_char c s' with
           | part :: parts => (x :: part) :: parts
           | [] => [[x]]
           end
  end.

(** What is done to sockets and to the resolver; a socket is named by its
    rank among the sockets made, and the attempt to connect one is
    recorded with the exception it raised, if any. *)
Inductive socket_event :=
| SockClose (s : nat)
| GetHostByName (hostname : ustring)
| SockNew (s : nat)
| SockConnect (s : nat) (host_ip : ustring) (port : Z)
              (failure : option exn).

(** The globals [_GRAPHITE_SOCKET] and [_LAST_GRAPHITE_TIME], the number
    of sockets made so far and what was done to them, in order. *)
Record graphite_state := mkGraphite {
  _GRAPHITE_SOCKET : option nat;
  _LAST_GRAPHITE_TIME : option Q;
  sockets_made : nat;
  socket_trace : list socket_event
}.

(** The module as it is imported. *)
Definition graphite_initial : graphite_state := mkGraphite None None 0 [].

(** The answers given during one call of [_graphite_socket]: the
    resolver, the builtin [int] on a text, the making of a socket and its
    connection. *)
Record net := mkNet {
  gethostbyname : ustring -> exn + ustring;
  int_of_text : ustring -> exn + Z;
  socket_socket : option exn;
  socket_connect : ustring -> Z -> option exn
}.

Definition socket_did (g : graphite_state) (evs : list socket_event)
  : graphite_state :=
  mkGraphite (_GRAPHITE_SOCKET g) (_LAST_GRAPHITE_TIME g) (sockets_made g)
             (socket_trace g ++ evs).

(** The body of the [if] of [_graphite_socket], after the old socket is
    closed; [later] is the reading of [time.time()] once connected. *)
Definition graphite_connect (W : net) (later : Q)
    (graphite_hostport : ustring) (g : graphite_state)
  : (exn + nat) * graphite_state :=
  match split_char colon graphite_hostport with
  | [hostname; port_string] =>
      let g := socket_did g [GetHostByName hostname] in
      match gethostbyname W hostname with
      | inl e => (inl e, g)
      | inr host_ip =>
          match int_of_text W port_string with
          | inl e => (inl e, g)
          | inr port =>
              match socket_socket W with
              | Some e => (inl e, g)
              | None =>
                  let s := sockets_made g in
                  let g :=
                    mkGraphite (Some s) (_LAST_GRAPHITE_TIME g) (S s)
                               (socket_trace g
                                ++ [SockNew s;
                                    SockConnect s host_ip port
                                      (socket_connect W host_ip port)]) in
                  match socket_connect W host_ip port with
                  | Some e => (inl e, g)
                  | None =>
                      (inr s,
                       mkGraphite (_GRAPHITE_SOCKET g) (Some later)
                                  (sockets_made g) (socket_trace g))
                  end
              end
          end
      end
  | [_] => (inl (ValueError "need more than 1 value to unpack" []), g)
  | _ => (inl (ValueError "too many values to unpack" []), g)
  end.

(** [_graphite_socket]; [now] is the reading of [time.time()] in the
    test, which is taken only when there is a socket, and subtracting
    [None] from it is a [TypeError]. *)
Definition _graphite_socket (W : net) (now later : Q)
    (graphite_hostport : ustring) (g : graphite_state)
  : (exn + nat) * graphite_state :=
  match _GRAPHITE_SOCKET g with
  | None => graphite_connect W later graphite_hostport g
  | Some s =>
      match _LAST_GRAPHITE_TIME g with
      | None => (inl TypeError, g)
      | Some last =>
          if Qgt_bool (now - last) 600
          then graphite_connect W later graphite_hostport
                                (socket_did g [SockClose s])
          else (inr s, g)
      end
  end.

(** * Specification

    The notions the properties are stated with: the closed forms of the
    dispatchers, the conversions of the arguments, and the predicates on
    traces. *)

(** ** Rate limiting *)

(** The time since the last send to [name]; a backend never sent to counts
    as last sent at [-1000000]. *)
Definition elapsed (now : Q) (a : Alert) (name : string) : Q :=
  (now - default (-1000000) (last_sent a !! name))%Q.

(** The state once [last_sent[name] = now] is recorded. *)
Definition record_sent (now : Q) (name : string) (st : state) : state :=
  mkState (with_last_sent (st_self st)
             (<[name := now]> (last_sent (st_self st))))
          (st_heap st) (st_test_mode st) (st_trace st).

(** ** Summary *)

(** The text before the first character that satisfies [stop]. *)
Fixpoint take_until (stop : uchar -> bool) (s : ustring) : ustring :=
  match s with
  | [] => []
  | c :: s' => if stop c then [] else c :: take_until stop s'
  end.

(** The first line of a text: what precedes its first line boundary. *)
Definition first_line (s : ustring) : ustring := take_until is_linebreak s.

(** The cap on the length: at most sixty characters. *)
Definition length_cap (s : ustring) : ustring := take 60 s.

(** The cap on the sentence: what precedes the first ['.'], if any. *)
Definition sentence_cap (s : ustring) : ustring :=
  take_until (fun c => N.eqb c dot) s.

(** ** Metrics: the value on the wire *)


(** The text of the value in the payload of [send_to_graphite]. *)
Definition payload_value (value : pynum) : ustring :=
  num_str (graphite_value value).

(** ** Running the dispatchers *)

(** The state after the events [evs]. *)
Definition add_trace (st : state) (evs : list event) : state :=
  mkState (st_self st) (st_heap st) (st_test_mode st) (st_trace st ++ evs).

(** The state with the heap [h]. *)
Definition set_heap (st : state) (h : list (list ustring)) : state :=
  mkState (st_self st) h (st_test_mode st) (st_trace st).

(** ** Closed forms of the dispatchers *)

(** What [_post_to_hipchat] does with the dictionary [d]. *)
Definition post_events (E : env) (d : post_dict) : list event :=
  if truthy_text (hipchat_token E) then
    HipchatCall (default [] (hipchat_token E)) d ::
    match hipchat_api E (default [] (hipchat_token E)) d with
    | Some why =>
        [Log logging.ERROR
             (VFmt "Failed sending %s to hipchat: %s" [VPost d; VExn why])]
    | None => []
    end
  else
    [Log logging.WARNING
         (VFmt "Not sending this to hipchat (no token found): %s" [VPost d])].

(** The color of a HipChat message: the one asked for, or the one of the
    severity. *)
Definition chat_color (self : Alert) (color : option ustring) : ustring :=
  match color with
  | Some c => c
  | None => default (u "purple") (_LOG_PRIORITY_TO_COLOR !! severity self)
  end.

Definition chat_notify (self : Alert) (notify : option bool) : Z :=
  if match notify with
     | Some b => b
     | None => severity self =? logging.CRITICAL
     end
  then 1 else 0.

(** The dictionary of the preliminary message that carries [summary]. *)
Definition summary_post (self : Alert) (room_name : ustring)
    (color : option ustring) (sender summary : ustring) : post_dict :=
  mkPost room_name sender (_nix_bad_emoticons summary) (u "text") 0
         (chat_color self color).

(** The dictionary of the message body. *)
Definition body_post (self : Alert) (room_name : ustring)
    (color : option ustring) (notify : option bool) (sender : ustring)
  : post_dict :=
  mkPost room_name sender
         (if html self then take (Z.to_nat 9000) (message self)
          else _nix_bad_emoticons (take (Z.to_nat 9000) (message self)))
         (if html self then u "html" else u "text")
         (chat_notify self notify) (chat_color self color).

Definition would_send_to_hipchat (room_name text : ustring) : event :=
  Log logging.INFO
      (VFmt "alertlib: would send to hipchat room %s: %s"
            [VText room_name; VText text]).

(** The events of a [send_to_hipchat] that the rate limiter lets through. *)
Definition hipchat_events (E : env) (self : Alert) (test_mode : bool)
    (room_name : ustring) (color : option ustring) (notify : option bool)
    (sender : ustring) : list event :=
  (if truthy_text (summary self) then
     if test_mode
     then [would_send_to_hipchat room_name (default [] (summary self))]
     else post_events E (summary_post self room_name color sender
                                      (default [] (summary self)))
          ++ [Sleep 1]
   else [])
  ++ (if test_mode
      then [would_send_to_hipchat room_name
              (take (Z.to_nat 9000) (message self))]
      else post_events E (body_post self room_name color notify sender)).

(** The events of a [send_to_logs] that the rate limiter lets through. *)
Definition logs_events (E : env) (self : Alert) (test_mode : bool)
  : list event :=
  Log (severity self) (VText (message self)) ::
  (if test_mode then []
   else if syslog_loaded E then
     [Syslog (default syslog.LOG_INFO
                (_LOG_TO_SYSLOG true !! severity self)) (message self)]
   else []).

(** The events of a [send_to_graphite] that the rate limiter lets
    through. *)
Definition graphite_events (E : env) (test_mode : bool)
    (statistic : ustring) (value : pynum) (host : ustring) : list event :=
  if test_mode then
    [Log logging.INFO
         (VFmt "alertlib: would send to graphite: %s %s"
               [VText statistic; VNum (graphite_value value)])]
  else if truthy_text (hostedgraphite_api_key E) then
    let payload :=
      graphite_payload (default [] (hostedgraphite_api_key E)) statistic
                       (graphite_value value) in
    GraphiteSend host payload ::
    match graphite_socket_send E host payload with
    | Some why =>
        [Log logging.ERROR (VFmt "Failed sending to graphite: %s" [VExn why])]
    | None => []
    end
  else
    [Log logging.WARNING
         (VFmt "Not sending to graphite; no API key found: %s %s"
               [VText statistic; VNum (graphite_value value)])].

(** ** Lists converted in place *)

(** What a loop that converts a list in place leaves in the list, and the
    exception that stopped it, if any: the elements before the one that
    [step] refuses are converted, the others are untouched. *)
Fixpoint convert_list (step : ustring -> exn + ustring) (xs : list ustring)
  : list ustring * option exn :=
  match xs with
  | [] => ([], None)
  | x :: xs' =>
      match step x with
      | inl e => (x :: xs', Some e)
      | inr y => (y :: fst (convert_list step xs'),
                  snd (convert_list step xs'))
      end
  end.

(** The loop [for i in xrange(len(lst)): lst[i] = step(lst[i])]. *)
Fixpoint convert_loop (step : ustring -> exn + ustring) (l : nat)
    (idx : list nat) : M unit :=
  match idx with
  | [] => ret tt
  | i :: idx' =>
      x <- list_get l i ;;
      match step x with
      | inl e => raise e
      | inr y => list_set l i y ;;; convert_loop step l idx'
      end
  end.

(** The conversion of one recipient by [_normalize]. *)
Definition email_step (x : ustring) : exn + ustring :=
  if endswith x khanacademy_org then inr x
  else if contains at_sign x
  then inl (ValueError "Specify email usernames, not addresses (%s)" x)
  else inr (x ++ khanacademy_org).

(** The conversion of one service name by [_service_name_to_email]. *)
Definition pagerduty_step (x : ustring) : exn + ustring :=
  if contains at_sign x
  then inl (ValueError
              "Specify PagerDuty service names, not addresses (%s)" x)
  else inr (lower (_PAGERDUTY_ILLEGAL_CHARS_sub x) ++ pagerduty_com).

(** What converting the argument [arg] does to the heap [h], and the list
    it answers or the exception it raises. *)
Definition convert_arg (step : ustring -> exn + ustring) (arg : names)
    (h : list (list ustring)) : list (list ustring) * (exn + nat) :=
  match arg with
  | NStr s =>
      (h ++ [fst (convert_list step [s])],
       match snd (convert_list step [s]) with
       | Some e => inl e
       | None => inr (length h)
       end)
  | NList l =>
      match h !! l with
      | None => (h, inl TypeError)
      | Some xs =>
          (<[l := fst (convert_list step xs)]> h,
           match snd (convert_list step xs) with
           | Some e => inl e
           | None => inr l
           end)
      end
  end.

Definition convert_opt (step : ustring -> exn + ustring)
    (arg : option names) (h : list (list ustring))
  : list (list ustring) * (exn + option nat) :=
  match arg with
  | None => (h, inr None)
  | Some a =>
      (fst (convert_arg step a h),
       match snd (convert_arg step a h) with
       | inl e => inl e
       | inr l => inr (Some l)
       end)
  end.

(** Reading the list behind an optional reference. *)
Definition heap_read (h : list (list ustring)) (o : option nat)
  : exn + option (list ustring) :=
  match o with
  | None => inr None
  | Some l =>
      match h !! l with
      | Some xs => inr (Some xs)
      | None => inl TypeError
      end
  end.

Definition gae_args_of (self : Alert) (sender : option ustring)
    (message : ustring) (to cc bcc : option (list ustring)) : gae_mail_args :=
  mkGae (_get_summary self) (_get_sender sender) to
        (if truthy_list cc then cc else None)
        (if truthy_list bcc then bcc else None)
        message
        (if html self then Some message else None).

Definition sendmail_args_of (self : Alert) (sender : option ustring)
    (message : ustring) (to cc bcc : option (list ustring)) : sendmail_args :=
  mkSendmail (if html self then u "html" else u "plain")
             (_get_summary self) (_get_sender sender) to
             (if truthy_list cc
              then Some (join (u ", ") (default [] cc)) else None)
             (if truthy_list bcc
              then Some (join (u ", ") (default [] bcc)) else None)
             message.

(** The managed mail API is not there: the exceptions after which
    [_send_to_email] falls back to the local relay. *)
Definition gae_unavailable (why : exn) : bool :=
  match why with
  | NameError | AssertionError => true
  | _ => false
  end.

(** The failures of the local relay that [_send_to_email] logs itself. *)
Definition smtp_failure (why : exn) : bool :=
  match why with
  | NameError | SMTPException => true
  | _ => false
  end.

(** The events of a delivery by email, [contents] being the description
    of the email used in the log of a failure. *)
Definition delivery_events (E : env) (self : Alert) (sender : option ustring)
    (to cc bcc : option (list ustring)) (contents : pyval) : list event :=
  let message := rstrip_nl (message self) ++ [10%N] in
  let gae := gae_args_of self sender message to cc bcc in
  let smtp := sendmail_args_of self sender message to cc bcc in
  let failed why :=
    Log logging.ERROR (VFmt "Failed sending %s: %s" [contents; VExn why]) in
  GaeSendMail gae ::
  match google_mail_send_mail E gae with
  | None => []
  | Some why =>
      if gae_unavailable why then
        Sendmail smtp ::
        match smtp_sendmail E smtp with
        | None => []
        | Some why' =>
            if smtp_failure why'
            then [Log logging.ERROR
                      (VFmt "Failed sending email: %s" [VExn why'])]
            else [failed why']
        end
      else [failed why]
  end.

Definition email_contents (self : Alert) (sender : option ustring)
    (to cc bcc : option (list ustring)) : pyval :=
  VFmt "email to %s (from %s CC %s BCC %s): (subject %s) %s"
       [VOptList to; VText (_get_sender sender); VOptList cc; VOptList bcc;
        VText (_get_summary self); VText (message self)].

Definition pagerduty_contents (self : Alert) (to : list ustring) : pyval :=
  VFmt "pagerduty email to %s (subject %s) %s"
       [VList to; VText (_get_summary self); VText (message self)].

Definition would_send (contents : pyval) : event :=
  Log logging.INFO (VFmt "alertlib: would send %s" [contents]).

(** The events of a [send_to_email] once its arguments are normalized. *)
Definition email_events (E : env) (self : Alert) (test_mode : bool)
    (sender : option ustring) (to cc bcc : option (list ustring))
  : list event :=
  if test_mode then [would_send (email_contents self sender to cc bcc)]
  else delivery_events E self sender to cc bcc
                       (email_contents self sender to cc bcc).

(** The events of a [send_to_pagerduty] once the names are converted. *)
Definition pagerduty_events (E : env) (self : Alert) (test_mode : bool)
    (to : list ustring) : list event :=
  if test_mode then [would_send (pagerduty_contents self to)]
  else delivery_events E self None (Some to) None None
                       (pagerduty_contents self to).

(** A [send_to_email] that the rate limiter lets through, as a function
    of the heap: the heap it leaves, and the exception it raises or the
    events it produces. *)
Definition email_plan (E : env) (self : Alert) (test_mode : bool)
    (email_usernames cc bcc : option names) (sender : option ustring)
    (h : list (list ustring)) : list (list ustring) * (exn + list event) :=
  let (h1, r1) := convert_opt email_step email_usernames h in
  match r1 with
  | inl e => (h1, inl e)
  | inr email_addresses =>
      let (h2, r2) := convert_opt email_step cc h1 in
      match r2 with
      | inl e => (h2, inl e)
      | inr cc =>
          let (h3, r3) := convert_opt email_step bcc h2 in
          match r3 with
          | inl e => (h3, inl e)
          | inr bcc =>
              match heap_read h3 email_addresses, heap_read h3 cc,
                    heap_read h3 bcc with
              | inr to, inr ccs, inr bccs =>
                  (h3, inr (email_events E self test_mode sender to ccs bccs))
              | inl e, _, _ => (h3, inl e)
              | _, inl e, _ => (h3, inl e)
              | _, _, inl e => (h3, inl e)
              end
          end
      end
  end.

Definition pagerduty_plan (E : env) (self : Alert) (test_mode : bool)
    (pagerduty_servicenames : names) (h : list (list ustring))
  : list (list ustring) * (exn + list event) :=
  let (h1, r1) := convert_arg pagerduty_step pagerduty_servicenames h in
  match r1 with
  | inl e => (h1, inl e)
  | inr l =>
      match h1 !! l with
      | Some to => (h1, inr (pagerduty_events E self test_mode to))
      | None => (h1, inl TypeError)
      end
  end.

(** The result of a dispatch from the plan that describes it. *)
Definition plan_result (st1 : state)
    (plan : list (list ustring) * (exn + list event))
  : (exn + Alert) * state :=
  match snd plan with
  | inl e => (inl e, set_heap st1 (fst plan))
  | inr evs => (inr (st_self st1), add_trace (set_heap st1 (fst plan)) evs)
  end.

(** ** Failures stay inside the dispatchers *)

#[global] Instance exn_eq_dec : EqDecision exn.
Proof. solve_decision. Defined.

(** The answer of the outside world to the call [e]. *)
Definition failed (E : env) (e : event) : option exn :=
  match e with
  | HipchatCall token d => hipchat_api E token d
  | GaeSendMail args => google_mail_send_mail E args
  | Sendmail args => smtp_sendmail E args
  | GraphiteSend hostport payload => graphite_socket_send E hostport payload
  | Log _ _ | Sleep _ | Syslog _ _ => None
  end.

(** [e] is a record at level ERROR whose last argument is [why]. *)
Definition logs_failure (why : exn) (e : event) : bool :=
  match e with
  | Log level (VFmt _ args) =>
      (level =? logging.ERROR)
      && match last args with
         | Some (VExn why') => bool_decide (why' = why)
         | _ => false
         end
  | _ => false
  end.

Definition is_gae (e : event) : bool :=
  match e with GaeSendMail _ => true | _ => false end.

Definition is_sendmail (e : event) : bool :=
  match e with Sendmail _ => true | _ => false end.


(** The state in which a dispatch goes on after the rate limiter. *)
Definition after_check (now : Q) (name : string) (st : state) : state :=
  snd (_passed_rate_limit now name st).

(** The references to lists among the arguments refer to lists. *)
Definition valid_names (h : list (list ustring)) (arg : names) : Prop :=
  match arg with
  | NStr _ => True
  | NList l => is_Some (h !! l)
  end.

Definition valid_arg (h : list (list ustring)) (arg : option names) : Prop :=
  match arg with
  | None => True
  | Some a => valid_names h a
  end.

(** *** What the conversions can raise *)

(** The strings an argument carries. *)
Definition arg_strings (h : list (list ustring)) (arg : names)
  : list ustring :=
  match arg with
  | NStr s => [s]
  | NList l => default [] (h !! l)
  end.

(** The optional reference [o] can be read in the heap [h]. *)
Definition readable (h : list (list ustring)) (o : option nat) : Prop :=
  exists v, heap_read h o = inr v.


(** The dispatch raised the refusal of a recipient or of a service name
    that contains ['@'], before any call or log. *)
Definition raised_validation (st1 : state) (r : (exn + Alert) * state)
  : Prop :=
  exists fmt x h,
    r = (inl (ValueError fmt x), set_heap st1 h)
    /\ contains at_sign x = true.

(** An outside world where every service is down: HipChat answers with
    an error, the managed mail API is absent, the local relay refuses the
    mail and the graphite socket cannot be opened. *)
Definition E_down : env :=
  mkEnv (Some (u "token")) (Some (u "key"))
        (fun _ _ => Some (ValueError "%s" (u "503")))
        (fun _ => Some NameError)
        (fun _ => Some SMTPException)
        true
        (fun _ _ => Some (OtherError "socket.error")).

(** An outside world where every call goes through. *)
Definition E_up : env :=
  mkEnv (Some (u "token")) (Some (u "key"))
        (fun _ _ => None) (fun _ => None) (fun _ => None) true
        (fun _ _ => None).

(** ** Test mode *)




(** ** Recipients and service names *)

(** A recipient that [_normalize] refuses: it holds an ['@'] and does not
    end in [@khanacademy.org]. *)
Definition bad_recipient (x : ustring) : bool :=
  negb (endswith x khanacademy_org) && contains at_sign x.

(** The address of an accepted recipient. *)
Definition normalize_one (x : ustring) : ustring :=
  if endswith x khanacademy_org then x else x ++ khanacademy_org.

(** The address of a service name. *)
Definition service_email (x : ustring) : ustring :=
  lower (_PAGERDUTY_ILLEGAL_CHARS_sub x) ++ pagerduty_com.

(** The list that a converted argument refers to. *)
Definition ref_of (arg : names) (h : list (list ustring)) : nat :=
  match arg with
  | NStr _ => length h
  | NList l => l
  end.

(** The heap once the argument is converted by [f], no element being
    refused: the caller's list is overwritten, a string gets a list of its
    own. *)
Definition converted (f : ustring -> ustring) (arg : names)
    (h : list (list ustring)) : list (list ustring) :=
  match arg with
  | NStr s => h ++ [[f s]]
  | NList l => <[l := f <$> default [] (h !! l)]> h
  end.

(** *** The three arguments of [send_to_email] *)

(** The strings an optional argument carries. *)
Definition opt_strings (h : list (list ustring)) (arg : option names)
  : option (list ustring) :=
  match arg with
  | None => None
  | Some a => Some (arg_strings h a)
  end.

(** The recipients an optional argument stands for. *)
Definition recipients (h : list (list ustring)) (arg : option names)
  : option (list ustring) :=
  fmap (M := list) normalize_one <$> opt_strings h arg.

(** No string of the argument is refused. *)
Definition all_accepted (h : list (list ustring)) (arg : option names)
  : Prop :=
  forall a x, arg = Some a -> x ∈ arg_strings h a -> bad_recipient x = false.

(** [h'] is [h] with some of its lists normalized, and maybe new lists. *)
Definition normalized_from (h h' : list (list ustring)) : Prop :=
  forall l xs,
    h !! l = Some xs ->
    h' !! l = Some xs \/ h' !! l = Some (normalize_one <$> xs).

(** Some string of the argument is refused. *)
Definition has_refused (h : list (list ustring)) (arg : option names)
  : Prop :=
  exists a x,
    arg = Some a /\ x ∈ arg_strings h a /\ bad_recipient x = true.

(** ** Rate limiting and the alert *)

(** [a'] is [a], or [a] with [last_sent[name] = now] recorded. *)
Definition alert_kept (now : Q) (name : string) (a a' : Alert) : Prop :=
  a' = a
  \/ a' = with_last_sent a (<[name := now]> (last_sent a)).

(** The backend [name] is inside its window at [now]. *)
Definition in_window (now : Q) (name : string) (st : state) : Prop :=
  exists R t,
    rate_limit (st_self st) = Some R /\ ~ (R == 0)%Q
    /\ last_sent (st_self st) !! name = Some t /\ ~ (R < now - t)%Q.

(** ** HipChat messages *)

(** The text holds an ['8'] followed at once by a [')']. *)
Fixpoint has_emoticon (s : ustring) : bool :=
  match s with
  | [] => false
  | c :: rest =>
      match rest with
      | c' :: _ => ((c =? 56) && (c' =? 41))%N || has_emoticon rest
      | [] => false
      end
  end.

(** The zero-width space that [_nix_bad_emoticons] inserts. *)
Definition zero_width_space : uchar := 8203%N.

Definition without_zero_width_space (s : ustring) : ustring :=
  List.filter (fun c => negb (c =? zero_width_space)%N) s.

Definition is_hipchat_call (e : event) : bool :=
  match e with HipchatCall _ _ => true | _ => false end.

Definition is_sleep (e : event) : bool :=
  match e with Sleep _ => true | _ => false end.

(** The number of calls to the HipChat API that [send_to_hipchat] makes
    for an alert, in or out of test mode, with the token [token]. *)
Definition hipchat_calls_expected (self : Alert) (test_mode : bool)
    (token : option ustring) : nat :=
  if test_mode || negb (truthy_text token) then 0%nat
  else if truthy_text (summary self) then 2%nat else 1%nat.

(** ** The mails handed to the transports *)

Definition newline : uchar := 10%N.

(** The body of a mail handed to a transport. *)
Definition mail_body (e : event) : option ustring :=
  match e with
  | GaeSendMail a => Some (gae_body a)
  | Sendmail a => Some (sm_body a)
  | _ => None
  end.

(** [body] is [text] with the newlines at its end replaced by one. *)
Definition ends_in_one_newline (text body : ustring) : Prop :=
  exists stem k,
    text = stem ++ repeat newline k
    /\ last stem <> Some newline
    /\ body = stem ++ [newline].

(** The characters of the sender of a mail. *)
Definition sender_char (c : uchar) : bool :=
  is_word_char c || bool_decide (c ∈ u " <>@.+-").

Definition count_char (c : uchar) (s : ustring) : nat :=
  length (List.filter (N.eqb c) s).

(** The local relay got the mail that the mail API was asked to send. *)
Definition same_mail (g : gae_mail_args) (s : sendmail_args) : Prop :=
  sm_subject s = gae_subject g /\ sm_from s = gae_sender g
  /\ sm_to s = gae_to g /\ sm_body s = gae_body g.

(** ** Calls of [_graphite_socket] *)

(** One call of [_graphite_socket] with what it meets. *)
Record socket_call := mkCall {
  call_net : net;
  call_now : Q;
  call_later : Q;
  call_hostport : ustring
}.

(** The state after the calls [calls], made in order. *)
Definition graphite_calls (calls : list socket_call) (g : graphite_state)
  : graphite_state :=
  fold_left (fun g c => snd (_graphite_socket (call_net c) (call_now c)
                                              (call_later c)
                                              (call_hostport c) g))
            calls g.

(** A network where every host resolves to [10.0.0.1], the port is
    [2003] and every connection succeeds. *)
Definition net_up : net :=
  mkNet (fun _ => inr (u "10.0.0.1")) (fun _ => inr 2003) None
        (fun _ _ => None).

(** The same network, but connections are refused. *)
Definition net_refusing : net :=
  mkNet (fun _ => inr (u "10.0.0.1")) (fun _ => inr 2003) None
        (fun _ _ => Some (OtherError "socket.error")).

(** The socket [s] was connected and has not been closed. *)
Definition live (tr : list socket_event) (s : nat) : Prop :=
  (exists host_ip port, SockConnect s host_ip port None ∈ tr)
  /\ SockClose s ∉ tr.

(** The clock does not go backwards from [c0] on. *)
Fixpoint clock_ok (c0 : Q) (calls : list socket_call) : Prop :=
  match calls with
  | [] => True
  | c :: rest =>
      (c0 <= call_now c)%Q /\ (call_now c <= call_later c)%Q
      /\ clock_ok (call_later c) rest
  end.

(** What holds of the globals when the clock shows [c] or more: a cached
    socket with a time is live, or the time is more than 600 seconds
    old. *)
Definition graphite_inv (c : Q) (g : graphite_state) : Prop :=
  (_GRAPHITE_SOCKET g = None -> _LAST_GRAPHITE_TIME g = None)
  /\ (forall s, SockClose s ∈ socket_trace g -> (s < sockets_made g)%nat)
  /\ (forall s, _GRAPHITE_SOCKET g = Some s -> (s < sockets_made g)%nat)
  /\ (forall s t,
        _GRAPHITE_SOCKET g = Some s -> _LAST_GRAPHITE_TIME g = Some t ->
        live (socket_trace g) s \/ (600 < c - t)%Q).

Definition is_close (e : socket_event) : bool :=
  match e with SockClose _ => true | _ => false end.

Definition is_new (e : socket_event) : bool :=
  match e with SockNew _ => true | _ => false end.

(** Every socket made is the one in [_GRAPHITE_SOCKET] or was closed. *)
Definition no_socket_left (g : graphite_state) : Prop :=
  forall s, SockNew s ∈ socket_trace g ->
            _GRAPHITE_SOCKET g = Some s \/ SockClose s ∈ socket_trace g.

(** ** The summary made from the message *)

(** The prefixes that [_get_summary] puts before the summary. *)
Definition severity_prefixes : list ustring :=
  [u "(debug info) "; []; u "WARNING: "; u "ERROR: ";
   u "**CRITICAL ERROR**: "].

(** A character that is neither a line boundary nor ['.']. *)
Definition summary_char (c : uchar) : bool :=
  negb (is_linebreak c) && negb (N.eqb c dot).

(** ** The addresses of PagerDuty services *)

(** A lower-case letter, a digit, ['.'], ['_'] or ['-']. *)
Definition address_char (c : uchar) : bool :=
  ((97 <=? c) && (c <=? 122) || (48 <=? c) && (c <=? 57)
   || (c =? 46) || (c =? 95) || (c =? 45))%N.

(** The part of the address before the ['@']. *)
Definition service_local (x : ustring) : ustring :=
  lower (_PAGERDUTY_ILLEGAL_CHARS_sub x).

(** * Properties *)

(** ** Text *)

Example splitlines_ex :
  splitlines (u "ab" ++ [13; 10]%N ++ u "cd" ++ [10; 10]%N ++ u "e" ++ [10]%N)
  = [u "ab"; u "cd"; []; u "e"].
Proof. reflexivity. Qed.

(** ** Rate limiting *)

Lemma Qgt_bool_true (x y : Q) : Qgt_bool x y = true <-> (y < x)%Q.
Proof.
  unfold Qgt_bool. rewrite negb_true_iff. split.
  - intros H. apply Qnot_le_lt. intros Hle.
    apply Qle_bool_iff in Hle. congruence.
  - intros H. destruct (Qle_bool x y) eqn:Hb; [|reflexivity].
    apply Qle_bool_iff in Hb. exfalso. exact (Qlt_not_le _ _ H Hb).
Qed.

Lemma Qgt_bool_false (x y : Q) : Qgt_bool x y = false <-> ~ (y < x)%Q.
Proof.
  rewrite <- Qgt_bool_true. destruct (Qgt_bool x y); split; intros H;
    try reflexivity; try discriminate; try (intros H'; discriminate).
  exfalso. apply H. reflexivity.
Qed.

Lemma Qeq_bool_false (x y : Q) : Qeq_bool x y = false <-> ~ (x == y)%Q.
Proof.
  split.
  - intros H Heq. apply Qeq_bool_iff in Heq. congruence.
  - intros H. destruct (Qeq_bool x y) eqn:Hb; [|reflexivity].
    apply Qeq_bool_iff in Hb. contradiction.
Qed.

Lemma passed_rate_limit_unset (now : Q) (name : string) (st : state) :
  truthy_rate (rate_limit (st_self st)) = false ->
  _passed_rate_limit now name st = (inr true, st).
Proof.
  intros H. unfold _passed_rate_limit, bind, get_self. cbn.
  rewrite H. reflexivity.
Qed.

Lemma passed_rate_limit_set (now : Q) (name : string) (st : state) (R : Q) :
  rate_limit (st_self st) = Some R -> ~ (R == 0)%Q ->
  _passed_rate_limit now name st =
    if Qgt_bool (elapsed now (st_self st) name) R
    then (inr true, record_sent now name st)
    else (inr false, st).
Proof.
  intros HR Hnz. apply Qeq_bool_false in Hnz.
  unfold _passed_rate_limit, bind, get_self. cbn.
  rewrite HR. cbn. rewrite Hnz. cbn. unfold elapsed.
  destruct (Qgt_bool _ R); reflexivity.
Qed.

(** A backend never sent to passes any window shorter than a million
    seconds. *)
Lemma first_send_passes (now : Q) (name : string) (st : state) (R : Q) :
  rate_limit (st_self st) = Some R -> ~ (R == 0)%Q ->
  last_sent (st_self st) !! name = None ->
  (0 <= now)%Q -> (R < 1000000)%Q ->
  _passed_rate_limit now name st = (inr true, record_sent now name st).
Proof.
  intros HR Hnz Hnone Hnow Hwindow.
  rewrite (passed_rate_limit_set _ _ _ R HR Hnz).
  assert (H : Qgt_bool (elapsed now (st_self st) name) R = true).
  { apply Qgt_bool_true. unfold elapsed. rewrite Hnone. cbn. lra. }
  now rewrite H.
Qed.

(** C1 (as amended): when [rate_limit] is unset or zero the check answers
    true and leaves the alert as it is; when [rate_limit] is a non-zero
    [R], it answers true and records [last_sent[name] = now] exactly when
    the elapsed time strictly exceeds [R], and otherwise answers false and
    changes nothing. *)
Theorem passed_rate_limit_spec (now : Q) (name : string) (st : state) :
  (rate_limit (st_self st) = None ->
   _passed_rate_limit now name st = (inr true, st))
  /\ (forall R : Q,
      rate_limit (st_self st) = Some R ->
      ((R == 0)%Q -> _passed_rate_limit now name st = (inr true, st))
      /\ (~ (R == 0)%Q -> (R < elapsed now (st_self st) name)%Q ->
          _passed_rate_limit now name st
          = (inr true, record_sent now name st))
      /\ (~ (R == 0)%Q -> ~ (R < elapsed now (st_self st) name)%Q ->
          _passed_rate_limit now name st = (inr false, st))).
Proof.
  split.
  - intros H. apply passed_rate_limit_unset. rewrite H. reflexivity.
  - intros R HR. repeat split.
    + intros Hz. apply passed_rate_limit_unset. rewrite HR. cbn.
      apply Qeq_bool_iff in Hz. rewrite Hz. reflexivity.
    + intros Hnz Hlt. rewrite (passed_rate_limit_set _ _ _ R HR Hnz).
      apply Qgt_bool_true in Hlt. rewrite Hlt. reflexivity.
    + intros Hnz Hlt. rewrite (passed_rate_limit_set _ _ _ R HR Hnz).
      apply Qgt_bool_false in Hlt. rewrite Hlt. reflexivity.
Qed.

Lemma passed_rate_limit_spec_witness :
  let st := mkState (Alert_init (u "m") None logging.INFO false (Some 60%Q))
                    [] false [] in
  _passed_rate_limit 5 "email" st = (inr true, record_sent 5 "email" st).
Proof.
  cbv zeta.
  refine (proj1 (proj2 (proj2 (passed_rate_limit_spec 5 "email"
            (mkState (Alert_init (u "m") None logging.INFO false
                                 (Some 60%Q)) [] false []))
                          60%Q eq_refl)) _ _).
  - unfold Qeq. simpl. lia.
  - vm_compute. reflexivity.
Defined.

(** C1 (as stated) fails for [rate_limit = 0]: the elapsed time exceeds
    the window, yet [last_sent] is not recorded; and a second check at the
    same instant, when the elapsed time does not exceed the window, still
    answers true. *)
Lemma passed_rate_limit_zero_counterexample :
  let st := mkState (Alert_init (u "m") None logging.INFO false (Some 0%Q))
                    [] false [] in
  let st' := record_sent 5 "email" st in
  (0 < elapsed 5 (st_self st) "email")%Q
  /\ _passed_rate_limit 5 "email" st = (inr true, st)
  /\ last_sent (st_self st) !! "email" = None
  /\ ~ (0 < elapsed 5 (st_self st') "email")%Q
  /\ _passed_rate_limit 5 "email" st' = (inr true, st').
Proof.
  cbv zeta. repeat split.
  intros H. vm_compute in H. discriminate.
Qed.

(** ** Severity policy *)

Lemma mapped_severity_missing {V} (self : Alert) (severity_map : gmap Z V)
    (info : V) :
  severity_map !! severity self = None ->
  severity_map !! logging.INFO = Some info ->
  _mapped_severity self severity_map = inr info.
Proof.
  intros Hsev Hinfo. unfold _mapped_severity. rewrite Hinfo, Hsev.
  reflexivity.
Qed.

Lemma mapped_severity_present {V} (self : Alert) (severity_map : gmap Z V)
    (info v : V) :
  severity_map !! severity self = Some v ->
  severity_map !! logging.INFO = Some info ->
  _mapped_severity self severity_map = inr v.
Proof.
  intros Hsev Hinfo. unfold _mapped_severity. rewrite Hinfo, Hsev.
  reflexivity.
Qed.

(** A map with no entry for INFO is a [KeyError], whatever the severity. *)
Lemma mapped_severity_no_info {V} (self : Alert) (severity_map : gmap Z V) :
  severity_map !! logging.INFO = None ->
  _mapped_severity self severity_map = inl KeyError.
Proof. intros H. unfold _mapped_severity. rewrite H. reflexivity. Qed.

(** C3: for a severity with no entry in a severity table,
    [_mapped_severity] answers the table's entry for INFO; this holds for
    the color table, for the summary-prefix table (whose lookup defaults to
    the empty text, its entry for INFO) and for the syslog-priority
    table. *)
Theorem severity_fallback_to_info :
  (forall (V : Type) (severity_map : gmap Z V) (self : Alert) (info : V),
      severity_map !! severity self = None ->
      severity_map !! logging.INFO = Some info ->
      _mapped_severity self severity_map = inr info)
  /\ (forall self : Alert,
      _LOG_PRIORITY_TO_COLOR !! severity self = None ->
      _LOG_PRIORITY_TO_COLOR !! logging.INFO = Some (u "purple")
      /\ _mapped_severity self _LOG_PRIORITY_TO_COLOR = inr (u "purple"))
  /\ (forall self : Alert,
      log_priority_to_prefix !! severity self = None ->
      log_priority_to_prefix !! logging.INFO = Some (severity_prefix self))
  /\ (forall self : Alert,
      _LOG_TO_SYSLOG true !! severity self = None ->
      _LOG_TO_SYSLOG true !! logging.INFO = Some syslog.LOG_INFO
      /\ _mapped_severity self (_LOG_TO_SYSLOG true) = inr syslog.LOG_INFO).
Proof.
  split; [|split; [|split]].
  - intros V severity_map self info. apply mapped_severity_missing.
  - intros self H. split; [reflexivity|].
    apply mapped_severity_missing; [exact H | reflexivity].
  - intros self H. unfold severity_prefix. rewrite H. reflexivity.
  - intros self H. split; [reflexivity|].
    apply mapped_severity_missing; [exact H | reflexivity].
Qed.

Lemma severity_fallback_to_info_witness :
  let self := Alert_init (u "m") None 25 false None in
  _mapped_severity self _LOG_PRIORITY_TO_COLOR = inr (u "purple")
  /\ log_priority_to_prefix !! logging.INFO = Some (severity_prefix self)
  /\ _mapped_severity self (_LOG_TO_SYSLOG true) = inr syslog.LOG_INFO.
Proof.
  cbv zeta.
  pose proof severity_fallback_to_info as (_ & Hcolor & Hprefix & Hsyslog).
  split; [|split].
  - apply (Hcolor (Alert_init (u "m") None 25 false None)). reflexivity.
  - apply (Hprefix (Alert_init (u "m") None 25 false None)). reflexivity.
  - apply (Hsyslog (Alert_init (u "m") None 25 false None)). reflexivity.
Defined.

(** The severities without an entry are those other than the five
    levels of [logging]. *)
Lemma color_table_entries (s : Z) :
  _LOG_PRIORITY_TO_COLOR !! s = None <->
  s <> logging.DEBUG /\ s <> logging.INFO /\ s <> logging.WARNING
  /\ s <> logging.ERROR /\ s <> logging.CRITICAL.
Proof.
  unfold _LOG_PRIORITY_TO_COLOR. rewrite !lookup_insert_None, lookup_empty.
  intuition congruence.
Qed.

(** ** Summary *)

Lemma splitlines_go_hd (line s : ustring) :
  hd [] (splitlines_go line s) = rev line ++ first_line s.
Proof.
  revert line. induction s as [|c rest IH]; intros line; cbn.
  - destruct line; cbn; [reflexivity|]. now rewrite app_nil_r.
  - destruct (is_linebreak c); cbn.
    + now rewrite app_nil_r.
    + rewrite IH. cbn. now rewrite <- app_assoc.
Qed.

Lemma splitlines_hd (s : ustring) : hd [] (splitlines s) = first_line s.
Proof. unfold splitlines. now rewrite splitlines_go_hd. Qed.

Lemma splitlines_go_nonempty (line s : ustring) :
  line <> [] \/ s <> [] -> splitlines_go line s <> [].
Proof.
  revert line. induction s as [|c rest IH]; intros line Hne; cbn.
  - destruct line; [|discriminate]. destruct Hne; congruence.
  - destruct (is_linebreak c); [discriminate|].
    apply IH. left. discriminate.
Qed.

(** [splitlines()[0]] is in range for a message that is not empty. *)
Lemma splitlines_nonempty (s : ustring) : s <> [] -> splitlines s <> [].
Proof. intros H. apply splitlines_go_nonempty. now right. Qed.

Lemma take_take_until (stop : uchar -> bool) (s : ustring) :
  take (length (take_until stop s)) s = take_until stop s.
Proof.
  induction s as [|c s IH]; cbn; [reflexivity|].
  destruct (stop c); cbn; [reflexivity|]. now rewrite IH.
Qed.

Lemma find_from_found (c : uchar) (s : ustring) (i : Z) :
  contains c s = true ->
  find_from c s i
  = i + Z.of_nat (length (take_until (fun x => N.eqb x c) s)).
Proof.
  revert i. induction s as [|x s IH]; intros i; cbn; [discriminate|].
  rewrite (N.eqb_sym c x). destruct (N.eqb x c); cbn.
  - intros _. lia.
  - intros H. rewrite (IH _ H). lia.
Qed.

Lemma take_until_absent (c : uchar) (s : ustring) :
  contains c s = false -> take_until (fun x => N.eqb x c) s = s.
Proof.
  induction s as [|x s IH]; cbn; [reflexivity|].
  rewrite (N.eqb_sym c x). destruct (N.eqb x c); cbn; [discriminate|].
  intros H. now rewrite (IH H).
Qed.

(** The two branches of [if '.' in summary] compute the sentence cap. *)
Lemma sentence_cap_code (s : ustring) :
  (if contains dot s then slice_to (find dot s) s else s) = sentence_cap s.
Proof.
  unfold sentence_cap. destruct (contains dot s) eqn:Hdot.
  - unfold find. rewrite (find_from_found _ _ _ Hdot). unfold slice_to.
    destruct (Z.ltb_spec (0 + Z.of_nat (length (take_until
                (fun x => N.eqb x dot) s))) 0) as [Hneg|_]; [lia|].
    rewrite Z.add_0_l, Nat2Z.id. apply take_take_until.
  - symmetry. now apply take_until_absent.
Qed.


Example get_summary_ex :
  _get_summary (Alert_init (u "Disk full. Call ops" ++ [10%N] ++ u "details")
                           None logging.ERROR false None)
  = u "ERROR: Disk full".
Proof. reflexivity. Qed.

(** The length cap comes before the prefix: the summary may be longer
    than sixty characters. *)
Example get_summary_long :
  _get_summary (Alert_init (repeat 97%N 70 ++ u ". end") None
                           logging.WARNING false None)
  = u "WARNING: " ++ repeat 97%N 60.
Proof. reflexivity. Qed.

(** ** Metrics: the value on the wire *)





(** ** Running the dispatchers *)

Lemma add_trace_nil (st : state) : add_trace st [] = st.
Proof. destruct st. unfold add_trace. cbn. now rewrite app_nil_r. Qed.

Lemma add_trace_app (st : state) (evs evs' : list event) :
  add_trace (add_trace st evs) evs' = add_trace st (evs ++ evs').
Proof. unfold add_trace. cbn. now rewrite app_assoc. Qed.

Lemma emit_run (e : event) (st : state) :
  emit e st = (inr tt, add_trace st [e]).
Proof. reflexivity. Qed.

Lemma bind_run {A B} (m : M A) (k : A -> M B) (st st' : state) (x : A) :
  m st = (inr x, st') -> bind m k st = k x st'.
Proof. intros H. unfold bind. now rewrite H. Qed.

Lemma bind_raise {A B} (m : M A) (k : A -> M B) (st st' : state) (e : exn) :
  m st = (inl e, st') -> bind m k st = (inl e, st').
Proof. intros H. unfold bind. now rewrite H. Qed.

Lemma bind_assoc {A B C} (m : M A) (k : A -> M B) (k' : B -> M C)
    (st : state) :
  bind (bind m k) k' st = bind m (fun x => bind (k x) k') st.
Proof. unfold bind. destruct (m st) as [[e|x] st']; reflexivity. Qed.

Lemma logging_log_run (level : Z) (msg : pyval) (st : state) :
  logging_log level msg st = (inr tt, add_trace st [Log level msg]).
Proof. reflexivity. Qed.

Lemma call_ok_run (e : event) (st : state) :
  call e None st = (inr tt, add_trace st [e]).
Proof. reflexivity. Qed.

Lemma call_failed_run (e : event) (why : exn) (st : state) :
  call e (Some why) st = (inl why, add_trace st [e]).
Proof. reflexivity. Qed.

Lemma try_except_ok {A} (m : M A) (handler : exn -> option (M A))
    (st st' : state) (x : A) :
  m st = (inr x, st') -> try_except m handler st = (inr x, st').
Proof. intros H. unfold try_except. now rewrite H. Qed.

Lemma try_except_caught {A} (m : M A) (handler : exn -> option (M A))
    (st st' : state) (e : exn) (h : M A) (r : (exn + A) * state) :
  m st = (inl e, st') -> handler e = Some h -> h st' = r ->
  try_except m handler st = r.
Proof. intros H Hh Hr. unfold try_except. now rewrite H, Hh. Qed.

Lemma try_except_escapes {A} (m : M A) (handler : exn -> option (M A))
    (st st' : state) (e : exn) :
  m st = (inl e, st') -> handler e = None ->
  try_except m handler st = (inl e, st').
Proof. intros H Hh. unfold try_except. now rewrite H, Hh. Qed.

Lemma get_self_run (st : state) : get_self st = (inr (st_self st), st).
Proof. reflexivity. Qed.

Lemma add_trace_self (st : state) (evs : list event) :
  st_self (add_trace st evs) = st_self st.
Proof. reflexivity. Qed.

Lemma add_trace_heap (st : state) (evs : list event) :
  st_heap (add_trace st evs) = st_heap st.
Proof. reflexivity. Qed.

Lemma add_trace_test_mode (st : state) (evs : list event) :
  st_test_mode (add_trace st evs) = st_test_mode st.
Proof. reflexivity. Qed.

(** The rate limiter touches nothing but [last_sent] and never raises. *)
Lemma passed_rate_limit_frame (now : Q) (name : string) (st : state) :
  exists (b : bool) (ls : gmap string Q),
    _passed_rate_limit now name st
    = (inr b, mkState (with_last_sent (st_self st) ls) (st_heap st)
                      (st_test_mode st) (st_trace st)).
Proof.
  unfold _passed_rate_limit, bind, get_self. cbn.
  destruct (truthy_rate (rate_limit (st_self st))); cbn.
  - destruct (Qgt_bool _ _); cbn; eauto.
    exists false, (last_sent (st_self st)). now destruct st as [[]].
  - exists true, (last_sent (st_self st)). now destruct st as [[]].
Qed.

Section Runs.

Variable E : env.


End Runs.

Lemma contains_app (c : uchar) (s t : ustring) :
  contains c (s ++ t) = contains c s || contains c t.
Proof. apply existsb_app. Qed.




Example payload_value_int : payload_value (PyInt 1) = u "1".
Proof. reflexivity. Qed.

Example payload_value_negative : payload_value (PyFloat (-3.0)) = u "-3".
Proof. reflexivity. Qed.

Example payload_value_third : payload_value (PyFloat (1 # 3)) = u "0.333333333333".
Proof. reflexivity. Qed.

(** ** Closed forms of the dispatchers *)

Section Closed_forms.

Variable E : env.

(** One step of a run: the first action of a sequence is replaced by its
    result. *)
Ltac run_with tac :=
  repeat first
    [ rewrite bind_assoc
    | erewrite bind_run
        by (first [ tac | apply logging_log_run | apply call_ok_run
                  | reflexivity ])
    | rewrite add_trace_app
    | rewrite get_self_run
    | rewrite add_trace_self ].

Lemma post_to_hipchat_run (d : post_dict) (st : state) :
  _post_to_hipchat E d st = (inr tt, add_trace st (post_events E d)).
Proof.
  unfold _post_to_hipchat, post_events.
  destruct (truthy_text (hipchat_token E)); cbn; [|reflexivity].
  unfold try_except, _make_hipchat_api_call, call, bind. cbn.
  destruct (hipchat_api E _ d); cbn; [|reflexivity].
  unfold logging_log, emit, add_trace. cbn. now rewrite <- app_assoc.
Qed.

Lemma mapped_color (self : Alert) :
  _mapped_severity self _LOG_PRIORITY_TO_COLOR
  = inr (default (u "purple") (_LOG_PRIORITY_TO_COLOR !! severity self)).
Proof. reflexivity. Qed.

Lemma send_to_hipchat_denied (now : Q) (room_name : ustring)
    (color : option ustring) (notify : option bool) (sender : ustring)
    (st st1 : state) :
  _passed_rate_limit now "hipchat" st = (inr false, st1) ->
  send_to_hipchat E now room_name color notify sender st
  = (inr (st_self st1), st1).
Proof.
  intros H. unfold send_to_hipchat. now rewrite (bind_run _ _ _ _ _ H).
Qed.

Lemma send_to_hipchat_passed (now : Q) (room_name : ustring)
    (color : option ustring) (notify : option bool) (sender : ustring)
    (st st1 : state) :
  _passed_rate_limit now "hipchat" st = (inr true, st1) ->
  send_to_hipchat E now room_name color notify sender st
  = (inr (st_self st1),
     add_trace st1
       (hipchat_events E (st_self st1) (st_test_mode st1) room_name color
                       notify sender)).
Proof.
  intros H. unfold send_to_hipchat. rewrite (bind_run _ _ _ _ _ H).
  cbn [negb]. unfold return_self.
  unfold hipchat_events, summary_post, body_post, chat_notify, chat_color.
  destruct color as [c|]; run_with ltac:(apply post_to_hipchat_run);
    destruct (truthy_text (summary (st_self st1))), (st_test_mode st1);
    run_with ltac:(apply post_to_hipchat_run);
    rewrite <- ?app_assoc; reflexivity.
Qed.

Lemma send_to_logs_denied (now : Q) (st st1 : state) :
  _passed_rate_limit now "logs" st = (inr false, st1) ->
  send_to_logs E now st = (inr (st_self st1), st1).
Proof.
  intros H. unfold send_to_logs. now rewrite (bind_run _ _ _ _ _ H).
Qed.

Lemma send_to_logs_passed (now : Q) (st st1 : state) :
  _passed_rate_limit now "logs" st = (inr true, st1) ->
  send_to_logs E now st
  = (inr (st_self st1),
     add_trace st1 (logs_events E (st_self st1) (st_test_mode st1))).
Proof.
  intros H. unfold send_to_logs. rewrite (bind_run _ _ _ _ _ H).
  cbn [negb]. unfold return_self, logs_events.
  run_with fail. cbn [add_trace st_test_mode].
  destruct (st_test_mode st1); cbn [negb]; run_with fail; [reflexivity|].
  destruct (syslog_loaded E).
  - erewrite bind_run.
    2:{ apply try_except_ok. run_with fail. apply call_ok_run. }
    run_with fail. reflexivity.
  - erewrite bind_run.
    2:{ eapply try_except_caught;
          [apply bind_raise; reflexivity | reflexivity | reflexivity]. }
    run_with fail. reflexivity.
Qed.

Lemma send_to_graphite_denied (now : Q) (statistic : ustring)
    (value : pynum) (host : ustring) (st st1 : state) :
  _passed_rate_limit now "graphite" st = (inr false, st1) ->
  send_to_graphite E now statistic value host st = (inr (st_self st1), st1).
Proof.
  intros H. unfold send_to_graphite. now rewrite (bind_run _ _ _ _ _ H).
Qed.

Lemma send_to_graphite_passed (now : Q) (statistic : ustring)
    (value : pynum) (host : ustring) (st st1 : state) :
  _passed_rate_limit now "graphite" st = (inr true, st1) ->
  send_to_graphite E now statistic value host st
  = (inr (st_self st1),
     add_trace st1
       (graphite_events E (st_test_mode st1) statistic value host)).
Proof.
  intros H. unfold send_to_graphite. rewrite (bind_run _ _ _ _ _ H).
  cbn [negb]. unfold return_self, graphite_events.
  run_with fail.
  destruct (st_test_mode st1); run_with fail; [reflexivity|].
  destruct (truthy_text (hostedgraphite_api_key E)); cbn [negb];
    run_with fail; [|reflexivity].
  destruct (graphite_socket_send E host _) as [why|].
  - erewrite bind_run.
    2:{ eapply try_except_caught;
          [apply call_failed_run | reflexivity | apply logging_log_run]. }
    run_with fail. reflexivity.
  - erewrite bind_run.
    2:{ apply try_except_ok. apply call_ok_run. }
    run_with fail. reflexivity.
Qed.

End Closed_forms.

(** ** Lists converted in place *)

Lemma set_heap_id (st : state) : set_heap st (st_heap st) = st.
Proof. now destruct st. Qed.

Lemma list_get_run (l i : nat) (xs : list ustring) (x : ustring)
    (st : state) :
  st_heap st !! l = Some xs -> xs !! i = Some x ->
  list_get l i st = (inr x, st).
Proof. intros Hl Hi. unfold list_get. now rewrite Hl, Hi. Qed.

Lemma list_set_run (l i : nat) (xs : list ustring) (y : ustring)
    (st : state) :
  st_heap st !! l = Some xs -> (i < length xs)%nat ->
  list_set l i y st
  = (inr tt, set_heap st (<[l := <[i := y]> xs]> (st_heap st))).
Proof.
  intros Hl Hi. unfold list_set. rewrite Hl.
  destruct (Nat.ltb_spec i (length xs)); [reflexivity | lia].
Qed.

Lemma convert_loop_run (step : ustring -> exn + ustring) (l : nat) :
  forall (n k : nat) (xs : list ustring) (st : state),
    st_heap st !! l = Some xs -> (k + n = length xs)%nat ->
    convert_loop step l (seq k n) st
    = (match snd (convert_list step (drop k xs)) with
       | Some e => inl e
       | None => inr tt
       end,
       set_heap st (<[l := take k xs ++ fst (convert_list step (drop k xs))]>
                      (st_heap st))).
Proof.
  induction n as [|n IH]; intros k xs st Hl Hk.
  - cbn. rewrite drop_ge by lia. cbn. rewrite app_nil_r, take_ge by lia.
    rewrite (list_insert_id _ _ _ Hl). now rewrite set_heap_id.
  - assert (Hx : is_Some (xs !! k)) by (apply lookup_lt_is_Some; lia).
    destruct Hx as [x Hx]. cbn [seq convert_loop].
    rewrite (bind_run _ _ _ _ _ (list_get_run _ _ _ _ _ Hl Hx)).
    rewrite (drop_S _ _ _ Hx). cbn [convert_list].
    destruct (step x) as [e|y].
    + cbn. rewrite <- (drop_S _ _ _ Hx), take_drop.
      rewrite (list_insert_id _ _ _ Hl). now rewrite set_heap_id.
    + erewrite bind_run
        by (apply (list_set_run _ _ _ _ _ Hl); apply lookup_lt_Some in Hx; lia).
      rewrite (IH (S k) (<[k := y]> xs)).
      * cbn [snd fst set_heap st_heap st_self st_test_mode st_trace].
        rewrite drop_insert_lt by lia.
        rewrite list_insert_insert_eq.
        f_equal. f_equal. f_equal.
        rewrite (take_S_r (<[k:=y]> xs) k y).
        -- rewrite take_insert_ge by lia. now rewrite <- app_assoc.
        -- apply list_lookup_insert_eq. apply lookup_lt_Some in Hx. lia.
      * cbn. apply list_lookup_insert_eq. now apply lookup_lt_Some in Hl.
      * rewrite length_insert. lia.
Qed.

Lemma list_set_same (l i : nat) (xs : list ustring) (x : ustring)
    (st : state) :
  st_heap st !! l = Some xs -> xs !! i = Some x ->
  list_set l i x st = (inr tt, st).
Proof.
  intros Hl Hi. rewrite (list_set_run _ _ _ _ _ Hl).
  - rewrite (list_insert_id _ _ _ Hi), (list_insert_id _ _ _ Hl).
    now rewrite set_heap_id.
  - now apply lookup_lt_Some in Hi.
Qed.

Lemma normalize_loop_convert (l : nat) (idx : list nat) :
  forall (xs : list ustring) (st : state),
    st_heap st !! l = Some xs -> Forall (fun i => (i < length xs)%nat) idx ->
    _normalize_loop l idx st = convert_loop email_step l idx st.
Proof.
  induction idx as [|i idx IH]; intros xs st Hl Hidx; [reflexivity|].
  inversion Hidx as [|? ? Hi Hidx']; subst.
  destruct (lookup_lt_is_Some_2 _ _ Hi) as [x Hx].
  cbn [_normalize_loop convert_loop].
  rewrite !(bind_run _ _ _ _ _ (list_get_run _ _ _ _ _ Hl Hx)).
  unfold email_step.
  destruct (endswith x khanacademy_org); cbn [negb].
  - rewrite (bind_run _ _ _ _ _ (list_set_same _ _ _ _ _ Hl Hx)).
    erewrite bind_run by reflexivity. eauto.
  - destruct (contains at_sign x).
    + erewrite bind_raise by reflexivity. reflexivity.
    + rewrite !(bind_run _ _ _ _ _ (list_set_run _ _ _ _ _ Hl Hi)).
      apply (IH (<[i := x ++ khanacademy_org]> xs)).
      * cbn. apply list_lookup_insert_eq. now apply lookup_lt_Some in Hl.
      * now rewrite length_insert.
Qed.

Lemma service_name_loop_convert (l : nat) (idx : list nat) :
  forall (xs : list ustring) (st : state),
    st_heap st !! l = Some xs -> Forall (fun i => (i < length xs)%nat) idx ->
    _service_name_to_email_loop l idx st
    = convert_loop pagerduty_step l idx st.
Proof.
  induction idx as [|i idx IH]; intros xs st Hl Hidx; [reflexivity|].
  inversion Hidx as [|? ? Hi Hidx']; subst.
  destruct (lookup_lt_is_Some_2 _ _ Hi) as [x Hx].
  cbn [_service_name_to_email_loop convert_loop].
  rewrite !(bind_run _ _ _ _ _ (list_get_run _ _ _ _ _ Hl Hx)).
  unfold pagerduty_step.
  destruct (contains at_sign x).
  - erewrite bind_raise by reflexivity. reflexivity.
  - erewrite bind_run by reflexivity.
    rewrite (bind_run _ _ _ _ _ (list_set_run _ _ _ _ _ Hl Hi)).
    assert (Hl' : st_heap (set_heap st
               (<[l := <[i := lower (_PAGERDUTY_ILLEGAL_CHARS_sub x)]> xs]>
                  (st_heap st))) !! l
             = Some (<[i := lower (_PAGERDUTY_ILLEGAL_CHARS_sub x)]> xs)).
    { cbn. apply list_lookup_insert_eq. now apply lookup_lt_Some in Hl. }
    erewrite bind_run
      by (apply (list_get_run _ _ _ _ _ Hl');
          now apply list_lookup_insert_eq).
    erewrite bind_run
      by (apply (list_set_run _ _ _ _ _ Hl'); now rewrite length_insert).
    rewrite (bind_run _ _ _ _ _ (list_set_run _ _ _ _ _ Hl Hi)).
    cbn [set_heap st_heap st_self st_test_mode st_trace].
    rewrite !list_insert_insert_eq.
    apply (IH (<[i := lower (_PAGERDUTY_ILLEGAL_CHARS_sub x) ++ pagerduty_com]> xs)).
    + cbn. apply list_lookup_insert_eq. now apply lookup_lt_Some in Hl.
    + now rewrite length_insert.
Qed.

Lemma Forall_seq_lt (n : nat) : Forall (fun i => (i < n)%nat) (seq 0 n).
Proof. apply Forall_forall. intros i Hi. apply elem_of_seq in Hi. lia. Qed.

Lemma convert_whole_list (step : ustring -> exn + ustring) (l : nat)
    (xs : list ustring) (st : state) :
  st_heap st !! l = Some xs ->
  convert_loop step l (seq 0 (length xs)) st
  = (match snd (convert_list step xs) with
     | Some e => inl e
     | None => inr tt
     end,
     set_heap st (<[l := fst (convert_list step xs)]> (st_heap st))).
Proof.
  intros Hl. now rewrite (convert_loop_run step l _ 0 xs st Hl eq_refl).
Qed.

Lemma list_len_run (l : nat) (xs : list ustring) (st : state) :
  st_heap st !! l = Some xs -> list_len l st = (inr (length xs), st).
Proof. intros Hl. unfold list_len. now rewrite Hl. Qed.

Lemma service_name_to_email_run (arg : names) (st : state) :
  _service_name_to_email arg st
  = (snd (convert_arg pagerduty_step arg (st_heap st)),
     set_heap st (fst (convert_arg pagerduty_step arg (st_heap st)))).
Proof.
  unfold _service_name_to_email, convert_arg. destruct arg as [s|l].
  - erewrite bind_run by reflexivity.
    assert (Hl : st_heap (set_heap st (st_heap st ++ [[s]])) !! length (st_heap st)
                 = Some [s]).
    { cbn. now rewrite lookup_app_r, Nat.sub_diag by lia. }
    change (mkState (st_self st) (st_heap st ++ [[s]]) (st_test_mode st) (st_trace st))
      with (set_heap st (st_heap st ++ [[s]])).
    rewrite (bind_run _ _ _ _ _ (list_len_run _ _ _ Hl)).
    unfold bind.
    rewrite (service_name_loop_convert _ _ _ _ Hl (Forall_seq_lt _)).
    rewrite (convert_whole_list _ _ _ _ Hl).
    cbn [set_heap st_heap st_self st_test_mode st_trace].
    assert (Hins : forall ys : list ustring,
               <[length (st_heap st) := ys]> (st_heap st ++ [[s]])
               = st_heap st ++ [ys]).
    { intros ys. rewrite insert_app_r_alt, Nat.sub_diag by lia. reflexivity. }
    rewrite Hins.
    destruct (snd (convert_list pagerduty_step [s])); reflexivity.
  - destruct (st_heap st !! l) as [xs|] eqn:Hl.
    + erewrite bind_run by reflexivity.
      rewrite (bind_run _ _ _ _ _ (list_len_run _ _ _ Hl)).
      unfold bind.
      rewrite (service_name_loop_convert _ _ _ _ Hl (Forall_seq_lt _)).
      rewrite (convert_whole_list _ _ _ _ Hl).
      destruct (snd (convert_list pagerduty_step xs)); reflexivity.
    + erewrite bind_run by reflexivity.
      erewrite bind_raise; [|unfold list_len; now rewrite Hl].
      cbn. now rewrite set_heap_id.
Qed.

Lemma normalize_run (arg : option names) (st : state) :
  _normalize arg st
  = (snd (convert_opt email_step arg (st_heap st)),
     set_heap st (fst (convert_opt email_step arg (st_heap st)))).
Proof.
  unfold _normalize, convert_opt, convert_arg.
  destruct arg as [[s|l]|].
  - erewrite bind_run by reflexivity.
    assert (Hl : st_heap (set_heap st (st_heap st ++ [[s]]))
                   !! length (st_heap st) = Some [s]).
    { cbn. now rewrite lookup_app_r, Nat.sub_diag by lia. }
    change (mkState (st_self st) (st_heap st ++ [[s]]) (st_test_mode st)
                    (st_trace st))
      with (set_heap st (st_heap st ++ [[s]])).
    rewrite (bind_run _ _ _ _ _ (list_len_run _ _ _ Hl)).
    unfold bind.
    rewrite (normalize_loop_convert _ _ _ _ Hl (Forall_seq_lt _)).
    rewrite (convert_whole_list _ _ _ _ Hl).
    cbn [set_heap st_heap st_self st_test_mode st_trace fst snd].
    assert (Hins : forall ys : list ustring,
               <[length (st_heap st) := ys]> (st_heap st ++ [[s]])
               = st_heap st ++ [ys]).
    { intros ys. rewrite insert_app_r_alt, Nat.sub_diag by lia. reflexivity. }
    rewrite Hins.
    destruct (snd (convert_list email_step [s])); reflexivity.
  - destruct (st_heap st !! l) as [xs|] eqn:Hl.
    + erewrite bind_run by reflexivity.
      rewrite (bind_run _ _ _ _ _ (list_len_run _ _ _ Hl)).
      unfold bind.
      rewrite (normalize_loop_convert _ _ _ _ Hl (Forall_seq_lt _)).
      rewrite (convert_whole_list _ _ _ _ Hl).
      cbn [fst snd].
      destruct (snd (convert_list email_step xs)); reflexivity.
    + erewrite bind_run by reflexivity.
      erewrite bind_raise; [|unfold list_len; now rewrite Hl].
      cbn. now rewrite set_heap_id.
  - cbn. now rewrite set_heap_id.
Qed.

Lemma read_opt_run (o : option nat) (st : state) :
  read_opt o st = (heap_read (st_heap st) o, st).
Proof.
  destruct o as [l|]; [|reflexivity]. cbn. unfold bind, list_read.
  destruct (st_heap st !! l); reflexivity.
Qed.

Section Email_runs.

Variable E : env.

Lemma send_to_gae_email_run (message : ustring)
    (email_addresses cc bcc : option nat) (sender : option ustring)
    (to ccs bccs : option (list ustring)) (st : state) :
  heap_read (st_heap st) email_addresses = inr to ->
  heap_read (st_heap st) cc = inr ccs ->
  heap_read (st_heap st) bcc = inr bccs ->
  _send_to_gae_email E message email_addresses cc bcc sender st
  = (match google_mail_send_mail E
             (gae_args_of (st_self st) sender message to ccs bccs) with
     | Some why => inl why
     | None => inr tt
     end,
     add_trace st
       [GaeSendMail (gae_args_of (st_self st) sender message to ccs bccs)]).
Proof.
  intros Hto Hcc Hbcc. unfold _send_to_gae_email.
  rewrite (bind_run _ _ _ _ _ (get_self_run st)).
  erewrite bind_run by (rewrite read_opt_run, Hto; reflexivity).
  erewrite bind_run by (rewrite read_opt_run, Hcc; reflexivity).
  erewrite bind_run by (rewrite read_opt_run, Hbcc; reflexivity).
  cbv zeta. fold (gae_args_of (st_self st) sender message to ccs bccs).
  destruct (google_mail_send_mail E _); reflexivity.
Qed.

Lemma send_to_sendmail_run (message : ustring)
    (email_addresses cc bcc : option nat) (sender : option ustring)
    (to ccs bccs : option (list ustring)) (st : state) :
  heap_read (st_heap st) email_addresses = inr to ->
  heap_read (st_heap st) cc = inr ccs ->
  heap_read (st_heap st) bcc = inr bccs ->
  _send_to_sendmail E message email_addresses cc bcc sender st
  = (match smtp_sendmail E
             (sendmail_args_of (st_self st) sender message to ccs bccs) with
     | Some why => inl why
     | None => inr tt
     end,
     add_trace st
       [Sendmail (sendmail_args_of (st_self st) sender message to ccs bccs)]).
Proof.
  intros Hto Hcc Hbcc. unfold _send_to_sendmail.
  rewrite (bind_run _ _ _ _ _ (get_self_run st)).
  erewrite bind_run by (rewrite read_opt_run, Hto; reflexivity).
  erewrite bind_run by (rewrite read_opt_run, Hcc; reflexivity).
  erewrite bind_run by (rewrite read_opt_run, Hbcc; reflexivity).
  cbv zeta.
  fold (sendmail_args_of (st_self st) sender message to ccs bccs).
  destruct (smtp_sendmail E _); reflexivity.
Qed.

(** The delivery, inside the [try] of the dispatcher. *)
Lemma delivery_run (email_addresses cc bcc : option nat)
    (sender : option ustring) (to ccs bccs : option (list ustring))
    (contents : pyval) (st : state) :
  heap_read (st_heap st) email_addresses = inr to ->
  heap_read (st_heap st) cc = inr ccs ->
  heap_read (st_heap st) bcc = inr bccs ->
  try_except
    (_send_to_email E email_addresses cc bcc sender)
    (fun why => Some
       (logging_log logging.ERROR
          (VFmt "Failed sending %s: %s" [contents; VExn why]))) st
  = (inr tt,
     add_trace st
       (delivery_events E (st_self st) sender to ccs bccs contents)).
Proof.
  intros Hto Hcc Hbcc. unfold try_except, _send_to_email, delivery_events.
  rewrite (bind_run _ _ _ _ _ (get_self_run st)). cbv zeta.
  unfold bind at 1. unfold try_except at 1. unfold bind at 1.
  rewrite (send_to_gae_email_run _ _ _ _ _ _ _ _ _ Hto Hcc Hbcc).
  destruct (google_mail_send_mail E _) as [why|]; [|reflexivity].
  destruct (gae_unavailable why) eqn:Hwhy.
  - assert (Hh : match why with
                 | NameError | AssertionError => Some (ret (Some why))
                 | _ => None
                 end = Some (ret (Some why) : M (option exn)))
      by (destruct why; try discriminate; reflexivity).
    rewrite Hh. cbn [ret].
    unfold bind at 1. unfold try_except at 1. unfold bind at 1.
    rewrite (send_to_sendmail_run _ _ _ _ _ to ccs bccs (add_trace st _)
               Hto Hcc Hbcc).
    rewrite add_trace_self.
    destruct (smtp_sendmail E _) as [why'|];
      [|rewrite add_trace_app; reflexivity].
    destruct (smtp_failure why') eqn:Hwhy'.
    + assert (Hh' : match why' with
                    | NameError | SMTPException => Some (ret (Some why'))
                    | _ => None
                    end = Some (ret (Some why') : M (option exn)))
        by (destruct why'; try discriminate; reflexivity).
      rewrite Hh'. cbn [ret]. rewrite logging_log_run, !add_trace_app.
      reflexivity.
    + assert (Hh' : match why' with
                    | NameError | SMTPException => Some (ret (Some why'))
                    | _ => None
                    end = (None : option (M (option exn))))
        by (destruct why'; try discriminate; reflexivity).
      rewrite Hh'. rewrite logging_log_run, !add_trace_app. reflexivity.
  - assert (Hh : match why with
                 | NameError | AssertionError => Some (ret (Some why))
                 | _ => None
                 end = (None : option (M (option exn))))
      by (destruct why; try discriminate; reflexivity).
    rewrite Hh. rewrite logging_log_run, !add_trace_app. reflexivity.
Qed.

End Email_runs.

Section Plans.

Variable E : env.

Lemma send_to_email_denied (now : Q) (email_usernames cc bcc : option names)
    (sender : option ustring) (st st1 : state) :
  _passed_rate_limit now "email" st = (inr false, st1) ->
  send_to_email E now email_usernames cc bcc sender st
  = (inr (st_self st1), st1).
Proof.
  intros H. unfold send_to_email. now rewrite (bind_run _ _ _ _ _ H).
Qed.

Lemma send_to_pagerduty_denied (now : Q) (pagerduty_servicenames : names)
    (st st1 : state) :
  _passed_rate_limit now "pagerduty" st = (inr false, st1) ->
  send_to_pagerduty E now pagerduty_servicenames st
  = (inr (st_self st1), st1).
Proof.
  intros H. unfold send_to_pagerduty. now rewrite (bind_run _ _ _ _ _ H).
Qed.

Lemma send_to_email_passed (now : Q) (email_usernames cc bcc : option names)
    (sender : option ustring) (st st1 : state) :
  _passed_rate_limit now "email" st = (inr true, st1) ->
  send_to_email E now email_usernames cc bcc sender st
  = plan_result st1
      (email_plan E (st_self st1) (st_test_mode st1) email_usernames cc bcc
                  sender (st_heap st1)).
Proof.
  intros H. unfold send_to_email. rewrite (bind_run _ _ _ _ _ H).
  cbn [negb]. unfold email_plan, plan_result.
  unfold bind at 1. rewrite normalize_run.
  destruct (convert_opt email_step email_usernames (st_heap st1))
    as [h1 [e|ea]]; [reflexivity|]. cbn [fst snd].
  unfold bind at 1. rewrite normalize_run. cbn [set_heap st_heap].
  destruct (convert_opt email_step cc h1) as [h2 [e|cc']]; [reflexivity|].
  cbn [fst snd].
  unfold bind at 1. rewrite normalize_run. cbn [set_heap st_heap].
  destruct (convert_opt email_step bcc h2) as [h3 [e|bcc']]; [reflexivity|].
  cbn [fst snd st_self st_test_mode st_trace].
  change (mkState (st_self st1) h3 (st_test_mode st1) (st_trace st1))
    with (set_heap st1 h3).
  rewrite (bind_run _ _ _ _ _ (get_self_run _)).
  unfold bind at 1. rewrite read_opt_run. cbn [set_heap st_heap].
  destruct (heap_read h3 ea) as [e|to] eqn:Hto.
  { reflexivity. }
  unfold bind at 1. rewrite read_opt_run. cbn [set_heap st_heap].
  destruct (heap_read h3 cc') as [e|ccs] eqn:Hcc.
  { reflexivity. }
  unfold bind at 1. rewrite read_opt_run. cbn [set_heap st_heap].
  destruct (heap_read h3 bcc') as [e|bccs] eqn:Hbcc.
  { reflexivity. }
  change (mkState (st_self st1) h3 (st_test_mode st1) (st_trace st1))
    with (set_heap st1 h3).
  erewrite bind_run by reflexivity.
  cbn [set_heap st_test_mode]. unfold email_events, return_self.
  destruct (st_test_mode st1).
  - erewrite bind_run by (apply logging_log_run). reflexivity.
  - erewrite bind_run
      by (apply (delivery_run E ea cc' bcc' sender to ccs bccs); assumption).
    reflexivity.
Qed.

Lemma send_to_pagerduty_passed (now : Q) (pagerduty_servicenames : names)
    (st st1 : state) :
  _passed_rate_limit now "pagerduty" st = (inr true, st1) ->
  send_to_pagerduty E now pagerduty_servicenames st
  = plan_result st1
      (pagerduty_plan E (st_self st1) (st_test_mode st1)
                      pagerduty_servicenames (st_heap st1)).
Proof.
  intros H. unfold send_to_pagerduty. rewrite (bind_run _ _ _ _ _ H).
  cbn [negb]. unfold pagerduty_plan, plan_result.
  unfold bind at 1. rewrite service_name_to_email_run.
  destruct (convert_arg pagerduty_step pagerduty_servicenames (st_heap st1))
    as [h1 [e|l]]; [reflexivity|]. cbn [fst snd].
  rewrite (bind_run _ _ _ _ _ (get_self_run _)).
  unfold bind at 1. unfold list_read at 1. cbn [set_heap st_heap st_self].
  destruct (h1 !! l) as [to|] eqn:Hto; [|reflexivity].
  change (mkState (st_self st1) h1 (st_test_mode st1) (st_trace st1))
    with (set_heap st1 h1).
  erewrite bind_run by reflexivity.
  cbn [set_heap st_test_mode]. unfold pagerduty_events, return_self.
  destruct (st_test_mode st1).
  - erewrite bind_run by (apply logging_log_run). reflexivity.
  - erewrite bind_run
      by (apply (delivery_run E (Some l) None None None (Some to) None None);
          cbn; rewrite ?Hto; reflexivity).
    reflexivity.
Qed.

End Plans.

(** ** Failures stay inside the dispatchers *)

Lemma after_check_run (now : Q) (name : string) (st : state) :
  exists b, _passed_rate_limit now name st = (inr b, after_check now name st).
Proof.
  destruct (passed_rate_limit_frame now name st) as (b & ls & H).
  exists b. unfold after_check. now rewrite H.
Qed.

Lemma after_check_frame (now : Q) (name : string) (st : state) :
  exists ls,
    after_check now name st
    = mkState (with_last_sent (st_self st) ls) (st_heap st)
              (st_test_mode st) (st_trace st).
Proof.
  destruct (passed_rate_limit_frame now name st) as (b & ls & H).
  exists ls. unfold after_check. now rewrite H.
Qed.

Lemma after_check_heap (now : Q) (name : string) (st : state) :
  st_heap (after_check now name st) = st_heap st.
Proof. destruct (after_check_frame now name st) as [ls ->]. reflexivity. Qed.

Lemma after_check_test_mode (now : Q) (name : string) (st : state) :
  st_test_mode (after_check now name st) = st_test_mode st.
Proof. destruct (after_check_frame now name st) as [ls ->]. reflexivity. Qed.

Lemma after_check_trace (now : Q) (name : string) (st : state) :
  st_trace (after_check now name st) = st_trace st.
Proof. destruct (after_check_frame now name st) as [ls ->]. reflexivity. Qed.

Lemma logs_failure_refl (why : exn) (level : Z) (fmt : string)
    (args : list pyval) :
  level = logging.ERROR -> last args = Some (VExn why) ->
  logs_failure why (Log level (VFmt fmt args)) = true.
Proof.
  intros -> Hl. cbn. rewrite Hl. now rewrite bool_decide_eq_true_2.
Qed.

Section Failures.

Variable E : env.






End Failures.

(** *** What the conversions can raise *)

Lemma convert_list_error (step : ustring -> exn + ustring)
    (xs : list ustring) (e : exn) :
  snd (convert_list step xs) = Some e -> exists x, x ∈ xs /\ step x = inl e.
Proof.
  induction xs as [|x xs IH]; cbn; [discriminate|].
  destruct (step x) as [e'|y] eqn:Hx; cbn.
  - intros [= ->]. exists x. split; [left | exact Hx].
  - intros H. destruct (IH H) as (x' & Hin & Hx'). exists x'.
    split; [now right | exact Hx'].
Qed.

Lemma convert_list_ok (step : ustring -> exn + ustring) (xs : list ustring) :
  (forall x, x ∈ xs -> exists y, step x = inr y) ->
  snd (convert_list step xs) = None.
Proof.
  intros Hok. destruct (snd (convert_list step xs)) as [e|] eqn:He;
    [|reflexivity].
  destruct (convert_list_error _ _ _ He) as (x & Hin & Hx).
  destruct (Hok x Hin) as [y Hy]. congruence.
Qed.


Lemma pagerduty_step_error (x : ustring) (e : exn) :
  pagerduty_step x = inl e ->
  e = ValueError "Specify PagerDuty service names, not addresses (%s)" x
  /\ contains at_sign x = true.
Proof.
  unfold pagerduty_step. destruct (contains at_sign x); [|discriminate].
  now intros [= <-].
Qed.

Lemma convert_arg_error (step : ustring -> exn + ustring) (arg : names)
    (h : list (list ustring)) (e : exn) :
  valid_names h arg -> snd (convert_arg step arg h) = inl e ->
  exists x, x ∈ arg_strings h arg /\ step x = inl e.
Proof.
  unfold convert_arg, arg_strings. destruct arg as [s|l]; cbn [valid_names].
  - intros _. cbn [snd].
    destruct (snd (convert_list step [s])) as [e'|] eqn:He; [|discriminate].
    intros [= ->]. now apply convert_list_error.
  - intros [xs Hxs]. rewrite Hxs. cbn [snd default from_option id].
    destruct (snd (convert_list step xs)) as [e'|] eqn:He; [|discriminate].
    intros [= ->]. now apply convert_list_error.
Qed.

Lemma convert_list_length (step : ustring -> exn + ustring)
    (xs : list ustring) :
  length (fst (convert_list step xs)) = length xs.
Proof.
  induction xs as [|x xs IH]; cbn; [reflexivity|].
  destruct (step x); cbn; congruence.
Qed.

Lemma convert_arg_preserves (step : ustring -> exn + ustring) (arg : names)
    (h : list (list ustring)) (l : nat) :
  is_Some (h !! l) -> is_Some (fst (convert_arg step arg h) !! l).
Proof.
  intros Hl. apply lookup_lt_is_Some in Hl. apply lookup_lt_is_Some.
  unfold convert_arg. destruct arg as [s|l']; cbn [fst].
  - rewrite length_app. lia.
  - destruct (h !! l'); cbn [fst]; [|exact Hl]. now rewrite length_insert.
Qed.

Lemma convert_arg_result (step : ustring -> exn + ustring) (arg : names)
    (h : list (list ustring)) (l : nat) :
  snd (convert_arg step arg h) = inr l ->
  is_Some (fst (convert_arg step arg h) !! l).
Proof.
  unfold convert_arg. destruct arg as [s|l']; cbn [fst snd].
  - destruct (snd (convert_list step [s])); [discriminate|]. intros [= <-].
    rewrite lookup_app_r, Nat.sub_diag by lia. cbn. eauto.
  - destruct (h !! l') as [xs|] eqn:Hl'; cbn [fst snd]; [|discriminate].
    destruct (snd (convert_list step xs)); [discriminate|]. intros [= <-].
    apply lookup_lt_is_Some. rewrite length_insert.
    now apply lookup_lt_Some in Hl'.
Qed.

Lemma readable_Some (h : list (list ustring)) (l : nat) :
  readable h (Some l) <-> is_Some (h !! l).
Proof.
  unfold readable. cbn. split.
  - intros [v Hv]. destruct (h !! l); [eauto | discriminate].
  - intros [xs ->]. eauto.
Qed.

Lemma convert_opt_preserves (step : ustring -> exn + ustring)
    (arg : option names) (h : list (list ustring)) (o : option nat) :
  readable h o -> readable (fst (convert_opt step arg h)) o.
Proof.
  destruct arg as [a|]; [|auto]. cbn [convert_opt fst].
  destruct o as [l|]; [|intros _; now exists None].
  rewrite !readable_Some. apply convert_arg_preserves.
Qed.

Lemma convert_opt_result (step : ustring -> exn + ustring)
    (arg : option names) (h : list (list ustring)) (o : option nat) :
  snd (convert_opt step arg h) = inr o ->
  readable (fst (convert_opt step arg h)) o.
Proof.
  destruct arg as [a|]; cbn [convert_opt fst snd].
  - destruct (snd (convert_arg step a h)) as [e|l] eqn:Ha; [discriminate|].
    intros [= <-]. apply readable_Some. now apply convert_arg_result.
  - intros [= <-]. now exists None.
Qed.

Lemma convert_opt_valid (step : ustring -> exn + ustring)
    (arg arg' : option names) (h : list (list ustring)) :
  valid_arg h arg' -> valid_arg (fst (convert_opt step arg h)) arg'.
Proof.
  destruct arg as [a|]; [|auto]. cbn [convert_opt fst].
  destruct arg' as [[s|l]|]; cbn; auto. apply convert_arg_preserves.
Qed.

Lemma convert_opt_error (step : ustring -> exn + ustring)
    (arg : option names) (h : list (list ustring)) (e : exn) :
  valid_arg h arg -> snd (convert_opt step arg h) = inl e ->
  exists a x, arg = Some a /\ x ∈ arg_strings h a /\ step x = inl e.
Proof.
  destruct arg as [a|]; cbn [convert_opt valid_arg snd]; [|discriminate].
  intros Hv. destruct (snd (convert_arg step a h)) as [e'|l] eqn:Ha;
    [|discriminate].
  intros [= ->]. destruct (convert_arg_error _ _ _ _ Hv Ha) as (x & Hin & Hx).
  eauto.
Qed.

(** A plan of [send_to_email] ends in a refusal by [email_step] or in the
    events of the email. *)
Lemma email_plan_cases (E : env) (self : Alert) (test_mode : bool)
    (email_usernames cc bcc : option names) (sender : option ustring)
    (h : list (list ustring)) :
  valid_arg h email_usernames -> valid_arg h cc -> valid_arg h bcc ->
  match snd (email_plan E self test_mode email_usernames cc bcc sender h) with
  | inl e => exists x, email_step x = inl e
  | inr evs =>
      exists to ccs bccs,
        evs = email_events E self test_mode sender to ccs bccs
  end.
Proof.
  intros Hu Hcc Hbcc. unfold email_plan.
  destruct (convert_opt email_step email_usernames h) as [h1 r1] eqn:H1.
  pose proof (convert_opt_valid email_step email_usernames cc h Hcc) as Hcc1.
  pose proof (convert_opt_valid email_step email_usernames bcc h Hbcc) as Hbcc1.
  pose proof (convert_opt_error email_step email_usernames h) as He1.
  pose proof (convert_opt_result email_step email_usernames h) as Hr1.
  rewrite H1 in Hcc1, Hbcc1, He1, Hr1. cbn [fst snd] in *.
  destruct r1 as [e|ea].
  { destruct (He1 e Hu eq_refl) as (a & x & _ & _ & Hx). cbn. eauto. }
  specialize (Hr1 ea eq_refl).
  destruct (convert_opt email_step cc h1) as [h2 r2] eqn:H2.
  pose proof (convert_opt_valid email_step cc bcc h1 Hbcc1) as Hbcc2.
  pose proof (convert_opt_error email_step cc h1) as He2.
  pose proof (convert_opt_result email_step cc h1) as Hr2.
  pose proof (convert_opt_preserves email_step cc h1 ea Hr1) as Hea2.
  rewrite H2 in Hbcc2, He2, Hr2, Hea2. cbn [fst snd] in *.
  destruct r2 as [e|cc'].
  { destruct (He2 e Hcc1 eq_refl) as (a & x & _ & _ & Hx). cbn. eauto. }
  specialize (Hr2 cc' eq_refl).
  destruct (convert_opt email_step bcc h2) as [h3 r3] eqn:H3.
  pose proof (convert_opt_error email_step bcc h2) as He3.
  pose proof (convert_opt_result email_step bcc h2) as Hr3.
  pose proof (convert_opt_preserves email_step bcc h2 ea Hea2) as Hea3.
  pose proof (convert_opt_preserves email_step bcc h2 cc' Hr2) as Hcc3.
  rewrite H3 in He3, Hr3, Hea3, Hcc3. cbn [fst snd] in *.
  destruct r3 as [e|bcc'].
  { destruct (He3 e Hbcc2 eq_refl) as (a & x & _ & _ & Hx). cbn. eauto. }
  specialize (Hr3 bcc' eq_refl).
  destruct Hea3 as [to ->], Hcc3 as [ccs ->], Hr3 as [bccs ->].
  cbn. eauto.
Qed.

Lemma pagerduty_plan_cases (E : env) (self : Alert) (test_mode : bool)
    (pagerduty_servicenames : names) (h : list (list ustring)) :
  valid_names h pagerduty_servicenames ->
  match snd (pagerduty_plan E self test_mode pagerduty_servicenames h) with
  | inl e => exists x, pagerduty_step x = inl e
  | inr evs => exists to, evs = pagerduty_events E self test_mode to
  end.
Proof.
  intros Hv. unfold pagerduty_plan.
  destruct (convert_arg pagerduty_step pagerduty_servicenames h)
    as [h1 r1] eqn:H1.
  pose proof (convert_arg_error pagerduty_step pagerduty_servicenames h) as He.
  pose proof (convert_arg_result pagerduty_step pagerduty_servicenames h)
    as Hr.
  rewrite H1 in He, Hr. cbn [fst snd] in *.
  destruct r1 as [e|l].
  { destruct (He e Hv eq_refl) as (x & _ & Hx). cbn. eauto. }
  destruct (Hr l eq_refl) as [to ->]. cbn. eauto.
Qed.





(** With every service down, the email dispatch still returns the alert:
    both deliveries are tried and the failure is logged. *)
Example send_to_email_all_down :
  let self := Alert_init (u "Disk full") None logging.ERROR false None in
  let st := mkState self [[u "ops"]] false [] in
  exists gae smtp msg,
    send_to_email E_down 5 (Some (NList 0%nat)) None None None st
    = (inr self,
       mkState self [[u "ops@khanacademy.org"]] false
               [GaeSendMail gae; Sendmail smtp; Log logging.ERROR msg]).
Proof. cbv zeta. eexists _, _, _. vm_compute. reflexivity. Qed.

(** A refused recipient is the one failure that reaches the caller. *)
Example send_to_email_refused :
  let self := Alert_init (u "Disk full") None logging.ERROR false None in
  let st := mkState self [[u "ops@example.com"]] false [] in
  send_to_email E_up 5 (Some (NList 0%nat)) None None None st
  = (inl (ValueError "Specify email usernames, not addresses (%s)"
                     (u "ops@example.com")), st).
Proof. vm_compute. reflexivity. Qed.

(** ** HipChat: the preliminary message *)

(** C6 (as amended): a [send_to_hipchat] that the rate limiter lets
    through sends the explicit summary, when there is one and it is not
    empty, as a message of its own before the message body, with a pause
    of one second after it outside test mode; without such a summary it
    sends the body alone, whatever summary could be derived. *)
Theorem hipchat_summary_first (E : env) (now : Q) (room_name : ustring)
    (color : option ustring) (notify : option bool) (sender : ustring)
    (st st1 : state) :
  _passed_rate_limit now "hipchat" st = (inr true, st1) ->
  (forall s, summary (st_self st1) = Some s -> s <> [] ->
     st_test_mode st1 = false ->
     send_to_hipchat E now room_name color notify sender st
     = (inr (st_self st1),
        add_trace st1
          (post_events E (summary_post (st_self st1) room_name color sender s)
           ++ [Sleep 1]
           ++ post_events E
                (body_post (st_self st1) room_name color notify sender))))
  /\ (forall s, summary (st_self st1) = Some s -> s <> [] ->
      st_test_mode st1 = true ->
      send_to_hipchat E now room_name color notify sender st
      = (inr (st_self st1),
         add_trace st1
           [would_send_to_hipchat room_name s;
            would_send_to_hipchat room_name
              (take (Z.to_nat 9000) (message (st_self st1)))]))
  /\ (summary (st_self st1) = None \/ summary (st_self st1) = Some [] ->
      send_to_hipchat E now room_name color notify sender st
      = (inr (st_self st1),
         add_trace st1
           (if st_test_mode st1
            then [would_send_to_hipchat room_name
                    (take (Z.to_nat 9000) (message (st_self st1)))]
            else post_events E
                   (body_post (st_self st1) room_name color notify sender)))).
Proof.
  intros Hpass. rewrite (send_to_hipchat_passed E _ _ _ _ _ _ _ Hpass).
  unfold hipchat_events. repeat split.
  - intros s Hs Hne Hmode. rewrite Hs, Hmode.
    destruct s; [congruence|]. cbn [truthy_text default from_option id].
    now rewrite <- app_assoc.
  - intros s Hs Hne Hmode. rewrite Hs, Hmode.
    destruct s; [congruence|]. reflexivity.
  - intros [Hs|Hs]; rewrite Hs; reflexivity.
Qed.

Lemma hipchat_summary_first_witness :
  let self := Alert_init (u "Disk full. Call ops") (Some (u "Disk full"))
                         logging.ERROR false None in
  let st := mkState self [] false [] in
  send_to_hipchat E_up 5 (u "ops") None None (u "AlertiGator") st
  = (inr self,
     add_trace st
       (post_events E_up
          (summary_post self (u "ops") None (u "AlertiGator") (u "Disk full"))
        ++ [Sleep 1]
        ++ post_events E_up
             (body_post self (u "ops") None None (u "AlertiGator")))).
Proof.
  cbv zeta.
  set (st := mkState _ _ _ _).
  refine (proj1 (hipchat_summary_first E_up 5 (u "ops") None None
                   (u "AlertiGator") st st _) (u "Disk full") _ _ _);
    [reflexivity | reflexivity | discriminate | reflexivity].
Defined.

(** C6 (as stated) fails: this alert has no explicit summary and its
    derived summary is not empty, yet [send_to_hipchat] makes one call
    only, the one that carries the message body.  And a call that the
    rate limiter denies sends nothing, explicit summary or not. *)
Lemma hipchat_derived_summary_counterexample :
  let self := Alert_init (u "Disk full. Call ops") None logging.ERROR false
                         None in
  let st := mkState self [] false [] in
  let limited := with_last_sent
                   (Alert_init (u "Disk full. Call ops")
                               (Some (u "Disk full")) logging.ERROR false
                               (Some 60%Q))
                   {[ "hipchat" := 100%Q ]} in
  let st' := mkState limited [] false [] in
  summary self = None
  /\ _get_summary self = u "ERROR: Disk full"
  /\ send_to_hipchat E_up 5 (u "ops") None None (u "AlertiGator") st
     = (inr self,
        add_trace st
          [HipchatCall (u "token")
             (mkPost (u "ops") (u "AlertiGator") (u "Disk full. Call ops")
                     (u "text") 0 (u "red"))])
  /\ send_to_hipchat E_up 110 (u "ops") None None (u "AlertiGator") st'
     = (inr limited, st').
Proof. cbv zeta. repeat split; vm_compute; reflexivity. Qed.

(** ** Test mode *)

Lemma enter_test_mode_run (st : state) :
  enter_test_mode st
  = (inr tt, mkState (st_self st) (st_heap st) true (st_trace st)).
Proof. reflexivity. Qed.

Lemma exit_test_mode_run (st : state) :
  exit_test_mode st
  = (inr tt, mkState (st_self st) (st_heap st) false (st_trace st)).
Proof. reflexivity. Qed.





(** ** Recipients and service names *)

Lemma email_step_spec (x : ustring) :
  email_step x
  = if bad_recipient x
    then inl (ValueError "Specify email usernames, not addresses (%s)" x)
    else inr (normalize_one x).
Proof.
  unfold email_step, bad_recipient, normalize_one.
  destruct (endswith x khanacademy_org), (contains at_sign x); reflexivity.
Qed.

Lemma pagerduty_step_spec (x : ustring) :
  pagerduty_step x
  = if contains at_sign x
    then inl (ValueError
                "Specify PagerDuty service names, not addresses (%s)" x)
    else inr (service_email x).
Proof. reflexivity. Qed.

Lemma contains_true (c : uchar) (s : ustring) :
  contains c s = true <-> c ∈ s.
Proof.
  unfold contains. rewrite existsb_exists. split.
  - intros (x & Hin & Hx). apply N.eqb_eq in Hx. subst.
    now apply list_elem_of_In.
  - intros Hin. exists c. split; [now apply list_elem_of_In | apply N.eqb_refl].
Qed.

Lemma endswith_true (s suf : ustring) :
  endswith s suf = true <-> exists pre, s = pre ++ suf.
Proof.
  unfold endswith. rewrite andb_true_iff, Nat.leb_le, bool_decide_eq_true.
  split.
  - intros [Hlen Hdrop]. exists (take (length s - length suf) s).
    rewrite <- Hdrop at 2. now rewrite take_drop.
  - intros [pre ->]. rewrite length_app. split; [lia|].
    replace (length pre + length suf - length suf)%nat with (length pre)
      by lia.
    now rewrite drop_app_length.
Qed.

Lemma endswith_app (x suf : ustring) : endswith (x ++ suf) suf = true.
Proof. apply endswith_true. now exists x. Qed.

(** A string without ['@'] does not end in [@khanacademy.org]. *)
Lemma bare_not_suffixed (x : ustring) :
  contains at_sign x = false -> endswith x khanacademy_org = false.
Proof.
  intros Hat. destruct (endswith x khanacademy_org) eqn:He; [|reflexivity].
  apply endswith_true in He as [pre ->].
  assert (H : contains at_sign (pre ++ khanacademy_org) = true).
  { apply contains_true. apply elem_of_app. right. now left. }
  congruence.
Qed.

Lemma normalize_one_good (x : ustring) : bad_recipient (normalize_one x) = false.
Proof.
  unfold bad_recipient, normalize_one.
  destruct (endswith x khanacademy_org) eqn:He.
  - now rewrite He.
  - now rewrite endswith_app.
Qed.

Lemma normalize_one_idem (x : ustring) :
  normalize_one (normalize_one x) = normalize_one x.
Proof.
  unfold normalize_one at 1.
  assert (H : endswith (normalize_one x) khanacademy_org = true).
  { unfold normalize_one. destruct (endswith x khanacademy_org) eqn:He;
      [exact He | apply endswith_app]. }
  now rewrite H.
Qed.

Lemma convert_list_good (step : ustring -> exn + ustring)
    (f : ustring -> ustring) (xs : list ustring) :
  (forall x, x ∈ xs -> step x = inr (f x)) ->
  convert_list step xs = (f <$> xs, None).
Proof.
  induction xs as [|x xs IH]; intros Hok; [reflexivity|]. cbn.
  rewrite (Hok x) by left. rewrite IH by (intros y Hy; apply Hok; now right).
  reflexivity.
Qed.

(** The loop stops at the first element that is refused: the elements
    before it are converted, the others are left as they were. *)
Lemma convert_list_stops (step : ustring -> exn + ustring)
    (f : ustring -> ustring) (good rest : list ustring) (x : ustring)
    (e : exn) :
  (forall y, y ∈ good -> step y = inr (f y)) -> step x = inl e ->
  convert_list step (good ++ x :: rest)
  = ((f <$> good) ++ x :: rest, Some e).
Proof.
  intros Hgood Hx. induction good as [|y good IH]; cbn.
  - now rewrite Hx.
  - rewrite (Hgood y) by left.
    rewrite IH by (intros z Hz; apply Hgood; now right). reflexivity.
Qed.

Lemma convert_list_refuses (step : ustring -> exn + ustring)
    (xs : list ustring) (x : ustring) (e : exn) :
  x ∈ xs -> step x = inl e -> exists e', snd (convert_list step xs) = Some e'.
Proof.
  intros Hin Hx. induction xs as [|y xs IH]; [inversion Hin|]. cbn.
  destruct (step y) as [e'|y'] eqn:Hy; cbn; [eauto|].
  apply IH. inversion Hin; subst; [congruence | assumption].
Qed.

Lemma convert_arg_refuses (step : ustring -> exn + ustring) (arg : names)
    (h : list (list ustring)) (x : ustring) (e : exn) :
  x ∈ arg_strings h arg -> step x = inl e ->
  exists e', snd (convert_arg step arg h) = inl e'.
Proof.
  unfold convert_arg, arg_strings. destruct arg as [s|l].
  - intros Hin Hx. cbn [snd].
    destruct (convert_list_refuses step [s] x e Hin Hx) as [e' ->]. eauto.
  - destruct (h !! l) as [xs|]; cbn [snd default from_option id].
    + intros Hin Hx.
      destruct (convert_list_refuses step xs x e Hin Hx) as [e' ->]. eauto.
    + intros Hin. inversion Hin.
Qed.

Lemma convert_arg_good (step : ustring -> exn + ustring)
    (f : ustring -> ustring) (arg : names) (h : list (list ustring)) :
  valid_names h arg ->
  (forall x, x ∈ arg_strings h arg -> step x = inr (f x)) ->
  convert_arg step arg h = (converted f arg h, inr (ref_of arg h)).
Proof.
  unfold convert_arg, converted, arg_strings, ref_of.
  destruct arg as [s|l]; cbn [valid_names].
  - intros _ Hok. now rewrite (convert_list_good step f [s] Hok).
  - intros [xs Hxs]. rewrite Hxs. cbn [default from_option id]. intros Hok.
    now rewrite (convert_list_good step f xs Hok).
Qed.

Lemma converted_lookup (f : ustring -> ustring) (arg : names)
    (h : list (list ustring)) :
  valid_names h arg ->
  converted f arg h !! ref_of arg h = Some (f <$> arg_strings h arg).
Proof.
  unfold converted, ref_of, arg_strings. destruct arg as [s|l]; cbn.
  - intros _. now rewrite lookup_app_r, Nat.sub_diag by lia.
  - intros [xs Hxs]. rewrite Hxs. cbn.
    apply list_lookup_insert_eq. now apply lookup_lt_Some in Hxs.
Qed.

(** The lists of the heap that the conversion of [arg] leaves alone. *)
Lemma converted_other (f : ustring -> ustring) (arg : names)
    (h : list (list ustring)) (l : nat) :
  (l < length h)%nat -> l <> ref_of arg h ->
  converted f arg h !! l = h !! l.
Proof.
  unfold converted, ref_of. destruct arg as [s|l']; intros Hl Hne.
  - now apply lookup_app_l.
  - now apply list_lookup_insert_ne.
Qed.

Section Pagerduty_names.

Variable E : env.

Lemma pagerduty_plan_good (self : Alert) (test_mode : bool) (arg : names)
    (h : list (list ustring)) :
  valid_names h arg ->
  (forall x, x ∈ arg_strings h arg -> contains at_sign x = false) ->
  pagerduty_plan E self test_mode arg h
  = (converted service_email arg h,
     inr (pagerduty_events E self test_mode
            (service_email <$> arg_strings h arg))).
Proof.
  intros Hv Hok. unfold pagerduty_plan.
  rewrite (convert_arg_good pagerduty_step service_email arg h Hv).
  - now rewrite (converted_lookup _ _ _ Hv).
  - intros x Hx. rewrite pagerduty_step_spec. now rewrite (Hok x Hx).
Qed.

Lemma pagerduty_plan_refuses (self : Alert) (test_mode : bool) (arg : names)
    (h : list (list ustring)) (x : ustring) :
  valid_names h arg ->
  x ∈ arg_strings h arg -> contains at_sign x = true ->
  exists y,
    snd (pagerduty_plan E self test_mode arg h)
    = inl (ValueError
             "Specify PagerDuty service names, not addresses (%s)" y)
    /\ y ∈ arg_strings h arg /\ contains at_sign y = true.
Proof.
  intros Hv Hin Hat. unfold pagerduty_plan.
  destruct (convert_arg_refuses pagerduty_step arg h x
              (ValueError
                 "Specify PagerDuty service names, not addresses (%s)" x)
              Hin) as [e He].
  { rewrite pagerduty_step_spec. now rewrite Hat. }
  destruct (convert_arg pagerduty_step arg h) as [h1 r1] eqn:H1.
  cbn [snd] in He. subst r1. cbn [snd].
  pose proof (convert_arg_error pagerduty_step arg h e Hv) as Herr.
  rewrite H1 in Herr. destruct (Herr eq_refl) as (y & Hy & Hstep).
  apply pagerduty_step_error in Hstep as (-> & Hyat). eauto.
Qed.

End Pagerduty_names.

Lemma pagerduty_legal_spec (c : uchar) :
  pagerduty_legal c = true
  <-> (N_of_ascii "A" <= c <= N_of_ascii "Z")%N
      \/ (N_of_ascii "a" <= c <= N_of_ascii "z")%N
      \/ (N_of_ascii "0" <= c <= N_of_ascii "9")%N
      \/ c = N_of_ascii "." \/ c = N_of_ascii "_" \/ c = N_of_ascii "-".
Proof.
  unfold pagerduty_legal. cbn [N_of_ascii N_of_digits].
  rewrite !orb_true_iff, !andb_true_iff, !N.leb_le, !N.eqb_eq. cbn. lia.
Qed.

Lemma lower_char_spec (c : uchar) :
  lower_char c
  = if ((N_of_ascii "A" <=? c) && (c <=? N_of_ascii "Z"))%N
    then (c + (N_of_ascii "a" - N_of_ascii "A"))%N else c.
Proof. reflexivity. Qed.

(** C8 (as amended): on a [send_to_pagerduty] that the rate limiter lets
    through, a service name that contains ['@'] makes the call raise a
    [ValueError]; otherwise every name is converted by dropping the
    characters other than letters, digits, ['.'], ['_'] and ['-'],
    lowering the case and appending [@khan-academy.pagerduty.com], and the
    mail goes to the converted names; ["API-Team!!"] becomes
    ["api-team@khan-academy.pagerduty.com"]. *)
Theorem service_names_converted :
  (forall (E : env) (now : Q) (pagerduty_servicenames : names)
          (st st1 : state),
      _passed_rate_limit now "pagerduty" st = (inr true, st1) ->
      valid_names (st_heap st) pagerduty_servicenames ->
      (forall x,
          x ∈ arg_strings (st_heap st) pagerduty_servicenames ->
          contains at_sign x = true ->
          raised_validation st1
            (send_to_pagerduty E now pagerduty_servicenames st))
      /\ ((forall x,
             x ∈ arg_strings (st_heap st) pagerduty_servicenames ->
             contains at_sign x = false) ->
          send_to_pagerduty E now pagerduty_servicenames st
          = (inr (st_self st1),
             add_trace
               (set_heap st1
                  (converted service_email pagerduty_servicenames
                             (st_heap st)))
               (pagerduty_events E (st_self st1) (st_test_mode st1)
                  (service_email
                     <$> arg_strings (st_heap st) pagerduty_servicenames)))))
  /\ (forall x : ustring,
      service_email x
      = lower (List.filter pagerduty_legal x) ++ pagerduty_com)
  /\ (forall c : uchar,
      pagerduty_legal c = true
      <-> (N_of_ascii "A" <= c <= N_of_ascii "Z")%N
          \/ (N_of_ascii "a" <= c <= N_of_ascii "z")%N
          \/ (N_of_ascii "0" <= c <= N_of_ascii "9")%N
          \/ c = N_of_ascii "." \/ c = N_of_ascii "_" \/ c = N_of_ascii "-")
  /\ service_email (u "API-Team!!") = u "api-team@khan-academy.pagerduty.com".
Proof.
  split; [|split; [|split]].
  - intros E now names st st1 Hpass Hv.
    assert (Hh : st_heap st1 = st_heap st).
    { pose proof (after_check_heap now "pagerduty" st) as Hh.
      unfold after_check in Hh. now rewrite Hpass in Hh. }
    rewrite (send_to_pagerduty_passed E _ _ _ _ Hpass), Hh.
    unfold plan_result. split.
    + intros x Hin Hat.
      destruct (pagerduty_plan_refuses E (st_self st1) (st_test_mode st1)
                  names (st_heap st) x Hv Hin Hat) as (y & -> & _ & Hy).
      eexists _, y, _. split; [reflexivity | exact Hy].
    + intros Hok. now rewrite (pagerduty_plan_good E _ _ _ _ Hv Hok).
  - reflexivity.
  - apply pagerduty_legal_spec.
  - reflexivity.
Qed.

Lemma service_names_converted_witness :
  let self := Alert_init (u "Disk full") None logging.ERROR false None in
  let st := mkState self [[u "API-Team!!"]] false [] in
  send_to_pagerduty E_up 5 (NList 0%nat) st
  = (inr self,
     add_trace
       (set_heap st [[u "api-team@khan-academy.pagerduty.com"]])
       (pagerduty_events E_up self false
          [u "api-team@khan-academy.pagerduty.com"])).
Proof.
  cbv zeta. set (st := mkState _ _ _ _).
  refine (proj2 (proj1 service_names_converted E_up 5%Q (NList 0%nat) st st
                   _ _) _).
  - reflexivity.
  - cbn. eauto.
  - intros x Hx. cbn in Hx. apply list_elem_of_singleton in Hx. now subst.
Defined.

(** C8 (as stated) fails on a call that the rate limiter denies: the name
    holds an ['@'], and the call returns the alert without any error. *)
Lemma pagerduty_rate_limited_counterexample :
  let self := with_last_sent
                (Alert_init (u "Disk full") None logging.ERROR false
                            (Some 60%Q))
                {[ "pagerduty" := 100%Q ]} in
  let st := mkState self [[u "ops@example.com"]] false [] in
  contains at_sign (u "ops@example.com") = true
  /\ send_to_pagerduty E_up 110 (NList 0%nat) st = (inr self, st).
Proof. cbv zeta. split; vm_compute; reflexivity. Qed.

(** *** The three arguments of [send_to_email] *)

Lemma normalize_list_idem (xs : list ustring) :
  normalize_one <$> (normalize_one <$> xs) = normalize_one <$> xs.
Proof.
  rewrite <- list_fmap_compose. apply list_fmap_ext.
  intros i x _. apply normalize_one_idem.
Qed.

Lemma normalized_from_refl (h : list (list ustring)) : normalized_from h h.
Proof. intros l xs H. now left. Qed.

Lemma normalized_from_trans (h h1 h2 : list (list ustring)) :
  normalized_from h h1 -> normalized_from h1 h2 -> normalized_from h h2.
Proof.
  intros H1 H2 l xs Hl. destruct (H1 l xs Hl) as [Hl1|Hl1].
  - exact (H2 l xs Hl1).
  - destruct (H2 l _ Hl1) as [Hl2|Hl2]; [now right|].
    right. now rewrite normalize_list_idem in Hl2.
Qed.

Lemma normalized_from_valid (h h' : list (list ustring))
    (arg : option names) :
  normalized_from h h' -> valid_arg h arg -> valid_arg h' arg.
Proof.
  intros Hn. destruct arg as [[s|l]|]; cbn; auto.
  intros [xs Hxs]. destruct (Hn l xs Hxs) as [->| ->]; eauto.
Qed.

Lemma normalized_from_recipients (h h' : list (list ustring))
    (arg : option names) :
  normalized_from h h' -> valid_arg h arg ->
  recipients h' arg = recipients h arg.
Proof.
  intros Hn. unfold recipients. destruct arg as [[s|l]|]; cbn; auto.
  intros [xs Hxs]. rewrite Hxs.
  destruct (Hn l xs Hxs) as [->| ->]; cbn; [reflexivity|].
  now rewrite normalize_list_idem.
Qed.

Lemma normalized_from_accepted (h h' : list (list ustring))
    (arg : option names) :
  normalized_from h h' -> valid_arg h arg ->
  all_accepted h arg -> all_accepted h' arg.
Proof.
  intros Hn Hv Hok a x -> Hx. destruct a as [s|l]; cbn in *.
  - now apply (Hok (NStr s) x).
  - destruct Hv as [xs Hxs]. specialize (Hok (NList l)). cbn in Hok.
    rewrite Hxs in Hok. destruct (Hn l xs Hxs) as [Hl|Hl];
      rewrite Hl in Hx; cbn in Hx.
    + now apply Hok.
    + apply list_elem_of_fmap in Hx as (y & -> & _).
      apply normalize_one_good.
Qed.

(** A list that is normalized stays as it is. *)
Lemma normalized_from_read (h h' : list (list ustring)) (o : option nat)
    (v : option (list ustring)) :
  normalized_from h h' ->
  heap_read h o = inr (fmap (M := list) normalize_one <$> v) ->
  heap_read h' o = inr (fmap (M := list) normalize_one <$> v).
Proof.
  intros Hn. destruct o as [l|]; cbn; [|auto].
  destruct (h !! l) as [xs|] eqn:Hl; [|discriminate].
  intros [= Hxs]. destruct v as [ys|]; [|discriminate].
  cbn in Hxs. injection Hxs as ->.
  destruct (Hn l _ Hl) as [->| ->]; cbn; [reflexivity|].
  now rewrite normalize_list_idem.
Qed.

(** One conversion by [_normalize] that refuses nothing. *)
Lemma convert_opt_good (arg : option names) (h : list (list ustring)) :
  valid_arg h arg -> all_accepted h arg ->
  exists h1 r,
    convert_opt email_step arg h = (h1, inr r)
    /\ heap_read h1 r = inr (recipients h arg)
    /\ normalized_from h h1
    /\ (forall l xs,
           arg = Some (NList l) -> h !! l = Some xs ->
           h1 !! l = Some (normalize_one <$> xs)).
Proof.
  intros Hv Hok. destruct arg as [a|].
  - cbn [convert_opt].
    rewrite (convert_arg_good email_step normalize_one a h Hv).
    2:{ intros x Hx. rewrite email_step_spec.
        now rewrite (Hok a x eq_refl Hx). }
    eexists _, _. split; [reflexivity|]. cbn [fst snd].
    split; [|split].
    + cbn. now rewrite (converted_lookup _ _ _ Hv).
    + intros l xs Hl. destruct (decide (l = ref_of a h)) as [->|Hne].
      * right. rewrite (converted_lookup _ _ _ Hv).
        destruct a as [s|l']; cbn in *.
        -- apply lookup_lt_Some in Hl. lia.
        -- now rewrite Hl.
      * left. rewrite converted_other; [exact Hl | | exact Hne].
        now apply lookup_lt_Some in Hl.
    + intros l xs [= ->] Hl.
      pose proof (converted_lookup normalize_one (NList l) h Hv) as H.
      cbn [ref_of arg_strings] in H. now rewrite Hl in H.
  - exists h, None. repeat split; [apply normalized_from_refl | discriminate].
Qed.

Section Email_recipients.

Variable E : env.

(** A [send_to_email] none of whose recipients is refused: the mail goes
    to the normalized recipients, and the lists of the caller hold
    them. *)
Lemma email_plan_good (self : Alert) (test_mode : bool)
    (email_usernames cc bcc : option names) (sender : option ustring)
    (h : list (list ustring)) :
  valid_arg h email_usernames -> valid_arg h cc -> valid_arg h bcc ->
  all_accepted h email_usernames -> all_accepted h cc ->
  all_accepted h bcc ->
  exists h3,
    email_plan E self test_mode email_usernames cc bcc sender h
    = (h3, inr (email_events E self test_mode sender
                  (recipients h email_usernames) (recipients h cc)
                  (recipients h bcc)))
    /\ normalized_from h h3
    /\ (forall arg l xs,
           arg ∈ [email_usernames; cc; bcc] ->
           arg = Some (NList l) -> h !! l = Some xs ->
           h3 !! l = Some (normalize_one <$> xs)).
Proof.
  intros Hvu Hvc Hvb Hu Hc Hb. unfold email_plan.
  destruct (convert_opt_good email_usernames h Hvu Hu)
    as (h1 & r1 & -> & Hr1 & Hn1 & Hl1).
  pose proof (normalized_from_valid _ _ _ Hn1 Hvc) as Hvc1.
  pose proof (normalized_from_valid _ _ _ Hn1 Hvb) as Hvb1.
  pose proof (normalized_from_accepted _ _ _ Hn1 Hvc Hc) as Hc1.
  pose proof (normalized_from_accepted _ _ _ Hn1 Hvb Hb) as Hb1.
  destruct (convert_opt_good cc h1 Hvc1 Hc1)
    as (h2 & r2 & -> & Hr2 & Hn2 & Hl2).
  pose proof (normalized_from_valid _ _ _ Hn2 Hvb1) as Hvb2.
  pose proof (normalized_from_accepted _ _ _ Hn2 Hvb1 Hb1) as Hb2.
  destruct (convert_opt_good bcc h2 Hvb2 Hb2)
    as (h3 & r3 & -> & Hr3 & Hn3 & Hl3).
  rewrite (normalized_from_recipients _ _ _ Hn1 Hvc) in Hr2.
  rewrite (normalized_from_recipients _ _ _ Hn2 Hvb1),
    (normalized_from_recipients _ _ _ Hn1 Hvb) in Hr3.
  pose proof (normalized_from_trans _ _ _ Hn2 Hn3) as Hn23.
  unfold recipients in *.
  rewrite (normalized_from_read _ _ _ _ Hn23 Hr1).
  rewrite (normalized_from_read _ _ _ _ Hn3 Hr2), Hr3.
  exists h3. split; [reflexivity|].
  pose proof (normalized_from_trans _ _ _ Hn1 Hn23) as Hn.
  split; [exact Hn|].
  assert (Hkeep : forall h' l (xs : list ustring),
             normalized_from h' h3 ->
             h' !! l = Some (normalize_one <$> xs) ->
             h3 !! l = Some (normalize_one <$> xs)).
  { intros h' l xs Hn' Hl. destruct (Hn' l _ Hl) as [->| ->];
      [reflexivity|]. now rewrite normalize_list_idem. }
  assert (Hfrom : forall h' l (xs : list ustring),
             normalized_from h h' -> h !! l = Some xs ->
             exists ys, h' !! l = Some ys
                        /\ normalize_one <$> ys = normalize_one <$> xs).
  { intros h' l xs Hn' Hl. destruct (Hn' l xs Hl) as [Hl'|Hl'];
      eexists; (split; [exact Hl'|]);
      [reflexivity | apply normalize_list_idem]. }
  intros arg l xs Harg -> Hl.
  repeat (apply elem_of_cons in Harg as [Harg|Harg]).
  - apply (Hkeep h1); [exact Hn23|]. now apply Hl1.
  - destruct (Hfrom h1 l xs Hn1 Hl) as (ys & Hys & <-).
    apply (Hkeep h2); [exact Hn3|]. now apply Hl2.
  - destruct (Hfrom h2 l xs (normalized_from_trans _ _ _ Hn1 Hn2) Hl)
      as (ys & Hys & <-).
    now apply Hl3.
  - inversion Harg.
Qed.

End Email_recipients.

Lemma accepted_or_refused (h : list (list ustring)) (arg : option names) :
  all_accepted h arg \/ has_refused h arg.
Proof.
  destruct arg as [a|]; [|left; intros a x [=]].
  destruct (existsb bad_recipient (arg_strings h a)) eqn:Hex.
  - right. apply existsb_exists in Hex as (x & Hin & Hx).
    exists a, x. repeat split; [now apply list_elem_of_In | exact Hx].
  - left. intros a' x [= <-] Hin.
    destruct (bad_recipient x) eqn:Hx; [|reflexivity].
    assert (existsb bad_recipient (arg_strings h a) = true); [|congruence].
    apply existsb_exists. exists x. split; [now apply list_elem_of_In | exact Hx].
Qed.

Lemma bad_recipient_refused (x : ustring) :
  bad_recipient x = true ->
  email_step x
  = inl (ValueError "Specify email usernames, not addresses (%s)" x).
Proof. intros H. rewrite email_step_spec. now rewrite H. Qed.

Lemma email_step_error_bad (x : ustring) (e : exn) :
  email_step x = inl e ->
  e = ValueError "Specify email usernames, not addresses (%s)" x
  /\ bad_recipient x = true.
Proof.
  rewrite email_step_spec. destruct (bad_recipient x); [|discriminate].
  now intros [= <-].
Qed.

Lemma convert_opt_refuses (arg : option names) (h : list (list ustring)) :
  valid_arg h arg -> has_refused h arg ->
  exists y,
    snd (convert_opt email_step arg h)
    = inl (ValueError "Specify email usernames, not addresses (%s)" y)
    /\ bad_recipient y = true.
Proof.
  intros Hv (a & x & -> & Hin & Hx). cbn [convert_opt snd valid_arg] in *.
  destruct (convert_arg_refuses email_step a h x _ Hin
              (bad_recipient_refused x Hx)) as [e He].
  rewrite He.
  destruct (convert_arg_error email_step a h e Hv He) as (y & _ & Hy).
  apply email_step_error_bad in Hy as (-> & Hy). eauto.
Qed.

(** The refused strings of an argument are still there once another
    argument, which has none, is converted. *)
Lemma refused_persists (arg arg' : option names)
    (h : list (list ustring)) :
  valid_arg h arg -> all_accepted h arg -> has_refused h arg' ->
  has_refused (fst (convert_opt email_step arg h)) arg'.
Proof.
  intros Hv Hok (a' & x & -> & Hin & Hx). exists a', x.
  split; [reflexivity|]. split; [|exact Hx].
  destruct a' as [s|l]; [exact Hin|]. cbn [arg_strings] in *.
  destruct (h !! l) as [xs|] eqn:Hl; [|inversion Hin]. cbn in Hin.
  destruct arg as [a|]; cbn [convert_opt fst]; [|now rewrite Hl].
  rewrite (convert_arg_good email_step normalize_one a h Hv).
  2:{ intros y Hy. rewrite email_step_spec.
      now rewrite (Hok a y eq_refl Hy). }
  cbn [fst]. destruct (decide (l = ref_of a h)) as [->|Hne].
  - destruct a as [s|l']; cbn in *.
    + apply lookup_lt_Some in Hl. lia.
    + specialize (Hok (NList l') x eq_refl). cbn in Hok. rewrite Hl in Hok.
      specialize (Hok Hin). congruence.
  - rewrite converted_other; [now rewrite Hl | | exact Hne].
    now apply lookup_lt_Some in Hl.
Qed.

Section Email_refusals.

Variable E : env.

Lemma email_plan_refuses (self : Alert) (test_mode : bool)
    (email_usernames cc bcc : option names) (sender : option ustring)
    (h : list (list ustring)) :
  valid_arg h email_usernames -> valid_arg h cc -> valid_arg h bcc ->
  has_refused h email_usernames \/ has_refused h cc \/ has_refused h bcc ->
  exists y,
    snd (email_plan E self test_mode email_usernames cc bcc sender h)
    = inl (ValueError "Specify email usernames, not addresses (%s)" y)
    /\ bad_recipient y = true.
Proof.
  intros Hvu Hvc Hvb Hbad. unfold email_plan.
  destruct (accepted_or_refused h email_usernames) as [Hu|Hu].
  2:{ destruct (convert_opt_refuses _ _ Hvu Hu) as (y & Hy & Hbady).
      destruct (convert_opt email_step email_usernames h) as [h1 r1].
      cbn [snd] in Hy. subst r1. cbn. eauto. }
  pose proof (refused_persists email_usernames cc h Hvu Hu) as Hpc.
  pose proof (refused_persists email_usernames bcc h Hvu Hu) as Hpb.
  destruct (convert_opt_good email_usernames h Hvu Hu)
    as (h1 & r1 & H1 & _ & Hn1 & _).
  rewrite H1 in Hpc, Hpb |- *. cbn [fst] in Hpc, Hpb.
  pose proof (normalized_from_valid _ _ _ Hn1 Hvc) as Hvc1.
  pose proof (normalized_from_valid _ _ _ Hn1 Hvb) as Hvb1.
  destruct (accepted_or_refused h1 cc) as [Hc|Hc].
  2:{ destruct (convert_opt_refuses _ _ Hvc1 Hc) as (y & Hy & Hbady).
      destruct (convert_opt email_step cc h1) as [h2 r2].
      cbn [snd] in Hy. subst r2. cbn. eauto. }
  pose proof (refused_persists cc bcc h1 Hvc1 Hc) as Hpb1.
  destruct (convert_opt_good cc h1 Hvc1 Hc) as (h2 & r2 & H2 & _ & Hn2 & _).
  rewrite H2 in Hpb1 |- *. cbn [fst] in Hpb1.
  pose proof (normalized_from_valid _ _ _ Hn2 Hvb1) as Hvb2.
  destruct (accepted_or_refused h2 bcc) as [Hb|Hb].
  2:{ destruct (convert_opt_refuses _ _ Hvb2 Hb) as (y & Hy & Hbady).
      destruct (convert_opt email_step bcc h2) as [h3 r3].
      cbn [snd] in Hy. subst r3. cbn. eauto. }
  exfalso. destruct Hbad as [Hbad|[Hbad|Hbad]].
  - destruct Hbad as (a & x & -> & Hin & Hx).
    specialize (Hu a x eq_refl Hin). congruence.
  - destruct (Hpc Hbad) as (a & x & -> & Hin & Hx).
    specialize (Hc a x eq_refl Hin). congruence.
  - destruct (Hpb1 (Hpb Hbad)) as (a & x & -> & Hin & Hx).
    specialize (Hb a x eq_refl Hin). congruence.
Qed.

End Email_refusals.

Lemma passed_heap (now : Q) (name : string) (b : bool) (st st1 : state) :
  _passed_rate_limit now name st = (inr b, st1) -> st_heap st1 = st_heap st.
Proof.
  intros H. pose proof (after_check_heap now name st) as Hh.
  unfold after_check in Hh. now rewrite H in Hh.
Qed.

Lemma bad_recipient_spec (x : ustring) :
  bad_recipient x = true
  <-> contains at_sign x = true /\ endswith x khanacademy_org = false.
Proof.
  unfold bad_recipient. rewrite andb_true_iff, negb_true_iff. tauto.
Qed.

Lemma normalize_one_bare (x : ustring) :
  contains at_sign x = false -> normalize_one x = x ++ khanacademy_org.
Proof.
  intros H. unfold normalize_one. now rewrite (bare_not_suffixed x H).
Qed.

Lemma normalize_one_suffixed (x : ustring) :
  endswith x khanacademy_org = true -> normalize_one x = x.
Proof. intros H. unfold normalize_one. now rewrite H. Qed.

(** C5 (as amended): on a [send_to_email] that the rate limiter lets
    through, a recipient (in the usernames, [cc] or [bcc]) that holds an
    ['@'] without ending in [@khanacademy.org] makes the call raise a
    [ValueError]; otherwise the mail goes to the recipients with
    [@khanacademy.org] appended to every bare username, a recipient that
    ends in [@khanacademy.org] being kept as it is; [["foo"]] becomes
    [["foo@khanacademy.org"]]. *)
Theorem email_recipients_checked :
  (forall (E : env) (now : Q) (email_usernames cc bcc : option names)
          (sender : option ustring) (st st1 : state),
      _passed_rate_limit now "email" st = (inr true, st1) ->
      valid_arg (st_heap st) email_usernames ->
      valid_arg (st_heap st) cc -> valid_arg (st_heap st) bcc ->
      (has_refused (st_heap st) email_usernames
       \/ has_refused (st_heap st) cc \/ has_refused (st_heap st) bcc ->
       exists y h,
         bad_recipient y = true
         /\ send_to_email E now email_usernames cc bcc sender st
            = (inl (ValueError
                      "Specify email usernames, not addresses (%s)" y),
               set_heap st1 h))
      /\ (all_accepted (st_heap st) email_usernames ->
          all_accepted (st_heap st) cc -> all_accepted (st_heap st) bcc ->
          exists h,
            send_to_email E now email_usernames cc bcc sender st
            = (inr (st_self st1),
               add_trace (set_heap st1 h)
                 (email_events E (st_self st1) (st_test_mode st1) sender
                    (recipients (st_heap st) email_usernames)
                    (recipients (st_heap st) cc)
                    (recipients (st_heap st) bcc)))))
  /\ (forall x : ustring,
      bad_recipient x = true
      <-> contains at_sign x = true /\ endswith x khanacademy_org = false)
  /\ (forall x : ustring,
      contains at_sign x = false -> normalize_one x = x ++ khanacademy_org)
  /\ (forall x : ustring,
      endswith x khanacademy_org = true -> normalize_one x = x)
  /\ recipients [[u "foo"]] (Some (NList 0%nat))
     = Some [u "foo@khanacademy.org"].
Proof.
  split; [|split; [|split; [|split]]].
  - intros E now email_usernames cc bcc sender st st1 Hpass Hvu Hvc Hvb.
    rewrite (send_to_email_passed E _ _ _ _ _ _ _ Hpass).
    rewrite (passed_heap _ _ _ _ _ Hpass). unfold plan_result. split.
    + intros Hbad.
      destruct (email_plan_refuses E (st_self st1) (st_test_mode st1)
                  email_usernames cc bcc sender _ Hvu Hvc Hvb Hbad)
        as (y & -> & Hy).
      eauto.
    + intros Hu Hc Hb.
      destruct (email_plan_good E (st_self st1) (st_test_mode st1)
                  email_usernames cc bcc sender _ Hvu Hvc Hvb Hu Hc Hb)
        as (h3 & -> & _).
      eauto.
  - apply bad_recipient_spec.
  - apply normalize_one_bare.
  - apply normalize_one_suffixed.
  - reflexivity.
Qed.

Lemma email_recipients_checked_witness :
  let self := Alert_init (u "Disk full") None logging.ERROR false None in
  let st := mkState self [[u "foo"]] true [] in
  exists h,
    send_to_email E_up 5 (Some (NList 0%nat)) None None None st
    = (inr self,
       add_trace (set_heap st h)
         (email_events E_up self true None (Some [u "foo@khanacademy.org"])
                       None None)).
Proof.
  cbv zeta. set (st := mkState _ _ _ _).
  refine (proj2 (proj1 email_recipients_checked E_up 5%Q (Some (NList 0%nat))
                   None None None st st _ _ _ _) _ _ _).
  - reflexivity.
  - cbn. eauto.
  - exact I.
  - exact I.
  - intros a x [= <-] Hx. cbn in Hx. apply list_elem_of_singleton in Hx.
    now subst.
  - intros a x [=].
  - intros a x [=].
Defined.

(** C5 (as stated) fails for a full address of the domain: the recipient
    holds an ['@'], and the call goes through with the address as it
    is.  It also fails on a call that the rate limiter denies: the
    recipient is one that [_normalize] refuses, and the call returns the
    alert. *)
Lemma email_full_address_counterexample :
  let self := Alert_init (u "Disk full") None logging.ERROR false None in
  let st := mkState self [[u "foo@khanacademy.org"]] true [] in
  let limited := with_last_sent
                   (Alert_init (u "Disk full") None logging.ERROR false
                               (Some 60%Q))
                   {[ "email" := 100%Q ]} in
  let st' := mkState limited [[u "ops@example.com"]] true [] in
  contains at_sign (u "foo@khanacademy.org") = true
  /\ send_to_email E_up 5 (Some (NList 0%nat)) None None None st
     = (inr self,
        add_trace st
          [would_send
             (email_contents self None (Some [u "foo@khanacademy.org"])
                             None None)])
  /\ bad_recipient (u "ops@example.com") = true
  /\ send_to_email E_up 110 (Some (NList 0%nat)) None None None st'
     = (inr limited, st').
Proof. cbv zeta. repeat split; vm_compute; reflexivity. Qed.

(** ** The lists of the caller *)

Lemma plan_result_heap (st1 : state)
    (plan : list (list ustring) * (exn + list event)) :
  st_heap (snd (plan_result st1 plan)) = fst plan.
Proof. unfold plan_result. destruct (snd plan); reflexivity. Qed.

Lemma plan_result_returns (st1 : state)
    (plan : list (list ustring) * (exn + list event)) (evs : list event) :
  snd plan = inr evs -> fst (plan_result st1 plan) = inr (st_self st1).
Proof. intros H. unfold plan_result. now rewrite H. Qed.

Lemma pagerduty_plan_heap (E : env) (self : Alert) (test_mode : bool)
    (l : nat) (xs : list ustring) (h : list (list ustring)) :
  h !! l = Some xs ->
  fst (pagerduty_plan E self test_mode (NList l) h)
  = <[l := fst (convert_list pagerduty_step xs)]> h.
Proof.
  intros Hl. unfold pagerduty_plan, convert_arg. rewrite Hl.
  destruct (snd (convert_list pagerduty_step xs)); [reflexivity|].
  destruct (<[l := _]> h !! l); reflexivity.
Qed.

Lemma email_plan_heap (E : env) (self : Alert) (test_mode : bool)
    (l : nat) (xs : list ustring) (sender : option ustring)
    (h : list (list ustring)) :
  h !! l = Some xs ->
  fst (email_plan E self test_mode (Some (NList l)) None None sender h)
  = <[l := fst (convert_list email_step xs)]> h.
Proof.
  intros Hl. unfold email_plan, convert_opt, convert_arg. rewrite Hl.
  cbn [fst snd].
  destruct (snd (convert_list email_step xs)); [reflexivity|].
  destruct (heap_read _ _); reflexivity.
Qed.

(** C10 (as amended): a [send_to_email] or [send_to_pagerduty] that the
    rate limiter lets through overwrites the caller's list in place.
    When no element is refused, each element is replaced by its
    normalized address; when an element is refused, the elements before
    it have been replaced and the others are as they were.  A call that
    the rate limiter denies leaves the lists as they are. *)
Theorem caller_lists_overwritten (E : env) (now : Q) (st : state) :
  (forall l xs st1,
      _passed_rate_limit now "pagerduty" st = (inr true, st1) ->
      st_heap st !! l = Some xs ->
      st_heap (snd (send_to_pagerduty E now (NList l) st))
      = <[l := fst (convert_list pagerduty_step xs)]> (st_heap st))
  /\ (forall l xs sender st1,
      _passed_rate_limit now "email" st = (inr true, st1) ->
      st_heap st !! l = Some xs ->
      st_heap (snd (send_to_email E now (Some (NList l)) None None sender st))
      = <[l := fst (convert_list email_step xs)]> (st_heap st))
  /\ (forall xs,
      (forall x, x ∈ xs -> contains at_sign x = false) ->
      convert_list pagerduty_step xs = (service_email <$> xs, None))
  /\ (forall xs,
      (forall x, x ∈ xs -> bad_recipient x = false) ->
      convert_list email_step xs = (normalize_one <$> xs, None))
  /\ (forall good x rest,
      (forall y, y ∈ good -> contains at_sign y = false) ->
      contains at_sign x = true ->
      fst (convert_list pagerduty_step (good ++ x :: rest))
      = (service_email <$> good) ++ x :: rest)
  /\ (forall good x rest,
      (forall y, y ∈ good -> bad_recipient y = false) ->
      bad_recipient x = true ->
      fst (convert_list email_step (good ++ x :: rest))
      = (normalize_one <$> good) ++ x :: rest)
  /\ (forall email_usernames cc bcc sender st1,
      _passed_rate_limit now "email" st = (inr true, st1) ->
      valid_arg (st_heap st) email_usernames ->
      valid_arg (st_heap st) cc -> valid_arg (st_heap st) bcc ->
      all_accepted (st_heap st) email_usernames ->
      all_accepted (st_heap st) cc -> all_accepted (st_heap st) bcc ->
      fst (send_to_email E now email_usernames cc bcc sender st)
      = inr (st_self st1)
      /\ normalized_from (st_heap st)
           (st_heap (snd (send_to_email E now email_usernames cc bcc
                                        sender st)))
      /\ (forall arg l xs,
             arg ∈ [email_usernames; cc; bcc] ->
             arg = Some (NList l) -> st_heap st !! l = Some xs ->
             st_heap (snd (send_to_email E now email_usernames cc bcc
                                         sender st)) !! l
             = Some (normalize_one <$> xs)))
  /\ (forall pagerduty_servicenames st1,
      _passed_rate_limit now "pagerduty" st = (inr false, st1) ->
      st_heap (snd (send_to_pagerduty E now pagerduty_servicenames st))
      = st_heap st)
  /\ (forall email_usernames cc bcc sender st1,
      _passed_rate_limit now "email" st = (inr false, st1) ->
      st_heap (snd (send_to_email E now email_usernames cc bcc sender st))
      = st_heap st).
Proof.
  repeat apply conj.
  - intros l xs st1 Hpass Hl.
    rewrite (send_to_pagerduty_passed E _ _ _ _ Hpass), plan_result_heap.
    rewrite (passed_heap _ _ _ _ _ Hpass). now apply pagerduty_plan_heap.
  - intros l xs sender st1 Hpass Hl.
    rewrite (send_to_email_passed E _ _ _ _ _ _ _ Hpass), plan_result_heap.
    rewrite (passed_heap _ _ _ _ _ Hpass). now apply email_plan_heap.
  - intros xs Hok. apply convert_list_good. intros x Hx.
    rewrite pagerduty_step_spec. now rewrite (Hok x Hx).
  - intros xs Hok. apply convert_list_good. intros x Hx.
    rewrite email_step_spec. now rewrite (Hok x Hx).
  - intros good x rest Hgood Hx.
    erewrite (convert_list_stops pagerduty_step service_email);
      [reflexivity | | rewrite pagerduty_step_spec, Hx; reflexivity].
    intros y Hy. rewrite pagerduty_step_spec. now rewrite (Hgood y Hy).
  - intros good x rest Hgood Hx.
    erewrite (convert_list_stops email_step normalize_one);
      [reflexivity | | rewrite email_step_spec, Hx; reflexivity].
    intros y Hy. rewrite email_step_spec. now rewrite (Hgood y Hy).
  - intros email_usernames cc bcc sender st1 Hpass Hvu Hvc Hvb Hu Hc Hb.
    rewrite (send_to_email_passed E _ _ _ _ _ _ _ Hpass), plan_result_heap.
    rewrite (passed_heap _ _ _ _ _ Hpass).
    destruct (email_plan_good E (st_self st1) (st_test_mode st1)
                email_usernames cc bcc sender _ Hvu Hvc Hvb Hu Hc Hb)
      as (h3 & Hplan & Hn & Hlists).
    rewrite Hplan. cbn [fst]. split; [|split].
    + unfold plan_result. reflexivity.
    + exact Hn.
    + exact Hlists.
  - intros names st1 Hden.
    rewrite (send_to_pagerduty_denied E _ _ _ _ Hden).
    exact (passed_heap _ _ _ _ _ Hden).
  - intros email_usernames cc bcc sender st1 Hden.
    rewrite (send_to_email_denied E _ _ _ _ _ _ _ Hden).
    exact (passed_heap _ _ _ _ _ Hden).
Qed.

Lemma caller_lists_overwritten_witness :
  let self := Alert_init (u "Disk full") None logging.ERROR false None in
  let st := mkState self [[u "foo"; u "bar@khanacademy.org"]] false [] in
  st_heap (snd (send_to_email E_up 5 (Some (NList 0%nat)) None None None st))
  = [[u "foo@khanacademy.org"; u "bar@khanacademy.org"]].
Proof.
  cbv zeta. set (st := mkState _ _ _ _).
  refine (proj1 (proj2 (caller_lists_overwritten E_up 5 st))
            0%nat [u "foo"; u "bar@khanacademy.org"] None st _ _);
    reflexivity.
Defined.

(** C10 (as stated) fails on a call that the rate limiter denies: the
    caller's list still holds the username it was given.  And a refused
    element stops the loop: the elements before it are overwritten when
    the error reaches the caller, the others are not. *)
Lemma list_untouched_counterexample :
  let self := with_last_sent
                (Alert_init (u "Disk full") None logging.ERROR false
                            (Some 60%Q))
                {[ "email" := 100%Q ]} in
  let st := mkState self [[u "foo"]] false [] in
  let self' := Alert_init (u "Disk full") None logging.ERROR false None in
  let st' := mkState self' [[u "API-Team!!"; u "ops@example.com"; u "Web"]]
                     false [] in
  normalize_one (u "foo") = u "foo@khanacademy.org"
  /\ send_to_email E_up 110 (Some (NList 0%nat)) None None None st
     = (inr self, st)
  /\ st_heap st = [[u "foo"]]
  /\ send_to_pagerduty E_up 5 (NList 0%nat) st'
     = (inl (ValueError
               "Specify PagerDuty service names, not addresses (%s)"
               (u "ops@example.com")),
        set_heap st' [[u "api-team@khan-academy.pagerduty.com";
                       u "ops@example.com"; u "Web"]]).
Proof. cbv zeta. repeat split; vm_compute; reflexivity. Qed.

(** A list passed twice, as recipients and as [cc], is normalized once and
    read twice. *)
Example send_to_email_aliased :
  let self := Alert_init (u "Disk full") None logging.ERROR false None in
  let st := mkState self [[u "foo"]] true [] in
  send_to_email E_up 5 (Some (NList 0%nat)) (Some (NList 0%nat)) None None st
  = (inr self,
     add_trace (set_heap st [[u "foo@khanacademy.org"]])
       [would_send
          (email_contents self None (Some [u "foo@khanacademy.org"])
                          (Some [u "foo@khanacademy.org"]) None)]).
Proof. vm_compute. reflexivity. Qed.


(** * Further properties *)

(** ** The rate limiter over several checks *)

Lemma passed_true_records (now : Q) (name : string) (st st1 : state) (R : Q) :
  rate_limit (st_self st) = Some R -> ~ (R == 0)%Q ->
  _passed_rate_limit now name st = (inr true, st1) ->
  st1 = record_sent now name st.
Proof.
  intros HR Hnz. rewrite (passed_rate_limit_set _ _ _ R HR Hnz).
  destruct (Qgt_bool _ R); congruence.
Qed.

Lemma elapsed_after_record (now later : Q) (name : string) (st : state) :
  elapsed later (st_self (record_sent now name st)) name = (later - now)%Q.
Proof. unfold elapsed. cbn. now rewrite lookup_insert_eq. Qed.

(** X1: once a check has passed at [now] under a window [R], a later
    check for the same backend passes, and records its own time, exactly
    when more than [R] has elapsed since [now]; otherwise it is denied and
    changes nothing. *)
Theorem rate_limit_window (now later : Q) (name : string) (st st1 : state)
    (R : Q) :
  rate_limit (st_self st) = Some R -> ~ (R == 0)%Q ->
  _passed_rate_limit now name st = (inr true, st1) ->
  ((R < later - now)%Q ->
   _passed_rate_limit later name st1 = (inr true, record_sent later name st1))
  /\ (~ (R < later - now)%Q ->
      _passed_rate_limit later name st1 = (inr false, st1)).
Proof.
  intros HR Hnz Hpass.
  rewrite (passed_true_records _ _ _ _ R HR Hnz Hpass).
  assert (HR1 : rate_limit (st_self (record_sent now name st)) = Some R)
    by exact HR.
  rewrite (passed_rate_limit_set later name _ R HR1 Hnz).
  rewrite elapsed_after_record. split; intros H.
  - apply Qgt_bool_true in H. now rewrite H.
  - apply Qgt_bool_false in H. now rewrite H.
Qed.

Lemma rate_limit_window_witness :
  let st := mkState (Alert_init (u "m") None logging.INFO false (Some 60%Q))
                    [] false [] in
  let st1 := record_sent 5 "logs" st in
  _passed_rate_limit 65 "logs" st1 = (inr false, st1).
Proof.
  cbv zeta.
  refine (proj2 (rate_limit_window 5 65 "logs"
                   (mkState (Alert_init (u "m") None logging.INFO false
                                        (Some 60%Q)) [] false [])
                   _ 60%Q eq_refl _ _) _).
  - unfold Qeq. cbn. lia.
  - vm_compute. reflexivity.
  - intros H. vm_compute in H. discriminate.
Defined.

Lemma after_check_self (now : Q) (name : string) (st : state) :
  st_self (after_check now name st) = st_self st
  \/ st_self (after_check now name st)
     = with_last_sent (st_self st) (<[name := now]> (last_sent (st_self st))).
Proof.
  unfold after_check, _passed_rate_limit, bind, get_self. cbn.
  destruct (truthy_rate (rate_limit (st_self st))); cbn; [|now left].
  destruct (Qgt_bool _ _); cbn; [now right | now left].
Qed.

Lemma passed_rate_limit_bool (now : Q) (name : string) (st : state) :
  fst (_passed_rate_limit now name st)
  = inr (negb (truthy_rate (rate_limit (st_self st)))
         || Qgt_bool (elapsed now (st_self st) name)
                     (default 0%Q (rate_limit (st_self st)))).
Proof.
  unfold _passed_rate_limit, bind, get_self, elapsed. cbn.
  destruct (truthy_rate (rate_limit (st_self st))); cbn; [|reflexivity].
  destruct (Qgt_bool _ _); reflexivity.
Qed.

(** X2: the backends are limited one by one: a check for one backend, at
    any time, changes neither the entry of [last_sent] for another
    backend nor the answer of a check for it. *)
Theorem rate_limit_independent (now later : Q) (name name' : string)
    (st : state) :
  name <> name' ->
  last_sent (st_self (after_check now name st)) !! name'
  = last_sent (st_self st) !! name'
  /\ fst (_passed_rate_limit later name' (after_check now name st))
     = fst (_passed_rate_limit later name' st).
Proof.
  intros Hne.
  assert (Hls : last_sent (st_self (after_check now name st)) !! name'
                = last_sent (st_self st) !! name').
  { destruct (after_check_self now name st) as [-> | ->]; [reflexivity|].
    cbn. now rewrite lookup_insert_ne. }
  split; [exact Hls|].
  rewrite !passed_rate_limit_bool. unfold elapsed. rewrite Hls.
  destruct (after_check_self now name st) as [-> | ->]; reflexivity.
Qed.

Lemma rate_limit_independent_witness :
  let st := mkState (Alert_init (u "m") None logging.INFO false (Some 60%Q))
                    [] false [] in
  fst (_passed_rate_limit 6 "email" (after_check 5 "logs" st))
  = fst (_passed_rate_limit 6 "email" st).
Proof.
  cbv zeta.
  refine (proj2 (rate_limit_independent 5 6 "logs" "email" _ _)).
  discriminate.
Defined.

(** X3: the first check for a backend, which has no entry in [last_sent],
    passes exactly when the window is shorter than [now + 1000000]: the
    default [-1000000] lets every realistic window through, and a window
    of a million seconds or more past [now] holds back even the first
    send. *)
Theorem first_check_threshold (now : Q) (name : string) (st : state) (R : Q) :
  rate_limit (st_self st) = Some R -> ~ (R == 0)%Q ->
  last_sent (st_self st) !! name = None ->
  ((R < now + 1000000)%Q ->
   _passed_rate_limit now name st = (inr true, record_sent now name st))
  /\ (~ (R < now + 1000000)%Q ->
      _passed_rate_limit now name st = (inr false, st)).
Proof.
  intros HR Hnz Hnone. rewrite (passed_rate_limit_set _ _ _ R HR Hnz).
  assert (He : (elapsed now (st_self st) name == now + 1000000)%Q).
  { unfold elapsed. rewrite Hnone. cbn. lra. }
  split; intros H.
  - assert (Hb : Qgt_bool (elapsed now (st_self st) name) R = true)
      by (apply Qgt_bool_true; now rewrite He).
    now rewrite Hb.
  - assert (Hb : Qgt_bool (elapsed now (st_self st) name) R = false)
      by (apply Qgt_bool_false; now rewrite He).
    now rewrite Hb.
Qed.

Lemma first_check_threshold_witness :
  let st := mkState (Alert_init (u "m") None logging.INFO false
                                (Some 2000000%Q)) [] false [] in
  _passed_rate_limit 5 "logs" st = (inr false, st).
Proof.
  cbv zeta.
  refine (proj2 (first_check_threshold 5 "logs"
                   (mkState (Alert_init (u "m") None logging.INFO false
                                        (Some 2000000%Q)) [] false [])
                   2000000%Q eq_refl _ eq_refl) _).
  - unfold Qeq. cbn. lia.
  - intros H. vm_compute in H. discriminate.
Defined.

(** ** The alert across dispatches *)

Lemma plan_result_self (st1 : state)
    (plan : list (list ustring) * (exn + list event)) :
  st_self (snd (plan_result st1 plan)) = st_self st1.
Proof. unfold plan_result. destruct (snd plan); reflexivity. Qed.

(** X4: whatever a dispatch does, returning or raising, it leaves the
    message, the summary, the severity, the HTML flag and the window of
    the alert as they were, and the only change it may make to
    [last_sent] is to record the time of the dispatch under the name of
    its own backend. *)
Theorem dispatch_keeps_alert (E : env) (now : Q) (st : state) :
  (forall room_name color notify sender,
      alert_kept now "hipchat" (st_self st)
        (st_self (snd (send_to_hipchat E now room_name color notify sender
                                       st))))
  /\ (forall email_usernames cc bcc sender,
      alert_kept now "email" (st_self st)
        (st_self (snd (send_to_email E now email_usernames cc bcc sender
                                     st))))
  /\ (forall pagerduty_servicenames,
      alert_kept now "pagerduty" (st_self st)
        (st_self (snd (send_to_pagerduty E now pagerduty_servicenames st))))
  /\ alert_kept now "logs" (st_self st) (st_self (snd (send_to_logs E now st)))
  /\ (forall statistic value graphite_host,
      alert_kept now "graphite" (st_self st)
        (st_self (snd (send_to_graphite E now statistic value graphite_host
                                        st)))).
Proof.
  repeat split.
  - intros room_name color notify sender.
    destruct (after_check_run now "hipchat" st) as [[] Hb].
    + rewrite (send_to_hipchat_passed E _ _ _ _ _ _ _ Hb). cbn [snd].
      rewrite add_trace_self. apply after_check_self.
    + rewrite (send_to_hipchat_denied E _ _ _ _ _ _ _ Hb).
      apply after_check_self.
  - intros email_usernames cc bcc sender.
    destruct (after_check_run now "email" st) as [[] Hb].
    + rewrite (send_to_email_passed E _ _ _ _ _ _ _ Hb), plan_result_self.
      apply after_check_self.
    + rewrite (send_to_email_denied E _ _ _ _ _ _ _ Hb).
      apply after_check_self.
  - intros names.
    destruct (after_check_run now "pagerduty" st) as [[] Hb].
    + rewrite (send_to_pagerduty_passed E _ _ _ _ Hb), plan_result_self.
      apply after_check_self.
    + rewrite (send_to_pagerduty_denied E _ _ _ _ Hb).
      apply after_check_self.
  - destruct (after_check_run now "logs" st) as [[] Hb].
    + rewrite (send_to_logs_passed E _ _ _ Hb). cbn [snd].
      rewrite add_trace_self. apply after_check_self.
    + rewrite (send_to_logs_denied E _ _ _ Hb). apply after_check_self.
  - intros statistic value graphite_host.
    destruct (after_check_run now "graphite" st) as [[] Hb].
    + rewrite (send_to_graphite_passed E _ _ _ _ _ _ Hb). cbn [snd].
      rewrite add_trace_self. apply after_check_self.
    + rewrite (send_to_graphite_denied E _ _ _ _ _ _ Hb).
      apply after_check_self.
Qed.

Lemma in_window_denied (now : Q) (name : string) (st : state) :
  in_window now name st -> _passed_rate_limit now name st = (inr false, st).
Proof.
  intros (R & t & HR & Hnz & Ht & Hin).
  rewrite (passed_rate_limit_set _ _ _ R HR Hnz).
  assert (Hb : Qgt_bool (elapsed now (st_self st) name) R = false).
  { apply Qgt_bool_false. unfold elapsed. now rewrite Ht. }
  now rewrite Hb.
Qed.

(** X5: inside the window of its backend a dispatch does nothing at all:
    it returns the alert and leaves the state as it was, so no record is
    logged, no call is made, no recipient is checked and no list of the
    caller is touched. *)
Theorem inside_window_nothing_happens (E : env) (now : Q) (st : state) :
  (in_window now "hipchat" st ->
   forall room_name color notify sender,
     send_to_hipchat E now room_name color notify sender st
     = (inr (st_self st), st))
  /\ (in_window now "email" st ->
      forall email_usernames cc bcc sender,
        send_to_email E now email_usernames cc bcc sender st
        = (inr (st_self st), st))
  /\ (in_window now "pagerduty" st ->
      forall pagerduty_servicenames,
        send_to_pagerduty E now pagerduty_servicenames st
        = (inr (st_self st), st))
  /\ (in_window now "logs" st ->
      send_to_logs E now st = (inr (st_self st), st))
  /\ (in_window now "graphite" st ->
      forall statistic value graphite_host,
        send_to_graphite E now statistic value graphite_host st
        = (inr (st_self st), st)).
Proof.
  repeat split; intros Hin; intros.
  - apply send_to_hipchat_denied. now apply in_window_denied.
  - apply send_to_email_denied. now apply in_window_denied.
  - apply send_to_pagerduty_denied. now apply in_window_denied.
  - apply send_to_logs_denied. now apply in_window_denied.
  - apply send_to_graphite_denied. now apply in_window_denied.
Qed.

Lemma inside_window_nothing_happens_witness :
  let self := with_last_sent
                (Alert_init (u "Disk full") None logging.ERROR false
                            (Some 60%Q))
                {[ "email" := 100%Q ]} in
  let st := mkState self [[u "ops@example.com"]] false [] in
  send_to_email E_down 110 (Some (NList 0%nat)) None None None st
  = (inr self, st).
Proof.
  cbv zeta. set (st := mkState _ _ _ _).
  refine (proj1 (proj2 (inside_window_nothing_happens E_down 110 st)) _
            (Some (NList 0%nat)) None None None).
  exists 60%Q, 100%Q. repeat split.
  - unfold Qeq. cbn. lia.
  - intros H. vm_compute in H. discriminate.
Defined.

(** X6: test mode does not spare the window.  A [send_to_graphite] let
    through in test mode records its time; once test mode is left, a
    second one inside the window sends nothing: the only trace of the two
    dispatches is the record of what the first would have sent. *)
Theorem test_mode_uses_window (E : env) (now later : Q) (statistic : ustring)
    (value : pynum) (graphite_host : ustring) (st : state) (R : Q) :
  st_test_mode st = true ->
  rate_limit (st_self st) = Some R -> ~ (R == 0)%Q ->
  (R < elapsed now (st_self st) "graphite")%Q ->
  ~ (R < later - now)%Q ->
  (send_to_graphite E now statistic value graphite_host ;;;
   exit_test_mode ;;;
   send_to_graphite E later statistic value graphite_host) st
  = (inr (st_self (record_sent now "graphite" st)),
     mkState (st_self (record_sent now "graphite" st)) (st_heap st) false
             (st_trace st
              ++ [Log logging.INFO
                      (VFmt "alertlib: would send to graphite: %s %s"
                            [VText statistic;
                             VNum (graphite_value value)])])).
Proof.
  intros Hmode HR Hnz Hpass Hin.
  assert (H1 : _passed_rate_limit now "graphite" st
               = (inr true, record_sent now "graphite" st)).
  { rewrite (passed_rate_limit_set _ _ _ R HR Hnz).
    apply Qgt_bool_true in Hpass. now rewrite Hpass. }
  unfold bind at 1.
  rewrite (send_to_graphite_passed E _ _ _ _ _ _ H1).
  unfold graphite_events. cbn [record_sent st_test_mode]. rewrite Hmode.
  unfold bind at 1. rewrite exit_test_mode_run.
  cbn [add_trace st_self st_heap st_test_mode st_trace record_sent].
  match goal with
  | |- send_to_graphite _ _ _ _ _ ?s = _ =>
      apply (send_to_graphite_denied E later statistic value graphite_host
               s s)
  end.
  apply in_window_denied.
  exists R, now. repeat split; try assumption.
  cbn. now rewrite lookup_insert_eq.
Qed.

Lemma test_mode_uses_window_witness :
  let self := Alert_init (u "Disk full") None logging.ERROR false
                         (Some 60%Q) in
  let st := snd (enter_test_mode (mkState self [] false [])) in
  st_trace
    (snd ((send_to_graphite E_up 5 (u "disk.full") (PyInt 1)
                            DEFAULT_GRAPHITE_HOST ;;;
           exit_test_mode ;;;
           send_to_graphite E_up 6 (u "disk.full") (PyInt 1)
                            DEFAULT_GRAPHITE_HOST) st))
  = [Log logging.INFO
         (VFmt "alertlib: would send to graphite: %s %s"
               [VText (u "disk.full"); VNum (PyInt 1)])].
Proof.
  cbv zeta. set (st := snd (enter_test_mode _)).
  rewrite (test_mode_uses_window E_up 5 6 (u "disk.full") (PyInt 1)
             DEFAULT_GRAPHITE_HOST st 60%Q).
  - reflexivity.
  - reflexivity.
  - reflexivity.
  - unfold Qeq. cbn. lia.
  - vm_compute. reflexivity.
  - intros H. vm_compute in H. discriminate.
Defined.

(** ** HipChat: the emoticon and the length of a message *)

Lemma nix_unfold (c : uchar) (rest : ustring) :
  _nix_bad_emoticons (c :: rest)
  = match rest with
    | c' :: rest' =>
        if ((c =? 56) && (c' =? 41))%N
        then 56%N :: 8203%N :: 41%N :: _nix_bad_emoticons rest'
        else c :: _nix_bad_emoticons rest
    | [] => [c]
    end.
Proof. destruct rest; reflexivity. Qed.

(** A statement about every text follows from its instances at the empty
    text, at a text that starts with the emoticon and at a text that
    does not. *)
Lemma emoticon_ind (P : ustring -> Prop) :
  P [] ->
  (forall rest, P rest -> P (56%N :: 41%N :: rest)) ->
  (forall c rest,
      (forall c' rest', rest = c' :: rest' ->
                        ((c =? 56) && (c' =? 41))%N = false) ->
      P rest -> P (c :: rest)) ->
  forall s, P s.
Proof.
  intros Hnil Hemo Hother s.
  assert (H : forall n (t : ustring), (length t <= n)%nat -> P t).
  { induction n as [|n IH]; intros t Hlen.
    - destruct t; [exact Hnil | cbn in Hlen; lia].
    - destruct t as [|c [|c' rest']]; [exact Hnil | |].
      + apply Hother; [discriminate | exact Hnil].
      + destruct ((c =? 56) && (c' =? 41))%N eqn:Hcc.
        * apply andb_true_iff in Hcc as [Hc Hc'].
          apply N.eqb_eq in Hc, Hc'. subst.
          apply Hemo, IH. cbn in Hlen. lia.
        * apply Hother.
          -- intros c'' rest'' [= <- <-]. exact Hcc.
          -- apply IH. cbn in Hlen |- *. lia. }
  apply (H (length s)). lia.
Qed.

Lemma nix_emoticon (rest : ustring) :
  _nix_bad_emoticons (56%N :: 41%N :: rest)
  = 56%N :: 8203%N :: 41%N :: _nix_bad_emoticons rest.
Proof. reflexivity. Qed.

Lemma nix_other (c : uchar) (rest : ustring) :
  (forall c' rest', rest = c' :: rest' ->
                    ((c =? 56) && (c' =? 41))%N = false) ->
  _nix_bad_emoticons (c :: rest) = c :: _nix_bad_emoticons rest.
Proof.
  intros H. rewrite nix_unfold. destruct rest as [|c' rest']; [reflexivity|].
  now rewrite (H c' rest' eq_refl).
Qed.

(** The first character is kept. *)
Lemma nix_head (s : ustring) : hd_error (_nix_bad_emoticons s) = hd_error s.
Proof.
  destruct s as [|c rest]; [reflexivity|]. rewrite nix_unfold.
  destruct rest as [|c' rest']; [reflexivity|].
  destruct ((c =? 56) && (c' =? 41))%N eqn:Hcc; [|reflexivity].
  apply andb_true_iff in Hcc as [Hc _]. apply N.eqb_eq in Hc. now subst.
Qed.

Lemma has_emoticon_cons (c : uchar) (s : ustring) :
  has_emoticon (c :: s)
  = match hd_error s with
    | Some c' => ((c =? 56) && (c' =? 41))%N || has_emoticon s
    | None => false
    end.
Proof. destruct s; reflexivity. Qed.

(** The text that [_nix_bad_emoticons] answers never holds ["8)"]. *)
Lemma nix_clean (text : ustring) :
  has_emoticon (_nix_bad_emoticons text) = false.
Proof.
  induction text as [| rest IH | c rest Hc IH] using emoticon_ind.
  - reflexivity.
  - rewrite nix_emoticon. rewrite !has_emoticon_cons. cbn [hd_error].
    rewrite nix_head. destruct (hd_error rest); [|reflexivity].
    cbn. exact IH.
  - rewrite (nix_other _ _ Hc). rewrite has_emoticon_cons, nix_head.
    destruct rest as [|c' rest']; [reflexivity|]. cbn [hd_error].
    now rewrite (Hc c' rest' eq_refl), IH.
Qed.

(** Erasing the zero-width spaces undoes what [_nix_bad_emoticons] does. *)
Lemma nix_erase (text : ustring) :
  without_zero_width_space (_nix_bad_emoticons text)
  = without_zero_width_space text.
Proof.
  induction text as [| rest IH | c rest Hc IH] using emoticon_ind.
  - reflexivity.
  - rewrite nix_emoticon. unfold without_zero_width_space in *. cbn.
    now rewrite IH.
  - rewrite (nix_other _ _ Hc). unfold without_zero_width_space in *. cbn.
    now rewrite IH.
Qed.

(** X8: [_nix_bad_emoticons] only inserts zero-width spaces: erasing them
    from its answer gives the text with its own zero-width spaces erased,
    and a text without ["8)"] is answered as it is. *)
Theorem nix_bad_emoticons_inserts_only (text : ustring) :
  without_zero_width_space (_nix_bad_emoticons text)
  = without_zero_width_space text
  /\ (has_emoticon text = false -> _nix_bad_emoticons text = text).
Proof.
  split; [apply nix_erase|].
  induction text as [| rest IH | c rest Hc IH] using emoticon_ind.
  - reflexivity.
  - cbn. discriminate.
  - rewrite (nix_other _ _ Hc). rewrite has_emoticon_cons.
    destruct rest as [|c' rest']; [reflexivity|].
    cbn [hd_error]. rewrite (Hc c' rest' eq_refl). cbn [orb].
    intros H. now rewrite (IH H).
Qed.

Lemma nix_bad_emoticons_inserts_only_witness :
  _nix_bad_emoticons (u "(128)") = u "(128" ++ [zero_width_space] ++ u ")"
  /\ without_zero_width_space (_nix_bad_emoticons (u "(128)")) = u "(128)"
  /\ _nix_bad_emoticons (u "done") = u "done".
Proof.
  split; [reflexivity|]. split.
  - exact (proj1 (nix_bad_emoticons_inserts_only (u "(128)"))).
  - apply (proj2 (nix_bad_emoticons_inserts_only (u "done"))). reflexivity.
Defined.

Lemma nix_length (text : ustring) :
  (length text <= length (_nix_bad_emoticons text))%nat
  /\ (2 * length (_nix_bad_emoticons text) <= 3 * length text)%nat.
Proof.
  induction text as [| rest IH | c rest Hc IH] using emoticon_ind.
  - cbn. lia.
  - rewrite nix_emoticon. cbn [length]. lia.
  - rewrite (nix_other _ _ Hc). cbn [length]. lia.
Qed.

Lemma post_events_token (E : env) (token : ustring) (d : post_dict) :
  hipchat_token E = Some token -> token <> [] ->
  exists logged,
    post_events E d = HipchatCall token d :: logged
    /\ List.filter is_hipchat_call logged = [].
Proof.
  intros Htok Hne. unfold post_events. rewrite Htok.
  destruct token as [|c token]; [congruence|]. cbn.
  destruct (hipchat_api E _ d); eexists; (split; [reflexivity|]);
    reflexivity.
Qed.

Lemma post_events_call (E : env) (token : ustring) (d d' : post_dict) :
  HipchatCall token d ∈ post_events E d' -> d = d'.
Proof.
  unfold post_events. destruct (truthy_text (hipchat_token E)).
  - destruct (hipchat_api E _ d'); intros H;
      repeat (apply elem_of_cons in H as [H|H]); try discriminate;
      try (now inversion H); now apply elem_of_nil in H.
  - intros H. apply list_elem_of_singleton in H. discriminate.
Qed.

Lemma hipchat_events_call (E : env) (self : Alert) (test_mode : bool)
    (room_name : ustring) (color : option ustring) (notify : option bool)
    (sender : ustring) (token : ustring) (d : post_dict) :
  HipchatCall token d
    ∈ hipchat_events E self test_mode room_name color notify sender ->
  d = summary_post self room_name color sender (default [] (summary self))
  \/ d = body_post self room_name color notify sender.
Proof.
  unfold hipchat_events. intros H. apply elem_of_app in H as [H|H].
  - destruct (truthy_text (summary self)); [|now apply elem_of_nil in H].
    destruct test_mode.
    + apply list_elem_of_singleton in H. discriminate.
    + apply elem_of_app in H as [H|H].
      * left. now apply post_events_call in H.
      * apply list_elem_of_singleton in H. discriminate.
  - destruct test_mode.
    + apply list_elem_of_singleton in H. discriminate.
    + right. now apply post_events_call in H.
Qed.

Lemma new_events (now : Q) (name : string) (b : bool) (st st1 : state)
    (evs evs' : list event) :
  _passed_rate_limit now name st = (inr b, st1) ->
  st_trace (add_trace st1 evs) = st_trace st ++ evs' -> evs' = evs.
Proof.
  intros Hpass. pose proof (after_check_trace now name st) as Ht.
  unfold after_check in Ht. rewrite Hpass in Ht. cbn in Ht |- *.
  rewrite Ht. intros H. now apply app_inv_head in H.
Qed.

(** X7: no ["8)"] reaches HipChat in a text message.  The text that
    [_nix_bad_emoticons] answers never holds an ['8'] followed at once by
    a [')'], and every call that [send_to_hipchat] makes with the format
    [text], for the summary or for the body, carries a message without
    ["8)"]. *)
Theorem hipchat_text_is_clean :
  (forall text : ustring, has_emoticon (_nix_bad_emoticons text) = false)
  /\ (forall (E : env) (now : Q) (room_name : ustring)
             (color : option ustring) (notify : option bool)
             (sender : ustring) (st : state) (evs : list event)
             (token : ustring) (d : post_dict),
      st_trace (snd (send_to_hipchat E now room_name color notify sender st))
      = st_trace st ++ evs ->
      HipchatCall token d ∈ evs ->
      pd_message_format d = u "text" ->
      has_emoticon (pd_message d) = false).
Proof.
  split; [exact nix_clean|].
  intros E now room_name color notify sender st evs token d Htrace Hin Hfmt.
  destruct (after_check_run now "hipchat" st) as [[] Hb].
  - rewrite (send_to_hipchat_passed E _ _ _ _ _ _ _ Hb) in Htrace.
    cbn [snd] in Htrace. apply (new_events _ _ _ _ _ _ _ Hb) in Htrace.
    subst evs. apply hipchat_events_call in Hin as [-> | ->].
    + apply nix_clean.
    + unfold body_post in *. cbn [pd_message pd_message_format] in *.
      destruct (html _); [discriminate | apply nix_clean].
  - rewrite (send_to_hipchat_denied E _ _ _ _ _ _ _ Hb) in Htrace.
    cbn [snd] in Htrace. rewrite <- (add_trace_nil (after_check _ _ _)) in Htrace.
    apply (new_events _ _ _ _ _ _ _ Hb) in Htrace. subst evs.
    now apply elem_of_nil in Hin.
Qed.

Lemma hipchat_text_is_clean_witness :
  let self := Alert_init (u "Load is (128)") None logging.INFO false None in
  let st := mkState self [] false [] in
  let d := mkPost (u "ops") (u "AlertiGator")
                  (u "Load is (128" ++ [zero_width_space] ++ u ")")
                  (u "text") 0 (u "purple") in
  send_to_hipchat E_up 5 (u "ops") None None (u "AlertiGator") st
  = (inr self, add_trace st [HipchatCall (u "token") d])
  /\ has_emoticon (pd_message d) = false.
Proof.
  cbv zeta. split; [reflexivity|].
  refine (proj2 hipchat_text_is_clean E_up 5%Q (u "ops") None None
            (u "AlertiGator")
            (mkState (Alert_init (u "Load is (128)") None logging.INFO false
                                 None) [] false [])
            _ (u "token") _ _ _ _).
  - reflexivity.
  - apply list_elem_of_singleton. reflexivity.
  - reflexivity.
Defined.

(** X9: outside test mode and with a token, the last call of a
    [send_to_hipchat] that the rate limiter lets through carries the
    message body.  In HTML mode the body is the first 9000 characters of
    the message.  In text mode the zero-width spaces put into it can make
    it longer than 9000 characters, but not longer than 13500, and erasing
    them gives the first 9000 characters of the message without theirs. *)
Theorem hipchat_body_bounds (E : env) (now : Q) (room_name : ustring)
    (color : option ustring) (notify : option bool) (sender : ustring)
    (st st1 : state) (token : ustring) :
  _passed_rate_limit now "hipchat" st = (inr true, st1) ->
  st_test_mode st1 = false ->
  hipchat_token E = Some token -> token <> [] ->
  exists body before after,
    st_trace (snd (send_to_hipchat E now room_name color notify sender st))
    = st_trace st1 ++ before ++ HipchatCall token body :: after
    /\ List.filter is_hipchat_call after = []
    /\ pd_room_id body = room_name
    /\ Z.of_nat (length (take (Z.to_nat 9000) (message (st_self st1))))
       <= Z.of_nat (length (pd_message body)) <= 13500
    /\ (html (st_self st1) = true ->
        pd_message body = take (Z.to_nat 9000) (message (st_self st1))
        /\ Z.of_nat (length (pd_message body)) <= 9000)
    /\ (html (st_self st1) = false ->
        without_zero_width_space (pd_message body)
        = without_zero_width_space
            (take (Z.to_nat 9000) (message (st_self st1)))).
Proof.
  intros Hpass Hmode Htok Hne.
  rewrite (send_to_hipchat_passed E _ _ _ _ _ _ _ Hpass). cbn [snd].
  unfold hipchat_events. rewrite Hmode.
  destruct (post_events_token E token
              (body_post (st_self st1) room_name color notify sender)
              Htok Hne) as (logged & -> & Hlogged).
  exists (body_post (st_self st1) room_name color notify sender).
  eexists _, logged. split; [reflexivity|]. split; [exact Hlogged|].
  split; [reflexivity|].
  set (cut := take (Z.to_nat 9000) (message (st_self st1))).
  assert (Hlen : Z.of_nat (length cut) <= 9000).
  { unfold cut. rewrite length_take. lia. }
  unfold body_post. cbn [pd_message]. fold cut.
  destruct (html (st_self st1)).
  - split; [lia|]. split; [intros _; split; [reflexivity | lia]|].
    discriminate.
  - pose proof (nix_length cut) as [H1 H32].
    split; [lia|]. split; [discriminate|]. intros _.
    apply nix_erase.
Qed.

Lemma hipchat_body_bounds_witness :
  let self := Alert_init (u "Load is (128)") None logging.INFO false None in
  let st := mkState self [] false [] in
  exists body before after,
    st_trace (snd (send_to_hipchat E_up 5 (u "ops") None None
                                   (u "AlertiGator") st))
    = st_trace st ++ before ++ HipchatCall (u "token") body :: after
    /\ List.filter is_hipchat_call after = []
    /\ pd_room_id body = u "ops"
    /\ Z.of_nat (length (take (Z.to_nat 9000) (message self)))
       <= Z.of_nat (length (pd_message body)) <= 13500
    /\ (html self = true ->
        pd_message body = take (Z.to_nat 9000) (message self)
        /\ Z.of_nat (length (pd_message body)) <= 9000)
    /\ (html self = false ->
        without_zero_width_space (pd_message body)
        = without_zero_width_space (take (Z.to_nat 9000) (message self))).
Proof.
  cbv zeta.
  apply (hipchat_body_bounds E_up 5%Q (u "ops") None None (u "AlertiGator")
           (mkState (Alert_init (u "Load is (128)") None logging.INFO false
                                None) [] false [])
           (mkState (Alert_init (u "Load is (128)") None logging.INFO false
                                None) [] false [])
           (u "token")).
  - reflexivity.
  - reflexivity.
  - reflexivity.
  - discriminate.
Defined.

Lemma post_events_calls (E : env) (d : post_dict) :
  List.filter is_hipchat_call (post_events E d)
  = (if truthy_text (hipchat_token E)
     then [HipchatCall (default [] (hipchat_token E)) d] else [])
  /\ List.filter is_sleep (post_events E d) = [].
Proof.
  unfold post_events. destruct (truthy_text (hipchat_token E)); cbn;
    [destruct (hipchat_api E _ d)|]; split; reflexivity.
Qed.

(** X10: a [send_to_hipchat] that the rate limiter lets through makes no
    call to HipChat in test mode or without a token, and otherwise one
    call for the explicit summary, if there is one, and one for the body,
    whether or not the first call failed.  When there is an explicit
    summary it sleeps for one second outside test mode, with or without a
    token, and it never sleeps otherwise. *)
Theorem hipchat_calls_and_sleep (E : env) (now : Q) (room_name : ustring)
    (color : option ustring) (notify : option bool) (sender : ustring)
    (st st1 : state) (evs : list event) :
  _passed_rate_limit now "hipchat" st = (inr true, st1) ->
  st_trace (snd (send_to_hipchat E now room_name color notify sender st))
  = st_trace st ++ evs ->
  length (List.filter is_hipchat_call evs)
  = hipchat_calls_expected (st_self st1) (st_test_mode st1) (hipchat_token E)
  /\ List.filter is_sleep evs
     = (if truthy_text (summary (st_self st1)) && negb (st_test_mode st1)
        then [Sleep 1] else []).
Proof.
  intros Hpass Htrace.
  rewrite (send_to_hipchat_passed E _ _ _ _ _ _ _ Hpass) in Htrace.
  cbn [snd] in Htrace. apply (new_events _ _ _ _ _ _ _ Hpass) in Htrace.
  subst evs. unfold hipchat_events, hipchat_calls_expected.
  rewrite !List.filter_app.
  destruct (st_test_mode st1); cbn [orb negb andb].
  - rewrite andb_false_r. destruct (truthy_text (summary _)); split;
      reflexivity.
  - rewrite andb_true_r.
    pose proof (post_events_calls E
                  (body_post (st_self st1) room_name color notify sender))
      as [Hb1 Hb2].
    rewrite Hb1, Hb2.
    destruct (truthy_text (summary (st_self st1))).
    + rewrite !List.filter_app.
      pose proof (post_events_calls E
                    (summary_post (st_self st1) room_name color sender
                       (default [] (summary (st_self st1))))) as [Hs1 Hs2].
      rewrite Hs1, Hs2.
      destruct (truthy_text (hipchat_token E)); split; reflexivity.
    + destruct (truthy_text (hipchat_token E)); split; reflexivity.
Qed.

Lemma hipchat_calls_and_sleep_witness :
  let self := Alert_init (u "Disk is full on db1") (Some (u "Disk full"))
                         logging.ERROR false None in
  let st := mkState self [] false [] in
  let failed d :=
    Log logging.ERROR
        (VFmt "Failed sending %s to hipchat: %s"
              [VPost d; VExn (ValueError "%s" (u "503"))]) in
  let sp := summary_post self (u "ops") None (u "AlertiGator")
                         (u "Disk full") in
  let bp := body_post self (u "ops") None None (u "AlertiGator") in
  let evs := [HipchatCall (u "token") sp; failed sp; Sleep 1;
              HipchatCall (u "token") bp; failed bp] in
  length (List.filter is_hipchat_call evs) = 2%nat
  /\ List.filter is_sleep evs = [Sleep 1].
Proof.
  cbv zeta.
  apply (hipchat_calls_and_sleep E_down 5%Q (u "ops") None None
           (u "AlertiGator")
           (mkState (Alert_init (u "Disk is full on db1")
                                (Some (u "Disk full")) logging.ERROR false
                                None) [] false [])
           (mkState (Alert_init (u "Disk is full on db1")
                                (Some (u "Disk full")) logging.ERROR false
                                None) [] false [])).
  - reflexivity.
  - reflexivity.
Defined.

(** ** Sending twice to the same list *)

Lemma service_email_has_at (x : ustring) :
  contains at_sign (service_email x) = true.
Proof.
  unfold service_email. rewrite contains_app.
  change (contains at_sign pagerduty_com) with true. apply orb_true_r.
Qed.

Lemma bad_recipient_normalize_one (x : ustring) :
  bad_recipient (normalize_one x) = false.
Proof.
  unfold bad_recipient, normalize_one.
  destruct (endswith x khanacademy_org) eqn:Hx.
  - now rewrite Hx.
  - assert (H : endswith (x ++ khanacademy_org) khanacademy_org = true)
      by (apply endswith_true; eauto).
    now rewrite H.
Qed.

(** X11: the names that [send_to_pagerduty] has written back into the
    caller's list are addresses, so a second [send_to_pagerduty] with the
    same list, not empty, raises [ValueError] on its first element; it
    sends nothing and leaves the list as the first call left it. *)
Theorem pagerduty_list_not_reusable (E : env) (now1 now2 : Q) (l : nat)
    (x : ustring) (xs : list ustring) (st st1 st2 : state) :
  st_heap st !! l = Some (x :: xs) ->
  (forall y, y ∈ x :: xs -> contains at_sign y = false) ->
  _passed_rate_limit now1 "pagerduty" st = (inr true, st1) ->
  _passed_rate_limit now2 "pagerduty"
    (snd (send_to_pagerduty E now1 (NList l) st)) = (inr true, st2) ->
  fst (send_to_pagerduty E now1 (NList l) st) = inr (st_self st1)
  /\ st_heap st2 !! l = Some (service_email <$> x :: xs)
  /\ send_to_pagerduty E now2 (NList l)
       (snd (send_to_pagerduty E now1 (NList l) st))
     = (inl (ValueError "Specify PagerDuty service names, not addresses (%s)"
                        (service_email x)),
        st2).
Proof.
  intros Hl Hok Hp1 Hp2.
  pose proof (passed_heap _ _ _ _ _ Hp1) as Hh1.
  assert (Hv : valid_names (st_heap st1) (NList l))
    by (cbn; rewrite Hh1, Hl; eauto).
  assert (Hok1 : forall y, y ∈ arg_strings (st_heap st1) (NList l) ->
                           contains at_sign y = false)
    by (cbn; rewrite Hh1, Hl; exact Hok).
  pose proof (passed_heap _ _ _ _ _ Hp2) as Hh2.
  rewrite (send_to_pagerduty_passed E _ _ _ _ Hp1) in Hp2, Hh2 |- *.
  rewrite (pagerduty_plan_good E _ _ _ _ Hv Hok1) in Hp2, Hh2 |- *.
  unfold plan_result in Hp2, Hh2 |- *. cbn [fst snd] in Hp2, Hh2 |- *.
  split; [reflexivity|].
  rewrite add_trace_heap in Hh2. cbn [set_heap st_heap converted] in Hh2.
  rewrite Hh1, Hl in Hh2. cbn [default] in Hh2.
  assert (Hl2 : st_heap st2 !! l = Some (service_email <$> x :: xs)).
  { rewrite Hh2. apply list_lookup_insert_eq.
    apply lookup_lt_Some in Hl. exact Hl. }
  split; [exact Hl2|].
  rewrite (send_to_pagerduty_passed E _ _ _ _ Hp2).
  unfold plan_result, pagerduty_plan, convert_arg. rewrite Hl2.
  rewrite fmap_cons. cbn [convert_list]. rewrite pagerduty_step_spec.
  rewrite service_email_has_at. cbn [fst snd].
  rewrite <- fmap_cons, (list_insert_id _ _ _ Hl2). now rewrite set_heap_id.
Qed.

Lemma pagerduty_list_not_reusable_witness :
  let self := Alert_init (u "Site is down") None logging.CRITICAL false None in
  let st := mkState self [[u "Site Down!"]] false [] in
  let st' := snd (send_to_pagerduty E_up 5 (NList 0) st) in
  st_heap st' = [[u "sitedown@khan-academy.pagerduty.com"]]
  /\ fst (send_to_pagerduty E_up 6 (NList 0) st')
     = inl (ValueError "Specify PagerDuty service names, not addresses (%s)"
                       (u "sitedown@khan-academy.pagerduty.com"))
  /\ st_trace (snd (send_to_pagerduty E_up 6 (NList 0) st')) = st_trace st'.
Proof.
  cbv zeta.
  set (st := mkState (Alert_init (u "Site is down") None logging.CRITICAL
                                 false None) [[u "Site Down!"]] false []).
  set (st' := snd (send_to_pagerduty E_up 5 (NList 0) st)).
  split; [reflexivity|].
  assert (H : send_to_pagerduty E_up 6 (NList 0) st'
              = (inl (ValueError
                        "Specify PagerDuty service names, not addresses (%s)"
                        (service_email (u "Site Down!"))), st')).
  { refine (proj2 (proj2 (pagerduty_list_not_reusable E_up 5%Q 6%Q 0
                            (u "Site Down!") [] st st st' _ _ _ _))).
    - reflexivity.
    - intros y Hy. apply list_elem_of_singleton in Hy. now subst y.
    - reflexivity.
    - reflexivity. }
  rewrite H. split; reflexivity.
Defined.

Lemma all_accepted_after (h h1 : list (list ustring)) (arg : option names) :
  valid_arg h arg ->
  (forall l xs, arg = Some (NList l) -> h !! l = Some xs ->
                h1 !! l = Some (normalize_one <$> xs)) ->
  all_accepted h arg -> all_accepted h1 arg.
Proof.
  intros Hv Hl Hacc a x -> Hx. destruct a as [s|l].
  - apply (Hacc (NStr s) x eq_refl Hx).
  - destruct Hv as [xs Hxs]. cbn in Hx.
    rewrite (Hl l xs eq_refl Hxs) in Hx. cbn in Hx.
    apply list_elem_of_fmap in Hx as (y & -> & _).
    apply bad_recipient_normalize_one.
Qed.

Lemma recipients_after (h h1 : list (list ustring)) (arg : option names) :
  valid_arg h arg ->
  (forall l xs, arg = Some (NList l) -> h !! l = Some xs ->
                h1 !! l = Some (normalize_one <$> xs)) ->
  recipients h1 arg = recipients h arg.
Proof.
  intros Hv Hl. destruct arg as [[s|l]|]; [reflexivity| |reflexivity].
  destruct Hv as [xs Hxs]. unfold recipients. cbn.
  rewrite (Hl l xs eq_refl Hxs), Hxs. cbn. f_equal.
  rewrite <- list_fmap_compose. apply list_fmap_ext.
  intros i y _. apply normalize_one_idem.
Qed.

(** X12: [send_to_email] can be called again with the lists it has
    overwritten: when no recipient is refused, a second call with the same
    arguments sends to the same recipients as the first, and leaves every
    list as the first call left it. *)
Theorem email_lists_reusable (E : env) (now1 now2 : Q)
    (email_usernames cc bcc : option names) (sender : option ustring)
    (st st1 st2 : state) :
  valid_arg (st_heap st) email_usernames ->
  valid_arg (st_heap st) cc -> valid_arg (st_heap st) bcc ->
  all_accepted (st_heap st) email_usernames ->
  all_accepted (st_heap st) cc -> all_accepted (st_heap st) bcc ->
  _passed_rate_limit now1 "email" st = (inr true, st1) ->
  _passed_rate_limit now2 "email"
    (snd (send_to_email E now1 email_usernames cc bcc sender st))
  = (inr true, st2) ->
  exists h1 h2,
    send_to_email E now1 email_usernames cc bcc sender st
    = (inr (st_self st1),
       add_trace (set_heap st1 h1)
         (email_events E (st_self st1) (st_test_mode st1) sender
            (recipients (st_heap st) email_usernames)
            (recipients (st_heap st) cc) (recipients (st_heap st) bcc)))
    /\ send_to_email E now2 email_usernames cc bcc sender
         (snd (send_to_email E now1 email_usernames cc bcc sender st))
       = (inr (st_self st2),
          add_trace (set_heap st2 h2)
            (email_events E (st_self st2) (st_test_mode st2) sender
               (recipients (st_heap st) email_usernames)
               (recipients (st_heap st) cc) (recipients (st_heap st) bcc)))
    /\ (forall arg l xs,
           arg ∈ [email_usernames; cc; bcc] ->
           arg = Some (NList l) -> st_heap st !! l = Some xs ->
           h1 !! l = Some (normalize_one <$> xs)
           /\ h2 !! l = Some (normalize_one <$> xs)).
Proof.
  intros Hvu Hvc Hvb Hu Hc Hb Hp1 Hp2.
  pose proof (passed_heap _ _ _ _ _ Hp1) as Hh1.
  pose proof (passed_heap _ _ _ _ _ Hp2) as Hh2.
  rewrite (send_to_email_passed E _ _ _ _ _ _ _ Hp1) in Hp2, Hh2 |- *.
  rewrite Hh1 in Hp2, Hh2 |- *.
  destruct (email_plan_good E (st_self st1) (st_test_mode st1)
              email_usernames cc bcc sender (st_heap st)
              Hvu Hvc Hvb Hu Hc Hb) as (h1 & Hplan1 & Hn1 & Hl1).
  rewrite Hplan1 in Hp2, Hh2 |- *.
  unfold plan_result in Hp2, Hh2 |- *. cbn [fst snd] in Hp2, Hh2 |- *.
  rewrite add_trace_heap in Hh2. cbn [set_heap st_heap] in Hh2.
  rewrite (send_to_email_passed E _ _ _ _ _ _ _ Hp2). rewrite Hh2.
  assert (Hin : forall arg, arg ∈ [email_usernames; cc; bcc] ->
                  forall l xs, arg = Some (NList l) ->
                    st_heap st !! l = Some xs ->
                    h1 !! l = Some (normalize_one <$> xs))
    by (intros arg Harg l xs; now apply Hl1).
  assert (Hiu : email_usernames ∈ [email_usernames; cc; bcc]) by left.
  assert (Hic : cc ∈ [email_usernames; cc; bcc]) by (right; left).
  assert (Hib : bcc ∈ [email_usernames; cc; bcc]) by (right; right; left).
  destruct (email_plan_good E (st_self st2) (st_test_mode st2)
              email_usernames cc bcc sender h1
              (normalized_from_valid _ _ _ Hn1 Hvu)
              (normalized_from_valid _ _ _ Hn1 Hvc)
              (normalized_from_valid _ _ _ Hn1 Hvb)
              (all_accepted_after _ _ _ Hvu (Hin _ Hiu) Hu)
              (all_accepted_after _ _ _ Hvc (Hin _ Hic) Hc)
              (all_accepted_after _ _ _ Hvb (Hin _ Hib) Hb))
    as (h2 & Hplan2 & _ & Hl2).
  rewrite Hplan2.
  rewrite (recipients_after _ _ _ Hvu (Hin _ Hiu)),
          (recipients_after _ _ _ Hvc (Hin _ Hic)),
          (recipients_after _ _ _ Hvb (Hin _ Hib)).
  exists h1, h2. split; [reflexivity|]. split; [reflexivity|].
  intros arg l xs Harg Heq Hxs.
  pose proof (Hl1 arg l xs Harg Heq Hxs) as H1. split; [exact H1|].
  rewrite (Hl2 arg l _ Harg Heq H1). f_equal.
  rewrite <- list_fmap_compose. apply list_fmap_ext.
  intros i y _. apply normalize_one_idem.
Qed.

Lemma email_lists_reusable_witness :
  let self := Alert_init (u "Disk full") None logging.ERROR false None in
  let st := mkState self [[u "ops"; u "oncall@khanacademy.org"]] true [] in
  let to := Some [u "ops@khanacademy.org"; u "oncall@khanacademy.org"] in
  let st' := snd (send_to_email E_up 5 (Some (NList 0)) None None None st) in
  exists h1 h2,
    send_to_email E_up 5 (Some (NList 0)) None None None st
    = (inr self,
       add_trace (set_heap st h1)
                 (email_events E_up self true None to None None))
    /\ send_to_email E_up 6 (Some (NList 0)) None None None st'
       = (inr self,
          add_trace (set_heap st' h2)
                    (email_events E_up self true None to None None))
    /\ (forall arg l xs,
           arg ∈ [Some (NList 0); None; None] ->
           arg = Some (NList l) -> st_heap st !! l = Some xs ->
           h1 !! l = Some (normalize_one <$> xs)
           /\ h2 !! l = Some (normalize_one <$> xs)).
Proof.
  cbv zeta.
  set (st := mkState (Alert_init (u "Disk full") None logging.ERROR false
                                 None)
                     [[u "ops"; u "oncall@khanacademy.org"]] true []).
  refine (email_lists_reusable E_up 5%Q 6%Q (Some (NList 0)) None None None
            st st
            (snd (send_to_email E_up 5 (Some (NList 0)) None None None st))
            _ _ _ _ _ _ _ _).
  - cbn. eauto.
  - exact I.
  - exact I.
  - intros a x [= <-] Hx. cbn in Hx.
    repeat (apply elem_of_cons in Hx as [-> | Hx]); try reflexivity.
    now apply elem_of_nil in Hx.
  - intros a x [=].
  - intros a x [=].
  - reflexivity.
  - reflexivity.
Defined.

(** ** The mails handed to the transports *)

Lemma lstrip_nl_spec (s : ustring) :
  exists k, s = repeat newline k ++ lstrip_nl s
            /\ hd_error (lstrip_nl s) <> Some newline.
Proof.
  induction s as [|c s (k & IH1 & IH2)].
  - exists 0%nat. split; [reflexivity | discriminate].
  - cbn [lstrip_nl]. destruct (N.eqb_spec c 10) as [->|Hc].
    + exists (S k). split; [|exact IH2]. cbn. now rewrite <- IH1.
    + exists 0%nat. split; [reflexivity|]. cbn. intros [= ?]. now apply Hc.
Qed.

Lemma rstrip_nl_spec (s : ustring) :
  exists k, s = rstrip_nl s ++ repeat newline k
            /\ last (rstrip_nl s) <> Some newline.
Proof.
  destruct (lstrip_nl_spec (rev s)) as (k & H1 & H2). exists k.
  unfold rstrip_nl. split.
  - rewrite <- (rev_involutive s) at 1. rewrite H1 at 1.
    rewrite rev_app_distr. f_equal.
    clear. induction k as [|k IH]; [reflexivity|].
    cbn [repeat rev]. rewrite IH. symmetry. apply repeat_cons.
  - rewrite rev_alt.
    change (last (reverse (lstrip_nl (rev s))) <> Some newline).
    rewrite last_reverse. exact H2.
Qed.

Lemma delivery_events_body (E : env) (self : Alert) (sender : option ustring)
    (to cc bcc : option (list ustring)) (contents : pyval) (e : event)
    (b : ustring) :
  e ∈ delivery_events E self sender to cc bcc contents ->
  mail_body e = Some b -> b = rstrip_nl (message self) ++ [newline].
Proof.
  unfold delivery_events. cbv zeta. intros Hin Hb.
  apply elem_of_cons in Hin as [-> | Hin]; [now inversion Hb|].
  destruct (google_mail_send_mail E _) as [why|];
    [|now apply elem_of_nil in Hin].
  destruct (gae_unavailable why).
  - apply elem_of_cons in Hin as [-> | Hin]; [now inversion Hb|].
    destruct (smtp_sendmail E _) as [why'|]; [|now apply elem_of_nil in Hin].
    destruct (smtp_failure why'); apply list_elem_of_singleton in Hin;
      subst e; discriminate.
  - apply list_elem_of_singleton in Hin. subst e. discriminate.
Qed.

(** The events that a [send_to_email] adds to the trace. *)
Lemma email_new_events (E : env) (now : Q)
    (email_usernames cc bcc : option names) (sender : option ustring)
    (st : state) (evs : list event) :
  valid_arg (st_heap st) email_usernames ->
  valid_arg (st_heap st) cc -> valid_arg (st_heap st) bcc ->
  st_trace (snd (send_to_email E now email_usernames cc bcc sender st))
  = st_trace st ++ evs ->
  evs = []
  \/ exists to ccs bccs,
       evs = email_events E (st_self (after_check now "email" st))
                          (st_test_mode st) sender to ccs bccs.
Proof.
  intros Hvu Hvc Hvb Htrace.
  destruct (after_check_run now "email" st) as [[] Hb].
  - rewrite (send_to_email_passed E _ _ _ _ _ _ _ Hb) in Htrace.
    pose proof (email_plan_cases E (st_self (after_check now "email" st))
                  (st_test_mode (after_check now "email" st))
                  email_usernames cc bcc sender
                  (st_heap (after_check now "email" st))) as Hcases.
    rewrite after_check_heap in Hcases. specialize (Hcases Hvu Hvc Hvb).
    rewrite after_check_heap in Htrace. unfold plan_result in Htrace.
    destruct (snd (email_plan _ _ _ _ _ _ _ _)) as [e|evs'].
    + left. cbn in Htrace. rewrite after_check_trace in Htrace.
      rewrite <- (app_nil_r (st_trace st)) in Htrace at 1.
      now apply app_inv_head in Htrace.
    + right. destruct Hcases as (to & ccs & bccs & ->).
      cbn in Htrace. rewrite after_check_trace in Htrace.
      apply app_inv_head in Htrace. subst evs.
      rewrite after_check_test_mode. eauto.
  - left. rewrite (send_to_email_denied E _ _ _ _ _ _ _ Hb) in Htrace.
    cbn in Htrace. rewrite after_check_trace in Htrace.
    rewrite <- (app_nil_r (st_trace st)) in Htrace at 1.
    now apply app_inv_head in Htrace.
Qed.

(** The events that a [send_to_pagerduty] adds to the trace. *)
Lemma pagerduty_new_events (E : env) (now : Q)
    (pagerduty_servicenames : names) (st : state) (evs : list event) :
  valid_names (st_heap st) pagerduty_servicenames ->
  st_trace (snd (send_to_pagerduty E now pagerduty_servicenames st))
  = st_trace st ++ evs ->
  evs = []
  \/ exists to,
       evs = pagerduty_events E (st_self (after_check now "pagerduty" st))
                              (st_test_mode st) to.
Proof.
  intros Hv Htrace.
  destruct (after_check_run now "pagerduty" st) as [[] Hb].
  - rewrite (send_to_pagerduty_passed E _ _ _ _ Hb) in Htrace.
    pose proof (pagerduty_plan_cases E
                  (st_self (after_check now "pagerduty" st))
                  (st_test_mode (after_check now "pagerduty" st))
                  pagerduty_servicenames
                  (st_heap (after_check now "pagerduty" st))) as Hcases.
    rewrite after_check_heap in Hcases. specialize (Hcases Hv).
    rewrite after_check_heap in Htrace. unfold plan_result in Htrace.
    destruct (snd (pagerduty_plan _ _ _ _ _)) as [e|evs'].
    + left. cbn in Htrace. rewrite after_check_trace in Htrace.
      rewrite <- (app_nil_r (st_trace st)) in Htrace at 1.
      now apply app_inv_head in Htrace.
    + right. destruct Hcases as (to & ->).
      cbn in Htrace. rewrite after_check_trace in Htrace.
      apply app_inv_head in Htrace. subst evs.
      rewrite after_check_test_mode. eauto.
  - left. rewrite (send_to_pagerduty_denied E _ _ _ _ Hb) in Htrace.
    cbn in Htrace. rewrite after_check_trace in Htrace.
    rewrite <- (app_nil_r (st_trace st)) in Htrace at 1.
    now apply app_inv_head in Htrace.
Qed.

Lemma after_check_message (now : Q) (name : string) (st : state) :
  message (st_self (after_check now name st)) = message (st_self st).
Proof. destruct (after_check_self now name st) as [-> | ->]; reflexivity. Qed.

(** The events of a dispatch by mail are those of a delivery, or one
    record in test mode, or none. *)
Lemma mail_new_events (E : env) (now : Q) (st : state) (evs : list event) :
  (exists email_usernames cc bcc sender,
      valid_arg (st_heap st) email_usernames
      /\ valid_arg (st_heap st) cc /\ valid_arg (st_heap st) bcc
      /\ st_trace (snd (send_to_email E now email_usernames cc bcc sender st))
         = st_trace st ++ evs)
  \/ (exists pagerduty_servicenames,
         valid_names (st_heap st) pagerduty_servicenames
         /\ st_trace (snd (send_to_pagerduty E now pagerduty_servicenames st))
            = st_trace st ++ evs) ->
  evs = []
  \/ (exists contents, evs = [would_send contents])
  \/ (exists self sender to cc bcc contents,
         message self = message (st_self st)
         /\ evs = delivery_events E self sender to cc bcc contents).
Proof.
  intros [(eu & cc & bcc & sender & Hvu & Hvc & Hvb & Htrace)
         |(names & Hv & Htrace)].
  - destruct (email_new_events E _ _ _ _ _ _ _ Hvu Hvc Hvb Htrace)
      as [-> | (to & ccs & bccs & ->)]; [now left|].
    right. unfold email_events. destruct (st_test_mode st); [left; eauto|].
    right. do 6 eexists. split; [|reflexivity]. apply after_check_message.
  - destruct (pagerduty_new_events E _ _ _ _ Hv Htrace) as [-> | (to & ->)];
      [now left|].
    right. unfold pagerduty_events. destruct (st_test_mode st); [left; eauto|].
    right. do 6 eexists. split; [|reflexivity]. apply after_check_message.
Qed.

(** X13: the body of every mail that [send_to_email] or
    [send_to_pagerduty] hands to the mail API or to the local relay is the
    message of the alert with the newlines at its end replaced by a single
    one. *)
Theorem mail_ends_in_one_newline (E : env) (now : Q) (st : state)
    (evs : list event) (e : event) (body : ustring) :
  (exists email_usernames cc bcc sender,
      valid_arg (st_heap st) email_usernames
      /\ valid_arg (st_heap st) cc /\ valid_arg (st_heap st) bcc
      /\ st_trace (snd (send_to_email E now email_usernames cc bcc sender st))
         = st_trace st ++ evs)
  \/ (exists pagerduty_servicenames,
         valid_names (st_heap st) pagerduty_servicenames
         /\ st_trace (snd (send_to_pagerduty E now pagerduty_servicenames st))
            = st_trace st ++ evs) ->
  e ∈ evs -> mail_body e = Some body ->
  ends_in_one_newline (message (st_self st)) body.
Proof.
  intros Hsent Hin Hbody.
  destruct (mail_new_events E now st evs Hsent)
    as [-> | [(contents & ->)
             | (self & sender & to & cc & bcc & contents & Hmsg & ->)]].
  - now apply elem_of_nil in Hin.
  - apply list_elem_of_singleton in Hin. subst e. discriminate.
  - apply (delivery_events_body _ _ _ _ _ _ _ _ _ Hin) in Hbody.
    rewrite Hmsg in Hbody. subst body.
    destruct (rstrip_nl_spec (message (st_self st))) as (k & H1 & H2).
    exists (rstrip_nl (message (st_self st))), k. auto.
Qed.

Lemma mail_ends_in_one_newline_witness :
  let text := u "Site is down" in
  let self := Alert_init (text ++ [newline; newline; newline]) None
                         logging.CRITICAL false None in
  let st := mkState self [] false [] in
  let to := Some [u "ops@khan-academy.pagerduty.com"] in
  let body := text ++ [newline] in
  Sendmail (sendmail_args_of self None body to None None)
    ∈ st_trace (snd (send_to_pagerduty E_down 5 (NStr (u "ops")) st))
  /\ ends_in_one_newline (message self) body.
Proof.
  cbv zeta. split.
  - right. left.
  - refine (mail_ends_in_one_newline E_down 5%Q
              (mkState (Alert_init (u "Site is down"
                                    ++ [newline; newline; newline]) None
                                   logging.CRITICAL false None) [] false [])
              (st_trace (snd (send_to_pagerduty E_down 5 (NStr (u "ops"))
                 (mkState (Alert_init (u "Site is down"
                                       ++ [newline; newline; newline]) None
                                      logging.CRITICAL false None)
                          [] false []))))
              (Sendmail (sendmail_args_of
                           (Alert_init (u "Site is down"
                                        ++ [newline; newline; newline]) None
                                       logging.CRITICAL false None)
                           None (u "Site is down" ++ [newline])
                           (Some [u "ops@khan-academy.pagerduty.com"])
                           None None))
              _ _ _ _).
    + right. exists (NStr (u "ops")). split; [exact I | reflexivity].
    + right. left.
    + reflexivity.
Defined.

(** ** The sender of a mail *)

Lemma count_char_app (c : uchar) (s t : ustring) :
  count_char c (s ++ t) = (count_char c s + count_char c t)%nat.
Proof. unfold count_char. now rewrite List.filter_app, length_app. Qed.

(** The tag made of the rest of the sender holds word characters and ['-']
    only. *)
Lemma sender_tag_chars (s : ustring) :
  let tag := List.map (fun c => if is_word_char c then c else 45%N) s in
  forallb sender_char tag = true
  /\ (forall c, is_word_char c = false -> c <> 45%N -> count_char c tag = 0%nat)
  /\ length tag = length s.
Proof.
  cbv zeta. induction s as [|c s (IH1 & IH2 & IH3)].
  - repeat split.
  - cbn [List.map forallb length]. rewrite IH1, IH3. repeat split.
    + rewrite andb_true_r. unfold sender_char.
      destruct (is_word_char c) eqn:Hc; [now rewrite Hc | reflexivity].
    + intros c' Hw Hd. unfold count_char in *. cbn [List.filter].
      destruct (is_word_char c) eqn:Hc.
      * destruct (N.eqb_spec c' c) as [->|_]; [congruence | now apply IH2].
      * destruct (N.eqb_spec c' 45) as [?|_]; [contradiction | now apply IH2].
Qed.

(** X14: whatever the caller passes as [sender], the sender of a mail is
    [alertlib <no-reply@khanacademy.org>] with, for a sender that is not
    empty, a tag [+...] of the length of the sender plus one before the
    ['@']: it holds only letters, digits and the characters [_ <>@.+-],
    one ['<'], one ['>'] and one ['@'], so no line break and no second
    address. *)
Theorem get_sender_safe (sender : option ustring) :
  (exists tag,
      _get_sender sender
      = u "alertlib <no-reply" ++ tag ++ u "@khanacademy.org>"
      /\ length tag
         = (if truthy_text sender then S (length (default [] sender))
            else 0%nat))
  /\ forallb sender_char (_get_sender sender) = true
  /\ count_char at_sign (_get_sender sender) = 1%nat
  /\ count_char 60%N (_get_sender sender) = 1%nat
  /\ count_char 62%N (_get_sender sender) = 1%nat
  /\ contains 10%N (_get_sender sender) = false
  /\ contains 13%N (_get_sender sender) = false.
Proof.
  unfold _get_sender. cbv zeta.
  set (tag := if truthy_text sender
              then u "+" ++ List.map (fun c => if is_word_char c then c
                                               else 45%N) (default [] sender)
              else []).
  destruct (sender_tag_chars (default [] sender)) as (H1 & H2 & H3).
  cbv zeta in H1, H2, H3.
  assert (Hsafe : forallb sender_char tag = true).
  { unfold tag. destruct (truthy_text sender); [|reflexivity].
    rewrite forallb_app, H1. reflexivity. }
  assert (Hcount : forall c, is_word_char c = false -> c <> 45%N ->
                             c <> 43%N -> count_char c tag = 0%nat).
  { intros c Hw Hd Hp. unfold tag. destruct (truthy_text sender);
      [|reflexivity].
    rewrite count_char_app, (H2 c Hw Hd). unfold count_char.
    change (u "+") with [43%N]. cbn [List.filter].
    destruct (N.eqb_spec c 43); [contradiction | reflexivity]. }
  assert (Hlen : length tag = if truthy_text sender
                              then S (length (default [] sender))
                              else 0%nat).
  { unfold tag. destruct (truthy_text sender); [|reflexivity].
    rewrite length_app, H3. reflexivity. }
  assert (Hno : forall c, is_word_char c = false -> c <> 45%N -> c <> 43%N ->
                          contains c tag = false).
  { intros c Hw Hd Hp. specialize (Hcount c Hw Hd Hp).
    unfold count_char in Hcount. unfold contains.
    destruct (existsb (N.eqb c) tag) eqn:Hex; [|reflexivity].
    apply existsb_exists in Hex as (x & Hx & Hcx).
    assert (Hin : In x (List.filter (N.eqb c) tag))
      by (apply List.filter_In; auto).
    destruct (List.filter (N.eqb c) tag); [destruct Hin | discriminate]. }
  split; [|split; [|split; [|split; [|split; [|split]]]]].
  - exists tag. split; [|exact Hlen]. now rewrite <- !app_assoc.
  - rewrite !forallb_app, Hsafe. reflexivity.
  - rewrite !count_char_app, Hcount by (reflexivity || discriminate).
    reflexivity.
  - rewrite !count_char_app, Hcount by (reflexivity || discriminate).
    reflexivity.
  - rewrite !count_char_app, Hcount by (reflexivity || discriminate).
    reflexivity.
  - rewrite !contains_app, Hno by (reflexivity || discriminate). reflexivity.
  - rewrite !contains_app, Hno by (reflexivity || discriminate). reflexivity.
Qed.

(** ** The two transports *)

Lemma delivery_events_transports (E : env) (self : Alert)
    (sender : option ustring) (to cc bcc : option (list ustring))
    (contents : pyval) :
  let evs := delivery_events E self sender to cc bcc contents in
  exists g,
    List.filter is_gae evs = [GaeSendMail g]
    /\ (List.filter is_sendmail evs = []
        \/ exists s why,
             List.filter is_sendmail evs = [Sendmail s]
             /\ google_mail_send_mail E g = Some why
             /\ gae_unavailable why = true /\ same_mail g s).
Proof.
  cbv zeta. unfold delivery_events. cbv zeta.
  eexists. cbn [List.filter is_gae is_sendmail].
  destruct (google_mail_send_mail E _) as [why|] eqn:Hgae.
  - destruct (gae_unavailable why) eqn:Hwhy.
    + cbn [List.filter is_gae is_sendmail].
      destruct (smtp_sendmail E _) as [why'|];
        [destruct (smtp_failure why')|];
        (split; [reflexivity|]); right; do 2 eexists;
        (split; [reflexivity|]); (split; [exact Hgae|]);
        (split; [exact Hwhy|]); repeat split.
    + split; [reflexivity | now left].
  - split; [reflexivity | now left].
Qed.

(** X15: a dispatch by mail asks the mail API at most once and the local
    relay at most once, and the relay only after the mail API raised
    [NameError] or [AssertionError], with the same subject, sender,
    recipients and body: a mail that the mail API accepted is not sent a
    second time. *)
Theorem mail_not_sent_twice (E : env) (now : Q) (st : state)
    (evs : list event) :
  (exists email_usernames cc bcc sender,
      valid_arg (st_heap st) email_usernames
      /\ valid_arg (st_heap st) cc /\ valid_arg (st_heap st) bcc
      /\ st_trace (snd (send_to_email E now email_usernames cc bcc sender st))
         = st_trace st ++ evs)
  \/ (exists pagerduty_servicenames,
         valid_names (st_heap st) pagerduty_servicenames
         /\ st_trace (snd (send_to_pagerduty E now pagerduty_servicenames st))
            = st_trace st ++ evs) ->
  (length (List.filter is_gae evs) <= 1)%nat
  /\ (length (List.filter is_sendmail evs) <= 1)%nat
  /\ (forall s, Sendmail s ∈ evs ->
        exists g why,
          List.filter is_gae evs = [GaeSendMail g]
          /\ google_mail_send_mail E g = Some why
          /\ gae_unavailable why = true /\ same_mail g s).
Proof.
  intros Hsent.
  destruct (mail_new_events E now st evs Hsent)
    as [-> | [(contents & ->)
             | (self & sender & to & cc & bcc & contents & _ & ->)]].
  - repeat split; cbn; try lia. intros s Hs. now apply elem_of_nil in Hs.
  - repeat split; cbn; try lia. intros s Hs.
    apply list_elem_of_singleton in Hs. discriminate.
  - destruct (delivery_events_transports E self sender to cc bcc contents)
      as (g & Hg & Hs). cbv zeta in Hg, Hs. rewrite Hg.
    split; [cbn; lia|].
    destruct Hs as [Hs | (s & why & Hs & Hgae & Hwhy & Hsame)]; rewrite Hs;
      (split; [cbn; lia|]); intros s' Hin.
    + assert (H : In (Sendmail s') (List.filter is_sendmail
                (delivery_events E self sender to cc bcc contents))).
      { apply List.filter_In. split; [|reflexivity].
        now apply list_elem_of_In. }
      rewrite Hs in H. destruct H.
    + assert (H : In (Sendmail s') (List.filter is_sendmail
                (delivery_events E self sender to cc bcc contents))).
      { apply List.filter_In. split; [|reflexivity].
        now apply list_elem_of_In. }
      rewrite Hs in H. destruct H as [[= <-] | []].
      exists g, why. split; [reflexivity|]. split; [exact Hgae|].
      split; [exact Hwhy | exact Hsame].
Qed.

Lemma mail_not_sent_twice_witness :
  let self := Alert_init (u "Site is down") None logging.CRITICAL false
                         None in
  let st := mkState self [] false [] in
  let evs := st_trace (snd (send_to_pagerduty E_down 5 (NStr (u "ops")) st)) in
  (length (List.filter is_gae evs) <= 1)%nat
  /\ (length (List.filter is_sendmail evs) <= 1)%nat
  /\ (forall s, Sendmail s ∈ evs ->
        exists g why,
          List.filter is_gae evs = [GaeSendMail g]
          /\ google_mail_send_mail E_down g = Some why
          /\ gae_unavailable why = true /\ same_mail g s).
Proof.
  cbv zeta.
  apply (mail_not_sent_twice E_down 5%Q
           (mkState (Alert_init (u "Site is down") None logging.CRITICAL
                                false None) [] false [])).
  right. exists (NStr (u "ops")). split; [exact I | reflexivity].
Defined.

(** ** The cached socket to graphite *)

Lemma split_char_two (c : uchar) (a b : ustring) :
  contains c a = false -> contains c b = false ->
  split_char c (a ++ c :: b) = [a; b].
Proof.
  intros Ha Hb.
  assert (Hb' : split_char c b = [b]).
  { clear Ha. induction b as [|x b IH]; [reflexivity|].
    cbn in Hb |- *. apply orb_false_iff in Hb as [Hx Hb].
    rewrite N.eqb_sym, Hx. now rewrite (IH Hb). }
  induction a as [|x a IH].
  - cbn. now rewrite N.eqb_refl, Hb'.
  - cbn in Ha |- *. apply orb_false_iff in Ha as [Hx Ha].
    rewrite N.eqb_sym, Hx. now rewrite (IH Ha).
Qed.

(** X16: a call of [_graphite_socket] that answers a socket leaves it
    cached with the time of its connection, and every call made within
    600 seconds of that time answers the same socket, whatever host it is
    asked for, without resolving a name and without touching a socket. *)
Theorem graphite_socket_cached (W : net) (now later : Q)
    (hostport : ustring) (g g1 : graphite_state) (s : nat) :
  _graphite_socket W now later hostport g = (inr s, g1) ->
  exists t,
    _GRAPHITE_SOCKET g1 = Some s /\ _LAST_GRAPHITE_TIME g1 = Some t
    /\ (g1 = g \/ t = later)
    /\ (forall (W' : net) (now' later' : Q) (hostport' : ustring),
          (now' - t <= 600)%Q ->
          _graphite_socket W' now' later' hostport' g1 = (inr s, g1)).
Proof.
  intros Hcall.
  assert (Hconnect : forall g0,
             graphite_connect W later hostport g0 = (inr s, g1) ->
             _GRAPHITE_SOCKET g1 = Some s
             /\ _LAST_GRAPHITE_TIME g1 = Some later).
  { intros g0. unfold graphite_connect.
    destruct (split_char colon hostport) as [|a [|b [|? ?]]];
      try discriminate.
    destruct (gethostbyname W a); [discriminate|].
    destruct (int_of_text W b); [discriminate|].
    destruct (socket_socket W); [discriminate|].
    destruct (socket_connect W _ _); [discriminate|].
    intros [= <- <-]. split; reflexivity. }
  assert (Hreuse : forall t,
             _GRAPHITE_SOCKET g1 = Some s ->
             _LAST_GRAPHITE_TIME g1 = Some t ->
             forall (W' : net) (now' later' : Q) (hostport' : ustring),
               (now' - t <= 600)%Q ->
               _graphite_socket W' now' later' hostport' g1 = (inr s, g1)).
  { intros t Hs Ht W' now' later' hostport' Hle.
    unfold _graphite_socket. rewrite Hs, Ht.
    assert (H : Qgt_bool (now' - t) 600 = false)
      by (apply Qgt_bool_false; lra).
    now rewrite H. }
  unfold _graphite_socket in Hcall.
  destruct (_GRAPHITE_SOCKET g) as [s0|] eqn:Hs0.
  - destruct (_LAST_GRAPHITE_TIME g) as [last|] eqn:Hlast; [|discriminate].
    destruct (Qgt_bool (now - last) 600).
    + destruct (Hconnect _ Hcall) as [Hs Ht]. exists later. eauto 6.
    + inversion Hcall. subst. exists last. eauto 6.
  - destruct (Hconnect _ Hcall) as [Hs Ht]. exists later. eauto 6.
Qed.

Lemma graphite_socket_cached_witness :
  let g1 := mkGraphite (Some 0%nat) (Some 100%Q) 1
              [GetHostByName (u "carbon.hostedgraphite.com");
               SockNew 0; SockConnect 0 (u "10.0.0.1") 2003 None] in
  _graphite_socket net_up 99 100 DEFAULT_GRAPHITE_HOST graphite_initial
  = (inr 0%nat, g1)
  /\ _graphite_socket net_refusing 700 701 (u "other.example.org:2004") g1
     = (inr 0%nat, g1).
Proof.
  cbv zeta. split; [reflexivity|].
  destruct (graphite_socket_cached net_up 99%Q 100%Q DEFAULT_GRAPHITE_HOST
              graphite_initial
              (mkGraphite (Some 0%nat) (Some 100%Q) 1
                 [GetHostByName (u "carbon.hostedgraphite.com");
                  SockNew 0; SockConnect 0 (u "10.0.0.1") 2003 None])
              0%nat eq_refl) as (t & _ & Ht & _ & Hreuse).
  apply Hreuse. injection Ht as <-. unfold Qle. cbn. lia.
Defined.

(** *** No dead socket is answered *)

(** The three ways out of [graphite_connect]: it raises before a socket
    is made, it raises when the socket made cannot be connected, or it
    answers the socket made, connected. *)
Lemma graphite_connect_cases (W : net) (later : Q) (hostport : ustring)
    (g : graphite_state) :
  let n := sockets_made g in
  exists evs,
    forallb (fun e => negb (is_close e)) evs = true
    /\ ((exists e,
           graphite_connect W later hostport g = (inl e, socket_did g evs))
        /\ forallb (fun e => negb (is_new e)) evs = true
        \/ (exists e,
              graphite_connect W later hostport g
              = (inl e,
                 mkGraphite (Some n) (_LAST_GRAPHITE_TIME g) (S n)
                            (socket_trace g ++ evs)))
           /\ List.filter is_new evs = [SockNew n]
        \/ graphite_connect W later hostport g
           = (inr n,
              mkGraphite (Some n) (Some later) (S n) (socket_trace g ++ evs))
           /\ List.filter is_new evs = [SockNew n]
           /\ exists host_ip port, SockConnect n host_ip port None ∈ evs).
Proof.
  cbv zeta. unfold graphite_connect.
  assert (Hnone : socket_did g [] = g)
    by (destruct g; unfold socket_did; cbn; now rewrite app_nil_r).
  destruct (split_char colon hostport) as [|a [|b [|? ?]]].
  1,2,4: exists []; split; [reflexivity|]; left;
    (split; [|reflexivity]); rewrite Hnone; eauto.
  cbv zeta.
  destruct (gethostbyname W a) as [e|host_ip].
  { exists [GetHostByName a]. split; [reflexivity|]. left. eauto. }
  destruct (int_of_text W b) as [e|port].
  { exists [GetHostByName a]. split; [reflexivity|]. left. eauto. }
  destruct (socket_socket W) as [e|].
  { exists [GetHostByName a]. split; [reflexivity|]. left. eauto. }
  cbn [socket_did sockets_made socket_trace _LAST_GRAPHITE_TIME
       _GRAPHITE_SOCKET].
  exists [GetHostByName a; SockNew (sockets_made g);
          SockConnect (sockets_made g) host_ip port
                      (socket_connect W host_ip port)].
  split; [reflexivity|]. right. rewrite <- !app_assoc. cbn [app].
  destruct (socket_connect W host_ip port) as [e|].
  - left. split; [eauto | reflexivity].
  - right. split; [reflexivity|]. split; [reflexivity|].
    exists host_ip, port. right. right. left.
Qed.

Lemma no_close_not_in (evs : list socket_event) (s : nat) :
  forallb (fun e => negb (is_close e)) evs = true -> SockClose s ∉ evs.
Proof.
  intros H Hin. rewrite forallb_forall in H.
  apply list_elem_of_In in Hin. specialize (H _ Hin). discriminate.
Qed.

(** After [graphite_connect] on a state where every socket closed is
    older than those to come, the globals are as [graphite_inv] wants
    them when the old time, if any, is more than 600 seconds old. *)
Lemma graphite_connect_inv (W : net) (c later : Q) (hostport : ustring)
    (g : graphite_state) :
  (_GRAPHITE_SOCKET g = None -> _LAST_GRAPHITE_TIME g = None) ->
  (forall s, SockClose s ∈ socket_trace g -> (s < sockets_made g)%nat) ->
  (forall s, _GRAPHITE_SOCKET g = Some s -> (s < sockets_made g)%nat) ->
  (forall t, _LAST_GRAPHITE_TIME g = Some t -> (600 < c - t)%Q) ->
  graphite_inv c (snd (graphite_connect W later hostport g))
  /\ (forall s, fst (graphite_connect W later hostport g) = inr s ->
                live (socket_trace (snd (graphite_connect W later hostport g)))
                     s).
Proof.
  intros Hnone Hclose Hsock Hold.
  destruct (graphite_connect_cases W later hostport g)
    as (evs & Hevs & [[[e ->] Hnew] | [[[e ->] Hnew] | (-> & Hnew & Hconn)]]);
    cbn [fst snd].
  - split; [|discriminate]. unfold graphite_inv, socket_did.
    cbn [_GRAPHITE_SOCKET _LAST_GRAPHITE_TIME sockets_made socket_trace].
    split; [exact Hnone|]. split.
    { intros s Hs. apply elem_of_app in Hs as [Hs|Hs]; [now apply Hclose|].
      now apply no_close_not_in in Hs. }
    split; [exact Hsock|]. intros s t _ Ht. right. now apply Hold.
  - split; [|discriminate]. unfold graphite_inv.
    cbn [_GRAPHITE_SOCKET _LAST_GRAPHITE_TIME sockets_made socket_trace].
    split; [discriminate|]. split.
    { intros s Hs. apply elem_of_app in Hs as [Hs|Hs].
      - apply Hclose in Hs. lia.
      - now apply no_close_not_in in Hs. }
    split; [intros s [= <-]; lia|]. intros s t _ Ht. right. now apply Hold.
  - assert (Hlive : live (socket_trace g ++ evs) (sockets_made g)).
    { split.
      - destruct Hconn as (ip & port & Hin). exists ip, port.
        apply elem_of_app. now right.
      - intros Hin. apply elem_of_app in Hin as [Hin|Hin].
        + apply Hclose in Hin. lia.
        + now apply no_close_not_in in Hin. }
    split; [|intros s [= <-]; exact Hlive]. unfold graphite_inv.
    cbn [_GRAPHITE_SOCKET _LAST_GRAPHITE_TIME sockets_made socket_trace].
    split; [discriminate|]. split.
    { intros s Hs. apply elem_of_app in Hs as [Hs|Hs].
      - apply Hclose in Hs. lia.
      - now apply no_close_not_in in Hs. }
    split; [intros s [= <-]; lia|]. intros s t [= <-] _. now left.
Qed.

Lemma graphite_inv_later (c c' : Q) (g : graphite_state) :
  (c <= c')%Q -> graphite_inv c g -> graphite_inv c' g.
Proof.
  intros Hle (H1 & H2 & H3 & H4).
  split; [exact H1|]. split; [exact H2|]. split; [exact H3|].
  intros s t Hs Ht. destruct (H4 s t Hs Ht) as [Hl|Hl]; [now left|].
  right. lra.
Qed.

(** One call keeps [graphite_inv], and the socket it answers is live. *)
Lemma graphite_socket_inv (W : net) (c now later : Q) (hostport : ustring)
    (g : graphite_state) :
  graphite_inv c g -> (c <= now)%Q -> (now <= later)%Q ->
  graphite_inv later (snd (_graphite_socket W now later hostport g))
  /\ (forall s,
        fst (_graphite_socket W now later hostport g) = inr s ->
        live (socket_trace (snd (_graphite_socket W now later hostport g)))
             s).
Proof.
  intros Hinv Hc Hl. pose proof Hinv as (H1 & H2 & H3 & H4).
  unfold _graphite_socket.
  destruct (_GRAPHITE_SOCKET g) as [s0|] eqn:Hs0.
  - destruct (_LAST_GRAPHITE_TIME g) as [t|] eqn:Ht.
    + destruct (Qgt_bool (now - t) 600) eqn:Hstale.
      * apply Qgt_bool_true in Hstale.
        apply graphite_connect_inv;
          cbn [socket_did _GRAPHITE_SOCKET _LAST_GRAPHITE_TIME sockets_made
               socket_trace].
        -- rewrite Hs0. discriminate.
        -- intros s Hs. apply elem_of_app in Hs as [Hs|Hs]; [now apply H2|].
           apply list_elem_of_singleton in Hs. injection Hs as ->.
           now apply H3.
        -- rewrite Hs0. exact H3.
        -- rewrite Ht. intros t' [= <-]. lra.
      * apply Qgt_bool_false in Hstale. cbn [fst snd]. split.
        -- apply (graphite_inv_later c); [lra | exact Hinv].
        -- intros s [= <-]. destruct (H4 s0 t eq_refl eq_refl) as [Hlive|Hold];
             [exact Hlive|]. exfalso. apply Hstale. lra.
    + cbn [fst snd]. split; [|discriminate].
      apply (graphite_inv_later c); [lra | exact Hinv].
  - apply graphite_connect_inv.
    + intros _. exact (H1 eq_refl).
    + exact H2.
    + rewrite Hs0. discriminate.
    + rewrite (H1 eq_refl). discriminate.
Qed.

Lemma graphite_calls_app (calls : list socket_call) (c : socket_call)
    (g : graphite_state) :
  graphite_calls (calls ++ [c]) g
  = snd (_graphite_socket (call_net c) (call_now c) (call_later c)
                          (call_hostport c) (graphite_calls calls g)).
Proof. unfold graphite_calls. now rewrite fold_left_app. Qed.

Lemma graphite_calls_inv (calls : list socket_call) (last : socket_call)
    (c0 : Q) (g : graphite_state) :
  graphite_inv c0 g -> clock_ok c0 (calls ++ [last]) ->
  exists c1,
    graphite_inv c1 (graphite_calls calls g)
    /\ (c1 <= call_now last)%Q /\ (call_now last <= call_later last)%Q.
Proof.
  revert c0 g. induction calls as [|a calls IH]; intros c0 g Hinv Hclock.
  - exists c0. cbn in Hclock. tauto.
  - cbn [app clock_ok] in Hclock. destruct Hclock as (Ha1 & Ha2 & Hrest).
    destruct (graphite_socket_inv (call_net a) c0 (call_now a) (call_later a)
                (call_hostport a) g Hinv Ha1 Ha2) as [Hinv' _].
    exact (IH _ _ Hinv' Hrest).
Qed.

Lemma graphite_initial_inv (c : Q) : graphite_inv c graphite_initial.
Proof.
  unfold graphite_inv, graphite_initial. cbn. repeat split; try discriminate.
  intros s Hs. now apply elem_of_nil in Hs.
Qed.

(** X17: as long as the clock does not go backwards, [_graphite_socket]
    never answers a dead socket: after any calls since the module was
    imported, whatever the network did, the socket that a call answers has
    been connected and has not been closed. *)
Theorem graphite_socket_never_dead (calls : list socket_call)
    (c : socket_call) (c0 : Q) (s : nat) (g : graphite_state) :
  clock_ok c0 (calls ++ [c]) ->
  _graphite_socket (call_net c) (call_now c) (call_later c) (call_hostport c)
                   (graphite_calls calls graphite_initial)
  = (inr s, g) ->
  live (socket_trace g) s.
Proof.
  intros Hclock Hcall.
  destruct (graphite_calls_inv calls c c0 graphite_initial
              (graphite_initial_inv c0) Hclock) as (c1 & Hinv & H1 & H2).
  destruct (graphite_socket_inv (call_net c) c1 (call_now c) (call_later c)
              (call_hostport c) _ Hinv H1 H2) as [_ Hlive].
  rewrite Hcall in Hlive. now apply Hlive.
Qed.

Lemma graphite_socket_never_dead_witness :
  let first := mkCall net_up 0 1 DEFAULT_GRAPHITE_HOST in
  let failed := mkCall net_refusing 700 701 DEFAULT_GRAPHITE_HOST in
  let third := mkCall net_up 702 703 DEFAULT_GRAPHITE_HOST in
  let g := snd (_graphite_socket net_up 702 703 DEFAULT_GRAPHITE_HOST
                  (graphite_calls [first; failed] graphite_initial)) in
  fst (_graphite_socket net_refusing 700 701 DEFAULT_GRAPHITE_HOST
         (graphite_calls [first] graphite_initial))
  = inl (OtherError "socket.error")
  /\ fst (_graphite_socket net_up 702 703 DEFAULT_GRAPHITE_HOST
            (graphite_calls [first; failed] graphite_initial))
     = inr 2%nat
  /\ live (socket_trace g) 2.
Proof.
  cbv zeta. split; [reflexivity|]. split; [reflexivity|].
  apply (graphite_socket_never_dead
           [mkCall net_up 0 1 DEFAULT_GRAPHITE_HOST;
            mkCall net_refusing 700 701 DEFAULT_GRAPHITE_HOST]
           (mkCall net_up 702 703 DEFAULT_GRAPHITE_HOST) 0%Q).
  - cbn. unfold Qle. cbn. lia.
  - reflexivity.
Defined.

(** X18: when the first connection fails, [_graphite_socket] is stuck:
    the socket that could not be connected stays in [_GRAPHITE_SOCKET]
    while [_LAST_GRAPHITE_TIME] is still [None], so every later call
    raises [TypeError], whatever the clock and the network, and changes
    nothing. *)
Theorem graphite_socket_stuck (W : net) (now later : Q) (hostport : ustring)
    (g g1 : graphite_state) (e : exn) (calls : list socket_call) :
  _GRAPHITE_SOCKET g = None -> _LAST_GRAPHITE_TIME g = None ->
  _graphite_socket W now later hostport g = (inl e, g1) ->
  _GRAPHITE_SOCKET g1 <> None ->
  graphite_calls calls g1 = g1
  /\ (forall (W' : net) (now' later' : Q) (hostport' : ustring),
        _graphite_socket W' now' later' hostport' g1 = (inl TypeError, g1))
  /\ (exists host_ip port,
        socket_connect W host_ip port = Some e
        /\ socket_trace g1
           = socket_trace g
             ++ [GetHostByName (hd [] (split_char colon hostport));
                 SockNew (sockets_made g);
                 SockConnect (sockets_made g) host_ip port (Some e)]).
Proof.
  intros Hs Ht Hcall Hs1.
  assert (Hstuck : forall (W' : net) (now' later' : Q) (hostport' : ustring),
             _graphite_socket W' now' later' hostport' g1
             = (inl TypeError, g1)).
  { unfold _graphite_socket in Hcall. rewrite Hs in Hcall.
    unfold graphite_connect in Hcall.
    assert (Ht1 : _LAST_GRAPHITE_TIME g1 = None).
    { destruct (split_char colon hostport) as [|a [|b [|? ?]]];
        try (injection Hcall as _ <-; exact Ht).
      cbv zeta in Hcall.
      destruct (gethostbyname W a); [injection Hcall as _ <-; exact Ht|].
      destruct (int_of_text W b); [injection Hcall as _ <-; exact Ht|].
      destruct (socket_socket W); [injection Hcall as _ <-; exact Ht|].
      destruct (socket_connect W _ _); [|discriminate].
      injection Hcall as _ <-. exact Ht. }
    intros W' now' later' hostport'. unfold _graphite_socket.
    destruct (_GRAPHITE_SOCKET g1); [|contradiction]. now rewrite Ht1. }
  split; [|split; [exact Hstuck|]].
  - induction calls as [|c calls IH]; [reflexivity|].
    unfold graphite_calls in *. cbn [fold_left]. rewrite Hstuck. exact IH.
  - unfold _graphite_socket in Hcall. rewrite Hs in Hcall.
    unfold graphite_connect in Hcall.
    destruct (split_char colon hostport) as [|a [|b [|? ?]]];
      try (injection Hcall as _ <-; contradiction).
    cbv zeta in Hcall.
    destruct (gethostbyname W a) as [?|host_ip];
      [injection Hcall as _ <-; contradiction|].
    destruct (int_of_text W b) as [?|port];
      [injection Hcall as _ <-; contradiction|].
    destruct (socket_socket W); [injection Hcall as _ <-; contradiction|].
    destruct (socket_connect W host_ip port) as [e'|] eqn:Hconn;
      [|discriminate].
    injection Hcall as <- <-. exists host_ip, port. split; [exact Hconn|].
    cbn. now rewrite <- app_assoc.
Qed.

Lemma graphite_socket_stuck_witness :
  let g1 := snd (_graphite_socket net_refusing 0 1 DEFAULT_GRAPHITE_HOST
                                  graphite_initial) in
  _GRAPHITE_SOCKET g1 = Some 0%nat /\ _LAST_GRAPHITE_TIME g1 = None
  /\ _graphite_socket net_up 5000 5001 DEFAULT_GRAPHITE_HOST g1
     = (inl TypeError, g1).
Proof.
  cbv zeta. split; [reflexivity|]. split; [reflexivity|].
  apply (proj1 (proj2 (graphite_socket_stuck net_refusing 0%Q 1%Q
                         DEFAULT_GRAPHITE_HOST graphite_initial _
                         (OtherError "socket.error") []
                         eq_refl eq_refl eq_refl
                         ltac:(discriminate)))).
Defined.

(** *** No socket is left behind *)

Lemma filter_new_in (evs : list socket_event) (n s : nat) :
  List.filter is_new evs = [SockNew n] -> SockNew s ∈ evs -> s = n.
Proof.
  intros Hf Hin.
  assert (H : In (SockNew s) (List.filter is_new evs))
    by (apply List.filter_In; split; [now apply list_elem_of_In | reflexivity]).
  rewrite Hf in H. destruct H as [[= ->] | []]. reflexivity.
Qed.

Lemma no_new_not_in (evs : list socket_event) (s : nat) :
  forallb (fun e => negb (is_new e)) evs = true -> SockNew s ∉ evs.
Proof.
  intros H Hin. rewrite forallb_forall in H.
  apply list_elem_of_In in Hin. specialize (H _ Hin). discriminate.
Qed.

Lemma graphite_connect_no_socket_left (W : net) (later : Q)
    (hostport : ustring) (g : graphite_state) :
  (forall s, SockNew s ∈ socket_trace g -> SockClose s ∈ socket_trace g) ->
  forall s,
    SockNew s ∈ socket_trace (snd (graphite_connect W later hostport g)) ->
    _GRAPHITE_SOCKET (snd (graphite_connect W later hostport g)) = Some s
    \/ SockClose s
         ∈ socket_trace (snd (graphite_connect W later hostport g)).
Proof.
  intros Hclosed s.
  destruct (graphite_connect_cases W later hostport g)
    as (evs & Hevs & [[[e ->] Hnew] | [[[e ->] Hnew] | (-> & Hnew & _)]]);
    cbn [fst snd socket_did socket_trace _GRAPHITE_SOCKET]; intros Hin;
    apply elem_of_app in Hin as [Hin|Hin].
  - right. apply elem_of_app. left. now apply Hclosed.
  - now apply no_new_not_in in Hin.
  - right. apply elem_of_app. left. now apply Hclosed.
  - left. f_equal. symmetry. exact (filter_new_in _ _ _ Hnew Hin).
  - right. apply elem_of_app. left. now apply Hclosed.
  - left. f_equal. symmetry. exact (filter_new_in _ _ _ Hnew Hin).
Qed.

Lemma graphite_socket_no_socket_left (W : net) (now later : Q)
    (hostport : ustring) (g : graphite_state) :
  no_socket_left g ->
  no_socket_left (snd (_graphite_socket W now later hostport g)).
Proof.
  intros Hinv. unfold _graphite_socket.
  destruct (_GRAPHITE_SOCKET g) as [s0|] eqn:Hs0.
  - destruct (_LAST_GRAPHITE_TIME g) as [t|]; [|exact Hinv].
    destruct (Qgt_bool (now - t) 600); [|exact Hinv].
    intros s. apply graphite_connect_no_socket_left.
    cbn [socket_did socket_trace]. intros s' Hin.
    apply elem_of_app in Hin as [Hin|Hin].
    + destruct (Hinv s' Hin) as [Hc|Hc].
      * rewrite Hs0 in Hc. injection Hc as <-. apply elem_of_app. right. left.
      * apply elem_of_app. now left.
    + apply list_elem_of_singleton in Hin. discriminate.
  - intros s. apply graphite_connect_no_socket_left.
    intros s' Hin. destruct (Hinv s' Hin) as [Hc|Hc];
      [rewrite Hs0 in Hc; discriminate | exact Hc].
Qed.

(** X19: [_graphite_socket] leaves no socket behind: after any calls
    since the module was imported, whatever the clock and the network
    did, every socket that was made is the one in [_GRAPHITE_SOCKET] or
    has been closed. *)
Theorem graphite_no_socket_left (calls : list socket_call) (s : nat) :
  let g := graphite_calls calls graphite_initial in
  SockNew s ∈ socket_trace g ->
  _GRAPHITE_SOCKET g = Some s \/ SockClose s ∈ socket_trace g.
Proof.
  cbv zeta. revert s.
  change (no_socket_left (graphite_calls calls graphite_initial)).
  induction calls as [|c calls IH] using rev_ind.
  - intros s Hs. now apply elem_of_nil in Hs.
  - rewrite graphite_calls_app. now apply graphite_socket_no_socket_left.
Qed.

Lemma graphite_no_socket_left_witness :
  let first := mkCall net_up 0 1 DEFAULT_GRAPHITE_HOST in
  let second := mkCall net_up 700 701 DEFAULT_GRAPHITE_HOST in
  let g := graphite_calls [first; second] graphite_initial in
  SockNew 0 ∈ socket_trace g
  /\ _GRAPHITE_SOCKET g = Some 1%nat
  /\ (_GRAPHITE_SOCKET g = Some 0%nat \/ SockClose 0 ∈ socket_trace g).
Proof.
  cbv zeta.
  assert (Hin : SockNew 0
                  ∈ socket_trace
                      (graphite_calls
                         [mkCall net_up 0 1 DEFAULT_GRAPHITE_HOST;
                          mkCall net_up 700 701 DEFAULT_GRAPHITE_HOST]
                         graphite_initial)) by (right; left).
  split; [exact Hin|]. split; [reflexivity|].
  exact (graphite_no_socket_left
           [mkCall net_up 0 1 DEFAULT_GRAPHITE_HOST;
            mkCall net_up 700 701 DEFAULT_GRAPHITE_HOST] 0%nat Hin).
Defined.

(** ** The summary made from the message *)

Lemma severity_prefix_cases (self : Alert) :
  severity_prefix self ∈ severity_prefixes.
Proof.
  unfold severity_prefix, log_priority_to_prefix, severity_prefixes.
  destruct (decide (severity self = logging.DEBUG)) as [->|H1];
    [rewrite lookup_insert_eq; left|rewrite lookup_insert_ne by congruence].
  destruct (decide (severity self = logging.INFO)) as [->|H2];
    [rewrite lookup_insert_eq; right; left
    |rewrite lookup_insert_ne by congruence].
  destruct (decide (severity self = logging.WARNING)) as [->|H3];
    [rewrite lookup_insert_eq; do 2 right; left
    |rewrite lookup_insert_ne by congruence].
  destruct (decide (severity self = logging.ERROR)) as [->|H4];
    [rewrite lookup_insert_eq; do 3 right; left
    |rewrite lookup_insert_ne by congruence].
  destruct (decide (severity self = logging.CRITICAL)) as [->|H5];
    [rewrite lookup_insert_eq; do 4 right; left
    |rewrite lookup_insert_ne by congruence].
  rewrite lookup_empty. right. left.
Qed.

Lemma severity_prefix_bounds (self : Alert) :
  (length (severity_prefix self) <= 20)%nat
  /\ forallb summary_char (severity_prefix self) = true.
Proof.
  pose proof (severity_prefix_cases self) as H. unfold severity_prefixes in H.
  repeat (apply elem_of_cons in H as [-> | H]);
    try (split; [vm_compute; lia | reflexivity]).
  now apply elem_of_nil in H.
Qed.

Lemma take_until_prefix (stop : uchar -> bool) (s : ustring) :
  take_until stop s `prefix_of` s.
Proof.
  induction s as [|c s IH]; cbn; [reflexivity|].
  destruct (stop c); [apply prefix_nil | now apply prefix_cons].
Qed.

Lemma take_until_stops (stop : uchar -> bool) (s : ustring) :
  forallb (fun c => negb (stop c)) (take_until stop s) = true.
Proof.
  induction s as [|c s IH]; cbn; [reflexivity|].
  destruct (stop c) eqn:Hc; [reflexivity|]. cbn. now rewrite Hc, IH.
Qed.

Lemma forallb_prefix (p : uchar -> bool) (s t : ustring) :
  s `prefix_of` t -> forallb p t = true -> forallb p s = true.
Proof.
  intros [k ->]. rewrite forallb_app. intros H.
  now apply andb_true_iff in H as [H _].
Qed.

(** The summary made from the message, before the prefix is added. *)
Lemma derived_summary_body (s : ustring) :
  let body := sentence_cap (length_cap (first_line s)) in
  body `prefix_of` s /\ (length body <= 60)%nat
  /\ forallb summary_char body = true.
Proof.
  cbv zeta. unfold sentence_cap, length_cap, first_line.
  set (line := take_until is_linebreak s).
  set (cut := take 60 line).
  set (body := take_until (fun c => N.eqb c dot) cut).
  assert (Hb : body `prefix_of` cut) by apply take_until_prefix.
  assert (Hc : cut `prefix_of` line) by apply prefix_take.
  assert (Hl : line `prefix_of` s) by apply take_until_prefix.
  split; [exact (transitivity Hb (transitivity Hc Hl))|]. split.
  - apply prefix_length in Hb. unfold cut in Hb.
    rewrite length_take in Hb. lia.
  - unfold summary_char.
    assert (H1 : forallb (fun c => negb (is_linebreak c)) body = true).
    { apply (forallb_prefix _ body line); [exact (transitivity Hb Hc)|].
      apply take_until_stops. }
    pose proof (take_until_stops (fun c => N.eqb c dot) cut) as H2.
    fold body in H2. rewrite forallb_forall in H1, H2 |- *.
    intros c Hc'. now rewrite (H1 c Hc'), (H2 c Hc').
Qed.

(** The summary of an alert without an explicit one. *)
Lemma get_summary_derived (self : Alert) :
  summary self = None ->
  _get_summary self
  = if bool_decide (message self = []) || html self then []
    else severity_prefix self
         ++ sentence_cap (length_cap (first_line (message self))).
Proof.
  intros Hnone. unfold _get_summary. rewrite Hnone.
  destruct (bool_decide (message self = [])); [reflexivity|].
  destruct (html self); [reflexivity|]. cbn.
  now rewrite sentence_cap_code, splitlines_hd.
Qed.

(** X20: the summary that [_get_summary] makes for an alert without an
    explicit one, the subject of its mails, is a prefix taken from the
    table, or nothing, followed by at most sixty characters from the start
    of the message: it is at most eighty characters long and holds no line
    boundary and no ['.']. *)
Theorem derived_summary_bounds (self : Alert) :
  summary self = None ->
  exists prefix body,
    _get_summary self = prefix ++ body
    /\ prefix ∈ severity_prefixes
    /\ body `prefix_of` message self
    /\ (length body <= 60)%nat
    /\ (length (_get_summary self) <= 80)%nat
    /\ forallb summary_char (_get_summary self) = true.
Proof.
  intros Hnone. rewrite (get_summary_derived self Hnone).
  destruct (bool_decide (message self = []) || html self).
  - exists [], []. split; [reflexivity|].
    split; [right; left|]. split; [apply prefix_nil|]. cbn.
    repeat split; lia.
  - destruct (derived_summary_body (message self)) as (Hp & Hl & Hc).
    cbv zeta in Hp, Hl, Hc.
    destruct (severity_prefix_bounds self) as [Hpl Hpc].
    exists (severity_prefix self),
           (sentence_cap (length_cap (first_line (message self)))).
    split; [reflexivity|]. split; [apply severity_prefix_cases|].
    split; [exact Hp|]. split; [exact Hl|]. split.
    + rewrite length_app. lia.
    + now rewrite forallb_app, Hpc, Hc.
Qed.

Lemma derived_summary_bounds_witness :
  let self := Alert_init (u "Disk full. Call ops" ++ [newline] ++ u "details")
                         None logging.ERROR false None in
  _get_summary self = u "ERROR: Disk full"
  /\ exists prefix body,
       _get_summary self = prefix ++ body
       /\ prefix ∈ severity_prefixes
       /\ body `prefix_of` message self
       /\ (length body <= 60)%nat
       /\ (length (_get_summary self) <= 80)%nat
       /\ forallb summary_char (_get_summary self) = true.
Proof.
  cbv zeta. split; [reflexivity|].
  apply (derived_summary_bounds
           (Alert_init (u "Disk full. Call ops" ++ [newline] ++ u "details")
                       None logging.ERROR false None)).
  reflexivity.
Defined.

(** ** The addresses of PagerDuty services *)

Lemma pagerduty_legal_iff (c : uchar) :
  pagerduty_legal c = true
  <-> (48 <= c <= 57 \/ 65 <= c <= 90 \/ 97 <= c <= 122
       \/ c = 46 \/ c = 95 \/ c = 45)%N.
Proof.
  unfold pagerduty_legal.
  rewrite !orb_true_iff, !andb_true_iff, !N.leb_le, !N.eqb_eq. tauto.
Qed.

Lemma address_char_iff (c : uchar) :
  address_char c = true
  <-> (97 <= c <= 122 \/ 48 <= c <= 57 \/ c = 46 \/ c = 95 \/ c = 45)%N.
Proof.
  unfold address_char.
  rewrite !orb_true_iff, !andb_true_iff, !N.leb_le, !N.eqb_eq. tauto.
Qed.

Lemma lower_char_cases (c : uchar) :
  ((65 <= c <= 90)%N /\ lower_char c = (c + 32)%N)
  \/ (~ (65 <= c <= 90)%N /\ lower_char c = c).
Proof.
  unfold lower_char.
  destruct (N.leb_spec 65 c), (N.leb_spec c 90); cbn [andb];
    [left | right ..]; split; try reflexivity; lia.
Qed.

Lemma lower_legal_char (c : uchar) :
  pagerduty_legal c = true ->
  address_char (lower_char c) = true
  /\ pagerduty_legal (lower_char c) = true
  /\ lower_char (lower_char c) = lower_char c.
Proof.
  intros H. apply pagerduty_legal_iff in H.
  destruct (lower_char_cases c) as [[Hc ->] | [Hc ->]].
  - split; [apply address_char_iff; lia|].
    split; [apply pagerduty_legal_iff; lia|].
    destruct (lower_char_cases (c + 32)) as [[Hc' _] | [_ ->]];
      [lia | reflexivity].
  - split; [apply address_char_iff; lia|]. split.
    + apply pagerduty_legal_iff; lia.
    + destruct (lower_char_cases c) as [[Hc' _] | [_ ->]];
        [contradiction | reflexivity].
Qed.

Lemma service_local_spec (x : ustring) :
  forallb address_char (service_local x) = true
  /\ (length (service_local x) <= length x)%nat
  /\ service_local (service_local x) = service_local x.
Proof.
  unfold service_local, lower, _PAGERDUTY_ILLEGAL_CHARS_sub.
  induction x as [|c x (IH1 & IH2 & IH3)]; [repeat split; cbn; lia|].
  cbn [List.filter]. destruct (pagerduty_legal c) eqn:Hc.
  - destruct (lower_legal_char c Hc) as (H1 & H2 & H3).
    cbn [List.map forallb length List.filter]. rewrite H1, H2, IH1.
    cbn [List.map]. rewrite H3, IH3. repeat split. lia.
  - split; [exact IH1|]. split; [cbn [length]; lia | exact IH3].
Qed.

Lemma address_char_not_at (s : ustring) :
  forallb address_char s = true -> count_char at_sign s = 0%nat.
Proof.
  unfold count_char. induction s as [|c s IH]; [reflexivity|].
  cbn [forallb List.filter]. intros H. apply andb_true_iff in H as [Hc Hs].
  destruct (N.eqb_spec at_sign c) as [<-|_]; [discriminate | now apply IH].
Qed.

(** X21: the address that [send_to_pagerduty] makes of a service name is
    [@khan-academy.pagerduty.com] after lower-case letters, digits and
    the characters [._-] only, no more of them than the name has
    characters, so it holds one ['@']; converting the part before the
    ['@'] again gives the same address; and a name without a letter, a
    digit or one of [._-] gives the address with nothing before the
    ['@']. *)
Theorem service_email_shape (x : ustring) :
  service_email x = service_local x ++ pagerduty_com
  /\ forallb address_char (service_local x) = true
  /\ (length (service_local x) <= length x)%nat
  /\ count_char at_sign (service_email x) = 1%nat
  /\ service_email (service_local x) = service_email x
  /\ (forallb (fun c => negb (pagerduty_legal c)) x = true
      <-> service_email x = pagerduty_com).
Proof.
  destruct (service_local_spec x) as (H1 & H2 & H3).
  split; [reflexivity|]. split; [exact H1|]. split; [exact H2|].
  split; [|split].
  - unfold service_email. fold (service_local x).
    now rewrite count_char_app, (address_char_not_at _ H1).
  - unfold service_email. fold (service_local (service_local x)).
    fold (service_local x). now rewrite H3.
  - unfold service_email. fold (service_local x).
    assert (Hnil : service_local x = [] <->
                   forallb (fun c => negb (pagerduty_legal c)) x = true).
    { unfold service_local, lower, _PAGERDUTY_ILLEGAL_CHARS_sub.
      clear. induction x as [|c x IH]; [cbn; tauto|].
      cbn [List.filter forallb]. destruct (pagerduty_legal c); cbn.
      - split; discriminate.
      - exact IH. }
    rewrite <- Hnil. split; [now intros ->|].
    intros H. apply (app_inv_tail pagerduty_com).
    now rewrite app_nil_l.
Qed.
